(** * Smart Parking Lot System: a shallow embedding and its properties

    The development follows the TypeScript sources:
    - [types/index.ts]                      enumerations and [ParkingRate];
    - [models/Vehicle.ts], [models/ParkingSpot.ts], [models/ParkingTicket.ts];
    - [repositories/ParkingLotRepository.ts] three insertion-ordered [Map]s;
    - [services/ParkingSpotManager.ts], [services/FeeCalculator.ts],
      [services/ParkingLotService.ts].

    Conventions of the embedding.
    - A JavaScript [Map] is an insertion-ordered association list ([JsMap]).
    - A JavaScript [number] is an exact number: [Z] for floors and
      millisecond timestamps, [nat] for counters that only count up from
      one, [Q] for durations in hours and for money.
    - Objects are shared by reference in the source.  A parking spot
      object is identified with the key under which the repository holds
      it (its [id], which is [readonly]); a ticket object with its
      [ticketId].  A ticket refers to its spot, and the vehicle index to
      its ticket, by that key; a mutation of an object is a write through
      it.  The invariant [Inv] below shows that in every run of the
      service a key is bound once and every reference resolves.
    - Methods that may [throw] live in a state monad whose outcome is
      either a returned value or a thrown error; the state reached at the
      moment of the throw is kept, as in the source.
    - [async]/[Mutex.runExclusive] only serialises calls; each operation is
      one atomic function on the state. *)

From Stdlib Require Import List String Ascii ZArith QArith Qround Lia Bool Arith.
From Stdlib Require Import DecimalString DecimalNat.
From Stdlib Require OrderedTypeEx.
From Stdlib Require Finite Permutation Sorted DecimalZ.
From Stdlib Require Qpower Qabs Floats.
Import ListNotations.

Local Open Scope string_scope.
Local Open Scope Z_scope.
Local Open Scope list_scope.

(** ** Decidable equality on keys *)

Class EqDec (K : Type) := eq_dec : forall x y : K, {x = y} + {x <> y}.

#[global] Instance string_EqDec : EqDec string := string_dec.

(** ** JavaScript [Map]: insertion-ordered association lists *)

Module JsMap.

Section Ops.
Context {K V : Type} `{EqDec K}.

Definition t := list (K * V).

Definition empty : t := [].

(** [Map.prototype.get] *)
Fixpoint get (k : K) (m : t) : option V :=
  match m with
  | [] => None
  | (k', v) :: m' => if eq_dec k k' then Some v else get k m'
  end.

(** [Map.prototype.set]: an existing key keeps its position. *)
Fixpoint set (k : K) (v : V) (m : t) : t :=
  match m with
  | [] => [(k, v)]
  | (k', v') :: m' =>
      if eq_dec k k' then (k, v) :: m' else (k', v') :: set k v m'
  end.

(** [Map.prototype.delete] *)
Fixpoint delete (k : K) (m : t) : t :=
  match m with
  | [] => []
  | (k', v') :: m' =>
      if eq_dec k k' then delete k m' else (k', v') :: delete k m'
  end.

Definition keys (m : t) : list K := map fst m.

(** [Array.from(m.values())] *)
Definition values (m : t) : list V := map snd m.

Definition size (m : t) : nat := List.length m.

(** Keys are unique, as in every [Map]. *)
Definition wf (m : t) : Prop := NoDup (keys m).

End Ops.

Arguments t : clear implicits.

End JsMap.

(** ** [types/index.ts] *)

Module VehicleType.
Inductive t : Set := MOTORCYCLE | CAR | BUS.

#[global] Instance t_EqDec : EqDec t.
Proof. unfold EqDec. decide equality. Defined.
End VehicleType.

Module SpotType.
Inductive t : Set := MOTORCYCLE | COMPACT | LARGE.
End SpotType.

Record ParkingRate : Set := mkRate {
  vehicleType : VehicleType.t;
  baseFee : Q;       (* first hour flat fee *)
  hourlyRate : Q     (* additional hours rate *)
}.

(** ** Thrown errors, one constructor per [throw new Error(...)] site *)

Inductive Error : Set :=
| SpotAlreadyOccupied (spotId : string)            (* ParkingSpot.occupy *)
| TicketAlreadyCompleted (ticketId : string)       (* ParkingTicket.complete *)
| NoRateFound (vt : VehicleType.t)                 (* FeeCalculator.calculateFee *)
| SpotNotFound (spotId : string)                   (* ParkingSpotManager.releaseSpot *)
| AlreadyParked (licensePlate spotId : string)     (* ParkingLotService.checkInVehicle *)
| NoActiveSession (licensePlate : string).         (* ParkingLotService.checkOutVehicle *)

Inductive Outcome (A : Type) : Type :=
| Return (a : A)
| Throw (e : Error).

Arguments Return {A} a.
Arguments Throw {A} e.

(** ** [models/Vehicle.ts] *)

Module Vehicle.
Record t : Set := mk {
  licensePlate : string;
  type : VehicleType.t;
  ownerName : option string
}.
End Vehicle.

(** ** [models/ParkingSpot.ts] *)

Module ParkingSpot.
Record t : Set := mk {
  id : string;
  floor : Z;
  spotType : SpotType.t;
  isAvailable : bool;
  currentVehicleLicense : option string
}.

(** [constructor(id, floor, spotType)] *)
Definition new (id : string) (floor : Z) (spotType : SpotType.t) : t :=
  mk id floor spotType true None.

Definition canFit (this : t) (vehicleType : VehicleType.t) : bool :=
  match spotType this with
  | SpotType.MOTORCYCLE =>
      match vehicleType with VehicleType.MOTORCYCLE => true | _ => false end
  | SpotType.COMPACT =>
      match vehicleType with
      | VehicleType.MOTORCYCLE | VehicleType.CAR => true
      | _ => false
      end
  | SpotType.LARGE => true
  end.

(** A method that mutates its object gives the outcome of the call and
    the object as the call leaves it. *)
Definition occupy (vehicleLicense : string) (this : t) : Outcome unit * t :=
  if negb (isAvailable this)
  then (Throw (SpotAlreadyOccupied (id this)), this)
  else (Return tt,
        mk (id this) (floor this) (spotType this) false
           (Some vehicleLicense)).

Definition release (this : t) : t :=
  mk (id this) (floor this) (spotType this) true None.
End ParkingSpot.

(** ** [models/ParkingTicket.ts] *)

Module ParkingTicket.
Record t : Set := mk {
  ticketId : string;
  vehicle : Vehicle.t;
  spot : string;            (* reference to the spot object, by its id *)
  entryTime : Z;            (* [Date], milliseconds since the epoch *)
  exitTime : option Z;
  fee : option Q
}.

(** [constructor(ticketId, vehicle, spot, entryTime)] *)
Definition new (ticketId : string) (vehicle : Vehicle.t) (spot : string)
    (entryTime : Z) : t :=
  mk ticketId vehicle spot entryTime None None.

Definition isActive (this : t) : bool :=
  match exitTime this with None => true | Some _ => false end.

Definition complete (exitTime' : Z) (fee' : Q) (this : t)
    : Outcome unit * t :=
  if negb (isActive this)
  then (Throw (TicketAlreadyCompleted (ticketId this)), this)
  else (Return tt,
        mk (ticketId this) (vehicle this) (spot this)
           (entryTime this) (Some exitTime') (Some fee')).

(** The arithmetic of [getDuration], for the end time it settles on:
    [(endTime.getTime() - entryTime.getTime()) / (1000 * 60 * 60)]. *)
Definition hoursUntil (endTime : Z) (this : t) : Q :=
  (inject_Z (endTime - entryTime this) / inject_Z (1000 * 60 * 60))%Q.
End ParkingTicket.

(** ** The state of one parking lot

    The three maps of [ParkingLotRepository], the rate table of
    [FeeCalculator], the counter of [ParkingLotService], and the host
    clock: [clock n] is what the [n]-th evaluation of [new Date()]
    returns. *)

Record World : Type := mkWorld {
  spots : JsMap.t string ParkingSpot.t;
  tickets : JsMap.t string ParkingTicket.t;
  activeTicketsByVehicle : JsMap.t string string;   (* plate to ticket, by id *)
  rates : JsMap.t VehicleType.t ParkingRate;
  ticketCounter : nat;
  clock : nat -> Z;
  clockReads : nat
}.

Definition with_spots
    (f : JsMap.t string ParkingSpot.t -> JsMap.t string ParkingSpot.t)
    (w : World) : World :=
  mkWorld (f (spots w)) (tickets w) (activeTicketsByVehicle w) (rates w)
          (ticketCounter w) (clock w) (clockReads w).

Definition with_tickets
    (f : JsMap.t string ParkingTicket.t -> JsMap.t string ParkingTicket.t)
    (w : World) : World :=
  mkWorld (spots w) (f (tickets w)) (activeTicketsByVehicle w) (rates w)
          (ticketCounter w) (clock w) (clockReads w).

Definition with_active (f : JsMap.t string string -> JsMap.t string string)
    (w : World) : World :=
  mkWorld (spots w) (tickets w) (f (activeTicketsByVehicle w)) (rates w)
          (ticketCounter w) (clock w) (clockReads w).

Definition with_rates
    (f : JsMap.t VehicleType.t ParkingRate -> JsMap.t VehicleType.t ParkingRate)
    (w : World) : World :=
  mkWorld (spots w) (tickets w) (activeTicketsByVehicle w) (f (rates w))
          (ticketCounter w) (clock w) (clockReads w).

Definition with_ticketCounter (f : nat -> nat) (w : World) : World :=
  mkWorld (spots w) (tickets w) (activeTicketsByVehicle w) (rates w)
          (f (ticketCounter w)) (clock w) (clockReads w).

Definition with_clockReads (f : nat -> nat) (w : World) : World :=
  mkWorld (spots w) (tickets w) (activeTicketsByVehicle w) (rates w)
          (ticketCounter w) (clock w) (f (clockReads w)).

(** ** The monad of methods: state, and a value or a thrown error *)

Definition M (A : Type) : Type := World -> Outcome A * World.

Definition ret {A} (a : A) : M A := fun w => (Return a, w).

Definition throw {A} (e : Error) : M A := fun w => (Throw e, w).

Definition bind {A B} (c : M A) (k : A -> M B) : M B :=
  fun w =>
    match c w with
    | (Return a, w') => k a w'
    | (Throw e, w') => (Throw e, w')
    end.

Definition gets {A} (f : World -> A) : M A := fun w => (Return (f w), w).

Definition modify (f : World -> World) : M unit := fun w => (Return tt, f w).

Declare Scope monad_scope.
Delimit Scope monad_scope with monad.
Notation "x <- c ;; k" := (bind c (fun x => k))
  (at level 61, c at next level, right associativity) : monad_scope.
Notation "c ;; k" := (bind c (fun _ => k))
  (at level 61, right associativity) : monad_scope.
Local Open Scope monad_scope.

(** [new Date()] *)
Definition newDate : M Z :=
  n <- gets clockReads ;;
  now <- gets (fun w => clock w n) ;;
  modify (with_clockReads S) ;;
  ret now.

(** [ParkingTicket.getDuration]: [this._exitTime || new Date()]. *)
Definition getDuration (this : ParkingTicket.t) : M Q :=
  endTime <- match ParkingTicket.exitTime this with
             | Some e => ret e
             | None => newDate
             end ;;
  ret (ParkingTicket.hoursUntil endTime this).

(** ** [repositories/ParkingLotRepository.ts] *)

Definition addSpot (spot : ParkingSpot.t) : M unit :=
  modify (with_spots (JsMap.set (ParkingSpot.id spot) spot)).

Definition getSpot (spotId : string) : M (option ParkingSpot.t) :=
  gets (fun w => JsMap.get spotId (spots w)).

Definition getAllSpots : M (list ParkingSpot.t) :=
  gets (fun w => JsMap.values (spots w)).

Definition getAvailableSpots : M (list ParkingSpot.t) :=
  all <- getAllSpots ;;
  ret (filter ParkingSpot.isAvailable all).

Definition addTicket (ticket : ParkingTicket.t) : M unit :=
  modify (with_tickets (JsMap.set (ParkingTicket.ticketId ticket) ticket)) ;;
  if ParkingTicket.isActive ticket then
    modify (with_active
              (JsMap.set (Vehicle.licensePlate (ParkingTicket.vehicle ticket))
                         (ParkingTicket.ticketId ticket)))
  else ret tt.

Definition getTicket (ticketId : string) : M (option ParkingTicket.t) :=
  gets (fun w => JsMap.get ticketId (tickets w)).

Definition getActiveTicketByVehicle (licensePlate : string)
    : M (option ParkingTicket.t) :=
  gets (fun w =>
          match JsMap.get licensePlate (activeTicketsByVehicle w) with
          | Some ref => JsMap.get ref (tickets w)
          | None => None
          end).

Definition completeTicket (ticketId : string) : M unit :=
  ticket <- getTicket ticketId ;;
  match ticket with
  | Some ticket =>
      modify (with_active
                (JsMap.delete
                   (Vehicle.licensePlate (ParkingTicket.vehicle ticket))))
  | None => ret tt
  end.

Definition getAllTickets : M (list ParkingTicket.t) :=
  gets (fun w => JsMap.values (tickets w)).

Definition getActiveTickets : M (list ParkingTicket.t) :=
  all <- getAllTickets ;;
  ret (filter ParkingTicket.isActive all).

(** The effect, seen through the repository, of a mutation of a spot
    object or of a ticket object: the entry under the object's key now
    reads as the mutated object. *)
Definition writeSpot (spot : ParkingSpot.t) : M unit :=
  modify (with_spots (JsMap.set (ParkingSpot.id spot) spot)).

Definition writeTicket (ticket : ParkingTicket.t) : M unit :=
  modify (with_tickets (JsMap.set (ParkingTicket.ticketId ticket) ticket)).

(** A call of a mutating method on an object the repository holds: the
    object is left as the method leaves it, and the call hands back the
    object or throws. *)
Definition callOnSpot (spot : ParkingSpot.t)
    (method : ParkingSpot.t -> Outcome unit * ParkingSpot.t)
    : M ParkingSpot.t :=
  let (outcome, spot') := method spot in
  writeSpot spot' ;;
  match outcome with
  | Return _ => ret spot'
  | Throw e => throw e
  end.

Definition callOnTicket (ticket : ParkingTicket.t)
    (method : ParkingTicket.t -> Outcome unit * ParkingTicket.t)
    : M ParkingTicket.t :=
  let (outcome, ticket') := method ticket in
  writeTicket ticket' ;;
  match outcome with
  | Return _ => ret ticket'
  | Throw e => throw e
  end.

(** ** [Array.prototype.sort] with a comparator

    The sort of the language is stable; an insertion sort that places an
    element before the first one it does not exceed is. *)

Section Sort.
Variable A : Type.
Variable cmp : A -> A -> Z.

Fixpoint insert (x : A) (l : list A) : list A :=
  match l with
  | [] => [x]
  | y :: l' => if cmp x y <=? 0 then x :: l else y :: insert x l'
  end.

Fixpoint sort (l : list A) : list A :=
  match l with
  | [] => []
  | x :: l' => insert x (sort l')
  end.
End Sort.

Arguments insert {A} cmp x l.
Arguments sort {A} cmp l.

(** ** [String(n)] for a counter and [String.prototype.padStart] *)

Definition String_of_nat (n : nat) : string :=
  NilEmpty.string_of_uint (Nat.to_uint n).

Fixpoint repeatChar (c : ascii) (n : nat) : string :=
  match n with
  | O => EmptyString
  | S n' => String c (repeatChar c n')
  end.

Definition padStart (targetLength : nat) (c : ascii) (s : string) : string :=
  repeatChar c (targetLength - String.length s) ++ s.

(** ** [services/FeeCalculator.ts] *)

Definition defaultRates : list ParkingRate :=
  [ mkRate VehicleType.MOTORCYCLE 2 1;
    mkRate VehicleType.CAR 5 (5 # 2);
    mkRate VehicleType.BUS 10 5 ].

(** [constructor(rates?)]: [rates || defaultRates], each set in turn. *)
Definition FeeCalculator_new (rates : option (list ParkingRate))
    : JsMap.t VehicleType.t ParkingRate :=
  fold_left (fun m rate => JsMap.set (vehicleType rate) rate m)
            (match rates with Some l => l | None => defaultRates end)
            JsMap.empty.

Definition calculateFee (vehicleType : VehicleType.t) (durationHours : Q)
    : M Q :=
  rate <- gets (fun w => JsMap.get vehicleType (rates w)) ;;
  match rate with
  | None => throw (NoRateFound vehicleType)
  | Some rate =>
      let hours := Qceiling durationHours in
      if hours <=? 1 then ret (baseFee rate)
      else
        let additionalHours := hours - 1 in
        ret (baseFee rate + inject_Z additionalHours * hourlyRate rate)%Q
  end.

Definition getRate (vehicleType : VehicleType.t) : M (option ParkingRate) :=
  gets (fun w => JsMap.get vehicleType (rates w)).

Definition setRate (rate : ParkingRate) : M unit :=
  modify (with_rates (JsMap.set (vehicleType rate) rate)).

(** ** The services that sort spots

    [String.prototype.localeCompare] belongs to the host; the services
    are written over it. *)

Section Services.

Variable localeCompare : string -> string -> Z.

(** *** [services/ParkingSpotManager.ts] *)

(** The comparator handed to [sort] in [allocateSpot]. *)
Definition spotOrder (a b : ParkingSpot.t) : Z :=
  if negb (ParkingSpot.floor a =? ParkingSpot.floor b)
  then ParkingSpot.floor a - ParkingSpot.floor b
  else localeCompare (ParkingSpot.id a) (ParkingSpot.id b).

Definition allocateSpot (vehicleType : VehicleType.t) (vehicleLicense : string)
    : M (option ParkingSpot.t) :=
  available <- getAvailableSpots ;;
  let availableSpots :=
    sort spotOrder
         (filter (fun spot => ParkingSpot.canFit spot vehicleType) available) in
  match availableSpots with
  | [] => ret None
  | selectedSpot :: _ =>
      occupied <- callOnSpot selectedSpot
                             (ParkingSpot.occupy vehicleLicense) ;;
      ret (Some occupied)
  end.

Definition releaseSpot (spotId : string) : M unit :=
  spot <- getSpot spotId ;;
  match spot with
  | None => throw (SpotNotFound spotId)
  | Some spot =>
      modify (with_spots (JsMap.set spotId (ParkingSpot.release spot)))
  end.

Definition hasAvailableSpot (vehicleType : VehicleType.t) : M bool :=
  available <- getAvailableSpots ;;
  ret (existsb (fun spot => ParkingSpot.canFit spot vehicleType) available).

(** *** [services/ParkingLotService.ts] *)

(** [`T${String(this.ticketCounter++).padStart(6, '0')}`] *)
Definition ticketIdOf (n : nat) : string :=
  "T" ++ padStart 6 "0"%char (String_of_nat n).

Definition generateTicketId : M string :=
  n <- gets ticketCounter ;;
  modify (with_ticketCounter S) ;;
  ret (ticketIdOf n).

Definition checkInVehicle (vehicle : Vehicle.t) : M (option ParkingTicket.t) :=
  existingTicket <- getActiveTicketByVehicle (Vehicle.licensePlate vehicle) ;;
  match existingTicket with
  | Some existingTicket =>
      throw (AlreadyParked (Vehicle.licensePlate vehicle)
                           (ParkingTicket.spot existingTicket))
  | None =>
      spot <- allocateSpot (Vehicle.type vehicle)
                           (Vehicle.licensePlate vehicle) ;;
      match spot with
      | None => ret None
      | Some spot =>
          ticketId <- generateTicketId ;;
          entryTime <- newDate ;;
          let ticket :=
            ParkingTicket.new ticketId vehicle (ParkingSpot.id spot)
                              entryTime in
          addTicket ticket ;;
          ret (Some ticket)
      end
  end.

Definition checkOutVehicle (licensePlate : string) : M ParkingTicket.t :=
  ticket <- getActiveTicketByVehicle licensePlate ;;
  match ticket with
  | None => throw (NoActiveSession licensePlate)
  | Some ticket =>
      exitTime <- newDate ;;
      duration <- getDuration ticket ;;
      fee <- calculateFee (Vehicle.type (ParkingTicket.vehicle ticket))
                          duration ;;
      completed <- callOnTicket ticket
                                (ParkingTicket.complete exitTime fee) ;;
      completeTicket (ParkingTicket.ticketId completed) ;;
      releaseSpot (ParkingTicket.spot completed) ;;
      ret completed
  end.

(** One inner loop of [initializeParkingLot]: [count] spots of one type on
    one floor; the running [spotIdCounter] is handed on. *)
Fixpoint addSpots (prefix : string) (spotType : SpotType.t) (floor : Z)
    (count : nat) (spotIdCounter : nat) : M nat :=
  match count with
  | O => ret spotIdCounter
  | S count' =>
      addSpot (ParkingSpot.new (prefix ++ String_of_nat spotIdCounter)
                               floor spotType) ;;
      addSpots prefix spotType floor count' (S spotIdCounter)
  end.

(** The outer loop, [remaining] floors from [floor] on. *)
Fixpoint addFloors (spotsPerFloor : SpotType.t -> nat) (remaining : nat)
    (floor : nat) (spotIdCounter : nat) : M nat :=
  match remaining with
  | O => ret spotIdCounter
  | S remaining' =>
      c1 <- addSpots "M" SpotType.MOTORCYCLE (Z.of_nat floor)
                     (spotsPerFloor SpotType.MOTORCYCLE) spotIdCounter ;;
      c2 <- addSpots "C" SpotType.COMPACT (Z.of_nat floor)
                     (spotsPerFloor SpotType.COMPACT) c1 ;;
      c3 <- addSpots "L" SpotType.LARGE (Z.of_nat floor)
                     (spotsPerFloor SpotType.LARGE) c2 ;;
      addFloors spotsPerFloor remaining' (S floor) c3
  end.

Definition initializeParkingLot (floors : nat)
    (spotsPerFloor : SpotType.t -> nat) : M unit :=
  addFloors spotsPerFloor floors 1%nat 1%nat ;;
  ret tt.

(** [new ParkingLotRepository()], [new FeeCalculator(rates)] and
    [new ParkingLotService(...)] on a host with the given clock. *)
Definition newService (rates : option (list ParkingRate)) (clock : nat -> Z)
    : World :=
  mkWorld JsMap.empty JsMap.empty JsMap.empty (FeeCalculator_new rates)
          1%nat clock 0%nat.

(** ** Runs of the service *)

Inductive Op : Type :=
| CheckIn (vehicle : Vehicle.t)
| CheckOut (licensePlate : string)
| Allocate (vehicleType : VehicleType.t) (vehicleLicense : string)
| Release (spotId : string).

(** The state a call leaves, whether it returns or throws. *)
Definition exec (op : Op) (w : World) : World :=
  match op with
  | CheckIn vehicle => snd (checkInVehicle vehicle w)
  | CheckOut licensePlate => snd (checkOutVehicle licensePlate w)
  | Allocate vehicleType vehicleLicense =>
      snd (allocateSpot vehicleType vehicleLicense w)
  | Release spotId => snd (releaseSpot spotId w)
  end.

Definition run (ops : list Op) (w : World) : World :=
  fold_left (fun w op => exec op w) ops w.

(** An initialized lot: a fresh service after one [initializeParkingLot]. *)
Definition initialized (rates : option (list ParkingRate)) (clock : nat -> Z)
    (floors : nat) (spotsPerFloor : SpotType.t -> nat) : World :=
  snd (initializeParkingLot floors spotsPerFloor (newService rates clock)).

Inductive Reachable : World -> Prop :=
| Reachable_init rates clock floors spotsPerFloor :
    Reachable (initialized rates clock floors spotsPerFloor)
| Reachable_step op w :
    Reachable w -> Reachable (exec op w).

End Services.

(** * The rest of the services *)

(** ** [types/index.ts], continued *)

(** The string an enumeration member stands for. *)
Definition spotTypeName (spotType : SpotType.t) : string :=
  match spotType with
  | SpotType.MOTORCYCLE => "MOTORCYCLE"
  | SpotType.COMPACT => "COMPACT"
  | SpotType.LARGE => "LARGE"
  end.

Module AvailabilitySummary.
Record t : Set := mk {
  floor : Z;
  spotType : SpotType.t;
  available : nat;
  total : nat
}.
End AvailabilitySummary.

(** [String(n)] for an integer, as a template literal prints a floor. *)
Definition String_of_Z (n : Z) : string :=
  NilEmpty.string_of_int (Z.to_int n).

(** [Map.prototype.has] *)
Definition mapHas {K V : Type} `{EqDec K} (k : K) (m : JsMap.t K V) : bool :=
  match JsMap.get k m with
  | Some _ => true
  | None => false
  end.

(** ** [ParkingSpotManager.getAvailability] *)

(** [`${spot.floor}-${spot.spotType}`] *)
Definition summaryKey (spot : ParkingSpot.t) : string :=
  String_of_Z (ParkingSpot.floor spot) ++ "-"
  ++ spotTypeName (ParkingSpot.spotType spot).

(** The body of the [forEach]: the summary of the spot's group is created
    when the key is new, then counted up where it sits in the map. *)
Definition countSpot (summaryMap : JsMap.t string AvailabilitySummary.t)
    (spot : ParkingSpot.t) : JsMap.t string AvailabilitySummary.t :=
  let key := summaryKey spot in
  let summaryMap :=
    if negb (mapHas key summaryMap)
    then JsMap.set key
           (AvailabilitySummary.mk (ParkingSpot.floor spot)
                                   (ParkingSpot.spotType spot) 0 0)
           summaryMap
    else summaryMap in
  match JsMap.get key summaryMap with
  | Some summary =>
      let total := S (AvailabilitySummary.total summary) in
      let available :=
        if ParkingSpot.isAvailable spot
        then S (AvailabilitySummary.available summary)
        else AvailabilitySummary.available summary in
      JsMap.set key
        (AvailabilitySummary.mk (AvailabilitySummary.floor summary)
                                (AvailabilitySummary.spotType summary)
                                available total)
        summaryMap
  | None => summaryMap
  end.

Section Availability.

Variable localeCompare : string -> string -> Z.

(** The comparator handed to [sort] in [getAvailability]. *)
Definition summaryOrder (a b : AvailabilitySummary.t) : Z :=
  if negb (AvailabilitySummary.floor a =? AvailabilitySummary.floor b)
  then AvailabilitySummary.floor a - AvailabilitySummary.floor b
  else localeCompare (spotTypeName (AvailabilitySummary.spotType a))
                     (spotTypeName (AvailabilitySummary.spotType b)).

Definition getAvailability : M (list AvailabilitySummary.t) :=
  spots <- getAllSpots ;;
  let summaryMap := fold_left countSpot spots JsMap.empty in
  ret (sort summaryOrder (JsMap.values summaryMap)).

End Availability.

(** * Numbers as the host computes them

    A [number] of the language is an IEEE 754 binary64 value, and [+],
    [-] and [*] return the exact result rounded to the nearest such
    value, ties to the even significand.  [nearest q] is that rounding
    of a rational [q] on the grid of the doubles: a significand of 53
    bits, exponents down to the subnormal step 2^-1074.  A result whose
    magnitude reaches [overflow], half a step above the largest double,
    is an infinity in the host; [double q] is then [None], which stands
    for every number that is not finite. *)

(** The exponent of the binade of a positive rational:
    [2 ^ ilog2 q <= q < 2 ^ (ilog2 q + 1)]. *)
Definition ilog2 (q : Q) : Z :=
  let e := Z.log2 (Qnum q) - Z.log2 (Zpos (Qden q)) in
  if Qle_bool (2 ^ e) q then e else e - 1.

(** The nearest integer, a tie going to the even one. *)
Definition roundHalfEven (q : Q) : Z :=
  let f := Qfloor q in
  match Qcompare (q - inject_Z f) (1 # 2) with
  | Lt => f
  | Gt => f + 1
  | Eq => if Z.even f then f else f + 1
  end.

Definition nearest (q : Q) : Q :=
  if Qeq_bool q 0 then 0%Q
  else
    let e := ilog2 (Qabs.Qabs q) in
    let ulp := Z.max (e - 52) (-1074) in
    Qred (inject_Z (roundHalfEven (q / 2 ^ ulp)) * 2 ^ ulp).

Definition overflow : Q := inject_Z (2 ^ 1024 - 2 ^ 970).

Definition double (q : Q) : option Q :=
  if Qle_bool overflow (Qabs.Qabs q) then None else Some (nearest q).

(** [x + y], [x - y] and [x * y] on numbers; an operand that is not
    finite gives a result that is not finite. *)
Definition fadd (x y : option Q) : option Q :=
  match x, y with
  | Some a, Some b => double (a + b)
  | _, _ => None
  end.

Definition fsub (x y : option Q) : option Q :=
  match x, y with
  | Some a, Some b => double (a - b)
  | _, _ => None
  end.

Definition fmul (x y : option Q) : option Q :=
  match x, y with
  | Some a, Some b => double (a * b)
  | _, _ => None
  end.

(** The rationals that are binary64 values. *)
Definition binary64 (q : Q) : Prop :=
  exists m k : Z,
    Z.abs m < 2 ^ 53 /\ -1074 <= k <= 971 /\ (q == inject_Z m * 2 ^ k)%Q.

(** The rational a primitive float of the proof assistant stands for,
    [None] for an infinity or NaN; its floats are binary64 values
    computed by the processor. *)
Definition Q_of_float (x : PrimFloat.float) : option Q :=
  match FloatOps.Prim2SF x with
  | SpecFloat.S754_zero _ => Some 0%Q
  | SpecFloat.S754_finite s m e =>
      Some (Qred (inject_Z (if s then Z.neg m else Z.pos m) * 2 ^ e))
  | _ => None
  end.

(** A whole number as a float. *)
Definition float_of_positive (p : positive) : PrimFloat.float :=
  FloatOps.SF2Prim (SpecFloat.S754_finite false p 0).

(** ** [FeeCalculator.calculateFee] in the arithmetic of the host

    [calculateFee] above adds and multiplies rationals exactly.  Here the
    difference, the product and the sum are rounded as the host rounds
    them; [Math.ceil] and the comparison are exact on numbers. *)
Definition calculateFee64 (vehicleType : VehicleType.t) (durationHours : Q)
    : M (option Q) :=
  rate <- gets (fun w => JsMap.get vehicleType (rates w)) ;;
  match rate with
  | None => throw (NoRateFound vehicleType)
  | Some rate =>
      let hours := Qceiling durationHours in
      if hours <=? 1 then ret (Some (baseFee rate))
      else
        let additionalHours := fsub (Some (inject_Z hours)) (Some 1%Q) in
        ret (fadd (Some (baseFee rate))
                  (fmul additionalHours (Some (hourlyRate rate))))
  end.

(** * The vocabulary of the properties *)

(** ** The compatibility table, as the specification words it *)

Inductive Fits : SpotType.t -> VehicleType.t -> Prop :=
| Fits_small_only : Fits SpotType.MOTORCYCLE VehicleType.MOTORCYCLE
| Fits_medium_small : Fits SpotType.COMPACT VehicleType.MOTORCYCLE
| Fits_medium_medium : Fits SpotType.COMPACT VehicleType.CAR
| Fits_large_small : Fits SpotType.LARGE VehicleType.MOTORCYCLE
| Fits_large_medium : Fits SpotType.LARGE VehicleType.CAR
| Fits_large_large : Fits SpotType.LARGE VehicleType.BUS.

(** The spot store of a repository: keys are unique and each entry sits
    under the [id] of its spot ([addSpot] is the only writer of keys). *)
Definition spots_wf (w : World) : Prop :=
  JsMap.wf (spots w) /\
  forall k s, In (k, s) (spots w) -> ParkingSpot.id s = k.

(** The candidate set of [allocate]. *)
Definition Candidate (vt : VehicleType.t) (w : World) (s : ParkingSpot.t)
    : Prop :=
  In s (JsMap.values (spots w)) /\
  ParkingSpot.isAvailable s = true /\
  Fits (ParkingSpot.spotType s) vt.

(** The spot as [occupy] leaves it. *)
Definition occupiedBy (vehicleLicense : string) (s : ParkingSpot.t)
    : ParkingSpot.t :=
  ParkingSpot.mk (ParkingSpot.id s) (ParkingSpot.floor s)
                 (ParkingSpot.spotType s) false (Some vehicleLicense).

(** Floor ascending, then spot identifier ascending: [a] comes strictly
    before [b], or at least not after it. *)
Definition Before (localeCompare : string -> string -> Z)
    (a b : ParkingSpot.t) : Prop :=
  ParkingSpot.floor a < ParkingSpot.floor b \/
  (ParkingSpot.floor a = ParkingSpot.floor b /\
   localeCompare (ParkingSpot.id a) (ParkingSpot.id b) < 0).

Definition AtOrBefore (localeCompare : string -> string -> Z)
    (a b : ParkingSpot.t) : Prop :=
  ParkingSpot.floor a < ParkingSpot.floor b \/
  (ParkingSpot.floor a = ParkingSpot.floor b /\
   localeCompare (ParkingSpot.id a) (ParkingSpot.id b) <= 0).

(** [a] stands before an occurrence of [b] in a list. *)
Inductive Precedes {A : Type} : list A -> A -> A -> Prop :=
| Precedes_here a b l : In b l -> Precedes (a :: l) a b
| Precedes_later x a b l : Precedes l a b -> Precedes (x :: l) a b.

(** [hours] is [d] rounded up to the next whole hour. *)
Definition CeilingHours (d : Q) (hours : Z) : Prop :=
  (inject_Z (hours - 1) < d)%Q /\ (d <= inject_Z hours)%Q.

(** On a service with the default rate table, the fee for the class and
    the duration is [amount]. *)
Definition defaultFeeIs (vt : VehicleType.t) (d : Q) (amount : Q) : Prop :=
  exists fee,
    fst (calculateFee vt d (newService None (fun _ => 0))) = Return fee /\
    (fee == amount)%Q.

(** The number an identifier carries after its one-letter prefix; it
    undoes [ticketIdOf] and the spot identifiers of [addSpots]. *)
Definition numberOfId (s : string) : option nat :=
  match s with
  | EmptyString => None
  | String _ rest => option_map Nat.of_uint (NilEmpty.uint_of_string rest)
  end.

(** The active ticket the vehicle index gives for a plate. *)
Definition activeTicketOf (licensePlate : string) (w : World)
    : option ParkingTicket.t :=
  match JsMap.get licensePlate (activeTicketsByVehicle w) with
  | Some ref => JsMap.get ref (tickets w)
  | None => None
  end.

(** The ticket a check-in creates once a spot is allocated, and the state
    after it is stored. *)
Definition issueTicket (vehicle : Vehicle.t) (spot : ParkingSpot.t)
    (w : World) : ParkingTicket.t * World :=
  let ticket :=
    ParkingTicket.new (ticketIdOf (ticketCounter w)) vehicle
                      (ParkingSpot.id spot) (clock w (clockReads w)) in
  (ticket,
   with_active (JsMap.set (Vehicle.licensePlate vehicle)
                          (ParkingTicket.ticketId ticket))
     (with_tickets (JsMap.set (ParkingTicket.ticketId ticket) ticket)
        (with_clockReads S (with_ticketCounter S w)))).

(** The fee for a duration under a rate, as [calculateFee] computes it. *)
Definition feeUnder (rate : ParkingRate) (durationHours : Q) : Q :=
  if Qceiling durationHours <=? 1 then baseFee rate
  else (baseFee rate
        + inject_Z (Qceiling durationHours - 1) * hourlyRate rate)%Q.

(** The ticket as [complete] leaves it. *)
Definition completedWith (exitTime : Z) (fee : Q) (t : ParkingTicket.t)
    : ParkingTicket.t :=
  ParkingTicket.mk (ParkingTicket.ticketId t) (ParkingTicket.vehicle t)
                   (ParkingTicket.spot t) (ParkingTicket.entryTime t)
                   (Some exitTime) (Some fee).

(** The ticket a check-out of the active ticket [t] returns in [w] under
    [rate]: the exit time is the first reading of the clock, the duration
    runs to the second. *)
Definition checkedOut (t : ParkingTicket.t) (rate : ParkingRate) (w : World)
    : ParkingTicket.t :=
  completedWith (clock w (clockReads w))
    (feeUnder rate
       (ParkingTicket.hoursUntil (clock w (S (clockReads w))) t))
    t.

(** The state after the ticket is completed and taken off the index. *)
Definition afterCompletion (t : ParkingTicket.t) (rate : ParkingRate)
    (w : World) : World :=
  with_active
    (JsMap.delete (Vehicle.licensePlate (ParkingTicket.vehicle t)))
    (with_tickets (JsMap.set (ParkingTicket.ticketId t) (checkedOut t rate w))
       (with_clockReads (fun n => S (S n)) w)).

(** A ticket is active, with neither exit time nor fee, or completed,
    with both. *)
Definition TicketValid (t : ParkingTicket.t) : Prop :=
  (ParkingTicket.exitTime t = None /\ ParkingTicket.fee t = None) \/
  (exists e f, ParkingTicket.exitTime t = Some e /\
               ParkingTicket.fee t = Some f).

(** What every run of the service keeps true. *)
Record Inv (w : World) : Prop := mkInv {
  inv_spots : spots_wf w;
  inv_ticket_keys :
    forall tid t, JsMap.get tid (tickets w) = Some t ->
      ParkingTicket.ticketId t = tid /\
      exists n, (n < ticketCounter w)%nat /\ tid = ticketIdOf n;
  inv_ticket_valid :
    forall tid t, JsMap.get tid (tickets w) = Some t -> TicketValid t;
  inv_ticket_spot :
    forall tid t, JsMap.get tid (tickets w) = Some t ->
      JsMap.get (ParkingTicket.spot t) (spots w) <> None;
  inv_index :
    forall p ref, JsMap.get p (activeTicketsByVehicle w) = Some ref ->
      exists t, JsMap.get ref (tickets w) = Some t /\
                Vehicle.licensePlate (ParkingTicket.vehicle t) = p /\
                ParkingTicket.isActive t = true;
  inv_active_indexed :
    forall tid t, JsMap.get tid (tickets w) = Some t ->
      ParkingTicket.isActive t = true ->
      JsMap.get (Vehicle.licensePlate (ParkingTicket.vehicle t))
                (activeTicketsByVehicle w) = Some tid
}.

(** An active ticket of the repository. *)
Definition ActiveTicket (w : World) (t : ParkingTicket.t) : Prop :=
  JsMap.get (ParkingTicket.ticketId t) (tickets w) = Some t /\
  ParkingTicket.isActive t = true.

(** The spot an active ticket refers to is occupied by its vehicle. *)
Definition Occupancy (w : World) : Prop :=
  forall t, ActiveTicket w t ->
    exists s, JsMap.get (ParkingTicket.spot t) (spots w) = Some s /\
              ParkingSpot.isAvailable s = false /\
              ParkingSpot.currentVehicleLicense s
              = Some (Vehicle.licensePlate (ParkingTicket.vehicle t)).

(** An operation on the vehicle with the given plate: its check-in or its
    check-out. *)
Definition concerns (licensePlate : string) (op : Op) : Prop :=
  match op with
  | CheckIn vehicle => Vehicle.licensePlate vehicle = licensePlate
  | CheckOut plate => plate = licensePlate
  | Allocate _ _ => False
  | Release _ => False
  end.

(** Comparison of strings by code units, a collation a host may have. *)
Definition codeUnitCompare (a b : string) : Z :=
  match String.compare a b with
  | Lt => -1
  | Eq => 0
  | Gt => 1
  end.

(** A lot for examples: two floors, each with one motorcycle spot, two
    compact spots and one large spot; default rates; a clock that
    advances half an hour between readings. *)
Definition demoClock (n : nat) : Z := Z.of_nat n * 1800000.

Definition demoSpotsPerFloor (spotType : SpotType.t) : nat :=
  match spotType with
  | SpotType.MOTORCYCLE => 1
  | SpotType.COMPACT => 2
  | SpotType.LARGE => 1
  end.

Definition demoLot : World := initialized None demoClock 2 demoSpotsPerFloor.

(** A clock that shows midnight at its first two readings and half past
    one from then on, and the example lot on that clock. *)
Definition steadyClock (n : nat) : Z :=
  if (n <? 2)%nat then 0 else 5400000.

Definition steadyLot : World :=
  initialized None steadyClock 2 demoSpotsPerFloor.

Definition demoCar : Vehicle.t :=
  Vehicle.mk "ABC-123" VehicleType.CAR (Some "John Doe").

(** Each spot is held by at most one vehicle: distinct active tickets
    refer to distinct spots, and the spot of an active ticket is marked
    occupied. *)
Definition OneVehiclePerSpot (w : World) : Prop :=
  (forall t1 t2, ActiveTicket w t1 -> ActiveTicket w t2 -> t1 <> t2 ->
     ParkingTicket.spot t1 <> ParkingTicket.spot t2) /\
  (forall t, ActiveTicket w t ->
     exists s, JsMap.get (ParkingTicket.spot t) (spots w) = Some s /\
               ParkingSpot.isAvailable s = false).

(** A step never hands an occupied spot to another vehicle: the spot
    stays as it is or is released. *)
Definition NoReassignment (w w' : World) : Prop :=
  forall k s, JsMap.get k (spots w) = Some s ->
    ParkingSpot.isAvailable s = false ->
    JsMap.get k (spots w') = Some s \/
    JsMap.get k (spots w') = Some (ParkingSpot.release s).

(** A direct [release] is permitted on a spot that no active ticket
    refers to; the other operations always are. *)
Definition permitted (w : World) (op : Op) : Prop :=
  match op with
  | Release spotId =>
      forall t, ActiveTicket w t -> ParkingTicket.spot t <> spotId
  | _ => True
  end.

Inductive ReachablePermitted (localeCompare : string -> string -> Z)
    : World -> Prop :=
| ReachablePermitted_init rates clock floors spotsPerFloor :
    ReachablePermitted localeCompare
      (initialized rates clock floors spotsPerFloor)
| ReachablePermitted_step op w :
    ReachablePermitted localeCompare w -> permitted w op ->
    ReachablePermitted localeCompare (exec localeCompare op w).

(** The letter [initializeParkingLot] puts before the number of a spot. *)
Definition prefixOf (spotType : SpotType.t) : string :=
  match spotType with
  | SpotType.MOTORCYCLE => "M"
  | SpotType.COMPACT => "C"
  | SpotType.LARGE => "L"
  end.

Definition sameSpotType (a b : SpotType.t) : bool :=
  match a, b with
  | SpotType.MOTORCYCLE, SpotType.MOTORCYCLE => true
  | SpotType.COMPACT, SpotType.COMPACT => true
  | SpotType.LARGE, SpotType.LARGE => true
  | _, _ => false
  end.

(** The spots one inner loop creates, in order. *)
Fixpoint newSpots (spotType : SpotType.t) (floor : Z) (count : nat)
    (spotIdCounter : nat) : list ParkingSpot.t :=
  match count with
  | O => []
  | S count' =>
      ParkingSpot.new (prefixOf spotType ++ String_of_nat spotIdCounter)
                      floor spotType
      :: newSpots spotType floor count' (S spotIdCounter)
  end.

(** The spots the outer loop creates, in order. *)
Fixpoint floorSpots (spotsPerFloor : SpotType.t -> nat) (remaining : nat)
    (floor : nat) (spotIdCounter : nat) : list ParkingSpot.t :=
  match remaining with
  | O => []
  | S remaining' =>
      let m := spotsPerFloor SpotType.MOTORCYCLE in
      let c := spotsPerFloor SpotType.COMPACT in
      let l := spotsPerFloor SpotType.LARGE in
      newSpots SpotType.MOTORCYCLE (Z.of_nat floor) m spotIdCounter
      ++ newSpots SpotType.COMPACT (Z.of_nat floor) c (m + spotIdCounter)
      ++ newSpots SpotType.LARGE (Z.of_nat floor) l (c + (m + spotIdCounter))
      ++ floorSpots spotsPerFloor remaining' (S floor)
                    (l + (c + (m + spotIdCounter)))
  end.

(** The entries under which a list of spots sits in the store. *)
Definition entries (l : list ParkingSpot.t)
    : JsMap.t string ParkingSpot.t :=
  map (fun s => (ParkingSpot.id s, s)) l.

(** The store after [addSpot] of each spot of a list, in turn. *)
Definition addAll (l : list ParkingSpot.t) (m : JsMap.t string ParkingSpot.t)
    : JsMap.t string ParkingSpot.t :=
  fold_left (fun m s => JsMap.set (ParkingSpot.id s) s m) l m.

(** Every key of the store carries a number below the counter. *)
Definition Below (c : nat) (m : JsMap.t string ParkingSpot.t) : Prop :=
  forall k, In k (JsMap.keys m) ->
    exists n, numberOfId k = Some n /\ (n < c)%nat.

(** Identifiers by one running counter: the spot created [n]-th after
    the counter stood at [c] carries its class letter and [c + n]. *)
Definition NumberedFrom (c : nat) (l : list ParkingSpot.t) : Prop :=
  forall n s, nth_error l n = Some s ->
    ParkingSpot.id s
    = (prefixOf (ParkingSpot.spotType s) ++ String_of_nat (c + n))%string.

(** Identifiers by a running counter per class: a spot carries its class
    letter and its rank among the spots of its class. *)
Definition NumberedPerClass (l : list ParkingSpot.t) : Prop :=
  forall n s, nth_error l n = Some s ->
    ParkingSpot.id s
    = (prefixOf (ParkingSpot.spotType s)
       ++ String_of_nat
            (S (List.length
                  (filter (fun s' => sameSpotType (ParkingSpot.spotType s')
                                                  (ParkingSpot.spotType s))
                          (firstn n l)))))%string.

Definition demoBike : Vehicle.t :=
  Vehicle.mk "MC-001" VehicleType.MOTORCYCLE None.

Definition demoSecondCar : Vehicle.t :=
  Vehicle.mk "CAR-002" VehicleType.CAR (Some "Bob").

(** A lot of one floor with a single small-only spot. *)
Definition oneSmallSpot (spotType : SpotType.t) : nat :=
  match spotType with
  | SpotType.MOTORCYCLE => 1
  | _ => 0
  end.

(** A lot of one floor with one spot of each class. *)
Definition oneOfEach (spotType : SpotType.t) : nat := 1.

(** A lot whose fee calculator was built with an empty list of rates. *)
Definition lotWithoutRates : World :=
  initialized (Some []) demoClock 2 demoSpotsPerFloor.

(** The number that the literal [0.1] denotes, the double nearest to one
    tenth, as a float of the proof assistant and as a rational; a rate of
    a tenth and a tenth, and a service that holds it for cars. *)
Definition oneTenthFloat : PrimFloat.float :=
  FloatOps.SF2Prim (SpecFloat.S754_finite false 7205759403792794 (-56)).

(** The largest double, [(2^53 - 1) * 2^971]. *)
Definition largestFloat : PrimFloat.float :=
  FloatOps.SF2Prim (SpecFloat.S754_finite false 9007199254740991 971).

Definition largest : Q := inject_Z ((2 ^ 53 - 1) * 2 ^ 971).

(** The double [2 ^ k], for [k] from 52 on. *)
Definition twoToThe (k : Z) : PrimFloat.float :=
  FloatOps.SF2Prim (SpecFloat.S754_finite false 4503599627370496 (k - 52)).

Definition oneTenth : Q := 3602879701896397 # 36028797018963968.

Definition tenthRate : ParkingRate := mkRate VehicleType.CAR oneTenth oneTenth.

Definition tenthService : World := newService (Some [tenthRate]) (fun _ => 0).

(** The fee for hours above one as the specification words it: the base
    rate plus the hourly rate for every hour after the first. *)
Definition feeAsWorded (rate : ParkingRate) (hours : Z) : Q :=
  (baseFee rate + inject_Z (hours - 1) * hourlyRate rate)%Q.

(** * More vocabulary *)

(** The sizes of vehicles and of spots, small to large. *)
Definition vehicleRank (vt : VehicleType.t) : nat :=
  match vt with
  | VehicleType.MOTORCYCLE => 0
  | VehicleType.CAR => 1
  | VehicleType.BUS => 2
  end.

Definition spotRank (spotType : SpotType.t) : nat :=
  match spotType with
  | SpotType.MOTORCYCLE => 0
  | SpotType.COMPACT => 1
  | SpotType.LARGE => 2
  end.

(** The rate of a list that [new FeeCalculator(list)] ends up holding for
    a vehicle type: the last one in the list for that type. *)
Definition lastRateFor (vt : VehicleType.t) (l : list ParkingRate)
    : option ParkingRate :=
  find (fun rate => if eq_dec (vehicleType rate) vt then true else false)
       (rev l).

(** What one operation of the service does to the repository and the
    counter, in a state that satisfies the invariant: nothing, an
    allocation, a check-in, a release, or a check-out. *)
Inductive Effect (w w' : World) : Prop :=
| Effect_none :
    spots w' = spots w -> tickets w' = tickets w ->
    activeTicketsByVehicle w' = activeTicketsByVehicle w ->
    ticketCounter w' = ticketCounter w ->
    Effect w w'
| Effect_allocate sel lic :
    In sel (JsMap.values (spots w)) ->
    ParkingSpot.isAvailable sel = true ->
    spots w' = JsMap.set (ParkingSpot.id sel) (occupiedBy lic sel) (spots w) ->
    tickets w' = tickets w ->
    activeTicketsByVehicle w' = activeTicketsByVehicle w ->
    ticketCounter w' = ticketCounter w ->
    Effect w w'
| Effect_checkIn sel vehicle :
    In sel (JsMap.values (spots w)) ->
    ParkingSpot.isAvailable sel = true ->
    ParkingSpot.canFit sel (Vehicle.type vehicle) = true ->
    activeTicketOf (Vehicle.licensePlate vehicle) w = None ->
    spots w' = JsMap.set (ParkingSpot.id sel)
                 (occupiedBy (Vehicle.licensePlate vehicle) sel) (spots w) ->
    tickets w' = JsMap.set (ticketIdOf (ticketCounter w))
                   (ParkingTicket.new (ticketIdOf (ticketCounter w)) vehicle
                      (ParkingSpot.id sel) (clock w (clockReads w)))
                   (tickets w) ->
    activeTicketsByVehicle w'
    = JsMap.set (Vehicle.licensePlate vehicle) (ticketIdOf (ticketCounter w))
                (activeTicketsByVehicle w) ->
    ticketCounter w' = S (ticketCounter w) ->
    Effect w w'
| Effect_release k s :
    JsMap.get k (spots w) = Some s ->
    spots w' = JsMap.set k (ParkingSpot.release s) (spots w) ->
    tickets w' = tickets w ->
    activeTicketsByVehicle w' = activeTicketsByVehicle w ->
    ticketCounter w' = ticketCounter w ->
    Effect w w'
| Effect_checkOut t rate s :
    ActiveTicket w t ->
    JsMap.get (Vehicle.licensePlate (ParkingTicket.vehicle t))
              (activeTicketsByVehicle w) = Some (ParkingTicket.ticketId t) ->
    JsMap.get (Vehicle.type (ParkingTicket.vehicle t)) (rates w)
    = Some rate ->
    JsMap.get (ParkingTicket.spot t) (spots w) = Some s ->
    spots w' = JsMap.set (ParkingTicket.spot t) (ParkingSpot.release s)
                         (spots w) ->
    tickets w' = JsMap.set (ParkingTicket.ticketId t) (checkedOut t rate w)
                           (tickets w) ->
    activeTicketsByVehicle w'
    = JsMap.delete (Vehicle.licensePlate (ParkingTicket.vehicle t))
                   (activeTicketsByVehicle w) ->
    ticketCounter w' = ticketCounter w ->
    Effect w w'.

(** An available spot has no occupant. *)
Definition AvailableClean (w : World) : Prop :=
  forall k s, JsMap.get k (spots w) = Some s ->
    ParkingSpot.isAvailable s = true ->
    ParkingSpot.currentVehicleLicense s = None.

(** Tickets sit in the store in the order of issue, numbered from one,
    and the counter is one ahead of them. *)
Definition TicketsInOrder (w : World) : Prop :=
  JsMap.keys (tickets w)
  = map ticketIdOf (seq 1 (JsMap.size (tickets w))) /\
  ticketCounter w = S (JsMap.size (tickets w)).

(** What every run keeps true besides [Inv]. *)
Record Tidy (w : World) : Prop := mkTidy {
  tidy_available : AvailableClean w;
  tidy_tickets : TicketsInOrder w;
  tidy_index : JsMap.wf (activeTicketsByVehicle w)
}.

(** The fields of a ticket that are [readonly]. *)
Definition sameSession (a b : ParkingTicket.t) : Prop :=
  ParkingTicket.ticketId a = ParkingTicket.ticketId b /\
  ParkingTicket.vehicle a = ParkingTicket.vehicle b /\
  ParkingTicket.spot a = ParkingTicket.spot b /\
  ParkingTicket.entryTime a = ParkingTicket.entryTime b.

(** What [getActiveTickets] returns. *)
Definition activeTickets (w : World) : list ParkingTicket.t :=
  filter ParkingTicket.isActive (JsMap.values (tickets w)).

(** The plate of the vehicle a ticket was issued to. *)
Definition plateOf (t : ParkingTicket.t) : string :=
  Vehicle.licensePlate (ParkingTicket.vehicle t).

(** What of a spot never changes: its [readonly] fields. *)
Definition layout (w : World) : list (string * Z * SpotType.t) :=
  map (fun s => (ParkingSpot.id s, ParkingSpot.floor s,
                 ParkingSpot.spotType s))
      (JsMap.values (spots w)).

(** The operations of [ParkingLotService]. *)
Definition serviceOp (op : Op) : Prop :=
  match op with
  | CheckIn _ | CheckOut _ => True
  | Allocate _ _ | Release _ => False
  end.

(** Every spot is available or held by an active session. *)
Definition Balanced (w : World) : Prop :=
  (List.length (filter ParkingSpot.isAvailable (JsMap.values (spots w)))
   + List.length (activeTickets w))%nat
  = JsMap.size (spots w).

(** ** The groups of [getAvailability] *)

(** The key of the group of a floor and a spot type. *)
Definition keyOf (floor : Z) (spotType : SpotType.t) : string :=
  (String_of_Z floor ++ "-" ++ spotTypeName spotType)%string.

(** The spots of a list that lie on a floor and have a type. *)
Definition inGroup (floor : Z) (spotType : SpotType.t) (s : ParkingSpot.t)
    : bool :=
  (ParkingSpot.floor s =? floor)
  && sameSpotType (ParkingSpot.spotType s) spotType.

Definition groupOf (floor : Z) (spotType : SpotType.t)
    (l : list ParkingSpot.t) : list ParkingSpot.t :=
  filter (inGroup floor spotType) l.

(** The floor and the type a summary stands for. *)
Definition groupKey (x : AvailabilitySummary.t) : Z * SpotType.t :=
  (AvailabilitySummary.floor x, AvailabilitySummary.spotType x).

(** What the summary map holds once the [forEach] has gone through the
    spots [done]. *)
Record Summarises (done : list ParkingSpot.t)
    (m : JsMap.t string AvailabilitySummary.t) : Prop := mkSummarises {
  sum_wf : JsMap.wf m;
  sum_entry :
    forall key x, JsMap.get key m = Some x ->
      let g := groupOf (AvailabilitySummary.floor x)
                       (AvailabilitySummary.spotType x) done in
      key = keyOf (AvailabilitySummary.floor x)
                  (AvailabilitySummary.spotType x) /\
      AvailabilitySummary.total x = List.length g /\
      AvailabilitySummary.available x
      = List.length (filter ParkingSpot.isAvailable g) /\
      g <> [];
  sum_covers :
    forall s, In s done -> JsMap.get (summaryKey s) m <> None;
  sum_total :
    list_sum (map AvailabilitySummary.total (JsMap.values m))
    = List.length done;
  sum_available :
    list_sum (map AvailabilitySummary.available (JsMap.values m))
    = List.length (filter ParkingSpot.isAvailable done)
}.

(** The characters of a string, last to first. *)
Definition reversed (s : string) : list ascii :=
  rev (list_ascii_of_string s).

(** Lower floors first. *)
Definition floorAtMost (a b : AvailabilitySummary.t) : Prop :=
  AvailabilitySummary.floor a <= AvailabilitySummary.floor b.

(** Floor ascending, then type name ascending in the host's collation. *)
Definition summaryAtOrBefore (localeCompare : string -> string -> Z)
    (a b : AvailabilitySummary.t) : Prop :=
  AvailabilitySummary.floor a < AvailabilitySummary.floor b \/
  (AvailabilitySummary.floor a = AvailabilitySummary.floor b /\
   localeCompare (spotTypeName (AvailabilitySummary.spotType a))
                 (spotTypeName (AvailabilitySummary.spotType b)) <= 0).

(** ** More example states *)

(** The example lot with the car parked. *)
Definition carParked : World :=
  snd (checkInVehicle codeUnitCompare demoCar demoLot).

(** The example lot after the car and the motorcycle came in and the car
    left again. *)
Definition busyLot : World :=
  run codeUnitCompare [CheckIn demoCar; CheckIn demoBike; CheckOut "ABC-123"]
      demoLot.

(** The car parked on the lot whose fee calculator holds no rate. *)
Definition carParkedWithoutRates : World :=
  snd (checkInVehicle codeUnitCompare demoCar lotWithoutRates).

(** The ticket of the car, the first one issued on an example lot. *)
Definition carTicket : ParkingTicket.t :=
  ParkingTicket.new "T000001" demoCar "C2" 0.

(** The default rate for cars. *)
Definition carRate : ParkingRate := mkRate VehicleType.CAR 5 (5 # 2).

(** * Properties *)

(** ** Facts on [JsMap] *)

Section JsMapFacts.
Context {K V : Type} `{EqDec K}.
Implicit Types (m : JsMap.t K V) (k : K) (v : V).

Lemma get_set_same k v m : JsMap.get k (JsMap.set k v m) = Some v.
Proof.
  induction m as [|[k' v'] m IH]; simpl.
  - destruct (eq_dec k k); congruence.
  - destruct (eq_dec k k') as [E|E]; simpl.
    + destruct (eq_dec k k); congruence.
    + destruct (eq_dec k k'); congruence.
Qed.

Lemma get_set_other k k' v m :
  k' <> k -> JsMap.get k' (JsMap.set k v m) = JsMap.get k' m.
Proof.
  intros N. induction m as [|[k0 v0] m IH]; simpl.
  - destruct (eq_dec k' k); congruence.
  - destruct (eq_dec k k0) as [E|E]; simpl.
    + subst k0. destruct (eq_dec k' k); congruence.
    + destruct (eq_dec k' k0); congruence.
Qed.

Lemma get_set k k' v m :
  JsMap.get k' (JsMap.set k v m) = if eq_dec k' k then Some v else JsMap.get k' m.
Proof.
  destruct (eq_dec k' k) as [->|N].
  - apply get_set_same.
  - now apply get_set_other.
Qed.

Lemma get_delete_same k m : JsMap.get k (JsMap.delete k m) = None.
Proof.
  induction m as [|[k' v'] m IH]; simpl; auto.
  destruct (eq_dec k k') as [E|E]; simpl; auto.
  destruct (eq_dec k k'); congruence.
Qed.

Lemma get_delete_other k k' m :
  k' <> k -> JsMap.get k' (JsMap.delete k m) = JsMap.get k' m.
Proof.
  intros N. induction m as [|[k0 v0] m IH]; simpl; auto.
  destruct (eq_dec k k0) as [E|E]; simpl.
  - subst k0. destruct (eq_dec k' k); congruence.
  - destruct (eq_dec k' k0); congruence.
Qed.

Lemma get_In k v m : JsMap.get k m = Some v -> In (k, v) m.
Proof.
  induction m as [|[k' v'] m IH]; simpl; [discriminate|].
  destruct (eq_dec k k') as [E|E]; intros G.
  - left. congruence.
  - right. auto.
Qed.

Lemma In_get k v m : JsMap.wf m -> In (k, v) m -> JsMap.get k m = Some v.
Proof.
  unfold JsMap.wf. induction m as [|[k' v'] m IH]; simpl; [tauto|].
  intros ND [E|I].
  - inversion E; subst. destruct (eq_dec k k); congruence.
  - inversion ND as [|? ? NI ND']; subst.
    destruct (eq_dec k k') as [E|E].
    + subst k'. exfalso. apply NI.
      change k with (fst (k, v)). now apply in_map.
    + auto.
Qed.

Lemma In_values_get v m : In v (JsMap.values m) -> exists k, In (k, v) m.
Proof.
  unfold JsMap.values. rewrite in_map_iff. intros [[k v'] [E I]].
  simpl in E. subst. eauto.
Qed.

(** [JsMap.set] on a fresh key appends the entry. *)
Lemma set_fresh k v m :
  ~ In k (JsMap.keys m) -> JsMap.set k v m = m ++ [(k, v)].
Proof.
  induction m as [|[k' v'] m IH]; simpl; auto.
  intros N. destruct (eq_dec k k') as [E|E].
  - exfalso. apply N. left. congruence.
  - f_equal. apply IH. tauto.
Qed.

Lemma In_keys_set k k' v m :
  In k' (JsMap.keys (JsMap.set k v m)) <-> k' = k \/ In k' (JsMap.keys m).
Proof.
  induction m as [|[k0 v0] m IH]; simpl.
  - intuition.
  - destruct (eq_dec k k0) as [E|E]; simpl.
    + subst k0. intuition.
    + rewrite IH. intuition.
Qed.

Lemma wf_set k v m : JsMap.wf m -> JsMap.wf (JsMap.set k v m).
Proof.
  unfold JsMap.wf. induction m as [|[k0 v0] m IH]; simpl; intros ND.
  - constructor; [simpl; tauto|constructor].
  - inversion ND as [|? ? NI ND']; subst.
    destruct (eq_dec k k0) as [E|E]; simpl.
    + subst k0. constructor; assumption.
    + constructor; [|auto].
      fold (JsMap.keys (JsMap.set k v m)). rewrite In_keys_set.
      intros [F|F]; [congruence|tauto].
Qed.

End JsMapFacts.

(** ** Order of occurrence in a list *)

Lemma Precedes_filter {A : Type} (f : A -> bool) (l : list A) a b :
  Precedes (filter f l) a b -> Precedes l a b.
Proof.
  induction l as [|x l IH]; simpl; [inversion 1|].
  destruct (f x) eqn:F.
  - intros P. inversion P; subst.
    + constructor. match goal with H : In _ (filter _ _) |- _ =>
        apply filter_In in H; tauto end.
    + apply Precedes_later. auto.
  - intros P. apply Precedes_later. auto.
Qed.

(** ** Facts on the stable sort *)

Section SortFacts.
Variable A : Type.
Variable cmp : A -> A -> Z.

Lemma insert_In (x y : A) (l : list A) :
  In y (insert cmp x l) <-> y = x \/ In y l.
Proof.
  induction l as [|z l IH]; simpl.
  - intuition.
  - destruct (cmp x z <=? 0); simpl.
    + intuition.
    + rewrite IH. intuition.
Qed.

Lemma sort_In (y : A) (l : list A) : In y (sort cmp l) <-> In y l.
Proof.
  induction l as [|x l IH]; simpl.
  - tauto.
  - rewrite insert_In, IH. intuition.
Qed.

Lemma sort_nil_inv (l : list A) : sort cmp l = [] -> l = [].
Proof.
  destruct l as [|x l]; auto. intros E.
  assert (I : In x (sort cmp (x :: l))) by (apply sort_In; now left).
  rewrite E in I. destruct I.
Qed.

(** Stability: whatever does not exceed the head of the sorted list
    stood after it in the input. *)
Lemma sort_head_stable (l : list A) :
  forall m rest, sort cmp l = m :: rest ->
    forall c, In c l -> c <> m -> cmp c m <= 0 -> Precedes l m c.
Proof.
  induction l as [|x l IH]; simpl; [discriminate|].
  intros m rest E c I NE LE.
  destruct (sort cmp l) as [|m' r'] eqn:S.
  - apply sort_nil_inv in S. subst l. simpl in E.
    inversion E; subst. destruct I as [<-|[]]. congruence.
  - simpl in E. destruct (cmp x m' <=? 0) eqn:C.
    + inversion E; subst. destruct I as [<-|I]; [congruence|].
      now constructor.
    + apply Z.leb_gt in C. inversion E; subst.
      destruct I as [<-|I]; [lia|].
      apply Precedes_later. eapply IH; eauto.
Qed.

(** A consistent comparator: a total preorder read off the sign. *)
Hypothesis cmp_refl : forall a, cmp a a <= 0.
Hypothesis cmp_total : forall a b, 0 < cmp a b -> cmp b a <= 0.
Hypothesis cmp_trans : forall a b c, cmp a b <= 0 -> cmp b c <= 0 -> cmp a c <= 0.

Lemma sort_head_least (l : list A) :
  forall m rest, sort cmp l = m :: rest -> forall c, In c l -> cmp m c <= 0.
Proof.
  induction l as [|x l IH]; simpl; [discriminate|].
  intros m rest E c I.
  destruct (sort cmp l) as [|m' r'] eqn:S.
  - apply sort_nil_inv in S. subst l. simpl in E.
    inversion E; subst. destruct I as [<-|[]]. apply cmp_refl.
  - simpl in E. destruct (cmp x m' <=? 0) eqn:C.
    + apply Z.leb_le in C. inversion E; subst.
      destruct I as [<-|I]; [apply cmp_refl|].
      apply cmp_trans with m'; [assumption|]. eapply IH; eauto.
    + apply Z.leb_gt in C. inversion E; subst.
      destruct I as [<-|I]; [now apply cmp_total|].
      eapply IH; eauto.
Qed.

End SortFacts.


Lemma canFit_Fits (s : ParkingSpot.t) (vt : VehicleType.t) :
  ParkingSpot.canFit s vt = true <-> Fits (ParkingSpot.spotType s) vt.
Proof.
  unfold ParkingSpot.canFit.
  destruct (ParkingSpot.spotType s), vt; split; intros F;
    try discriminate; try constructor; inversion F.
Qed.




Lemma spots_wf_get (w : World) (s : ParkingSpot.t) :
  spots_wf w -> In s (JsMap.values (spots w)) ->
  JsMap.get (ParkingSpot.id s) (spots w) = Some s.
Proof.
  intros [ND KEY] I. apply In_values_get in I.
  destruct I as [k I]. rewrite (KEY _ _ I). now apply In_get.
Qed.

(** ** The spot manager *)

Lemma allocateSpot_unfold localeCompare vt lic w :
  allocateSpot localeCompare vt lic w =
  match sort (spotOrder localeCompare)
             (filter (fun spot => ParkingSpot.canFit spot vt)
                     (filter ParkingSpot.isAvailable (JsMap.values (spots w))))
  with
  | [] => (Return None, w)
  | selectedSpot :: _ =>
      (Return (Some (occupiedBy lic selectedSpot)),
       with_spots (JsMap.set (ParkingSpot.id selectedSpot)
                             (occupiedBy lic selectedSpot)) w)
  end.
Proof.
  unfold allocateSpot, getAvailableSpots, getAllSpots, bind, gets, ret. simpl.
  destruct (sort _ _) as [|sel rest] eqn:S; [reflexivity|].
  assert (I : In sel (sort (spotOrder localeCompare)
                (filter (fun spot => ParkingSpot.canFit spot vt)
                   (filter ParkingSpot.isAvailable (JsMap.values (spots w))))))
    by (rewrite S; now left).
  apply sort_In in I. rewrite !filter_In in I. destruct I as [[_ A] _].
  unfold callOnSpot, ParkingSpot.occupy, writeSpot, modify, bind, ret,
    occupiedBy.
  rewrite A. reflexivity.
Qed.

Lemma allocateSpot_cases localeCompare vt lic w :
  allocateSpot localeCompare vt lic w = (Return None, w) \/
  (exists sel,
     In sel (JsMap.values (spots w)) /\
     ParkingSpot.isAvailable sel = true /\
     ParkingSpot.canFit sel vt = true /\
     allocateSpot localeCompare vt lic w =
       (Return (Some (occupiedBy lic sel)),
        with_spots (JsMap.set (ParkingSpot.id sel) (occupiedBy lic sel)) w)).
Proof.
  rewrite allocateSpot_unfold.
  destruct (sort _ _) as [|sel rest] eqn:S; [now left|right].
  assert (I : In sel (sort (spotOrder localeCompare)
                (filter (fun spot => ParkingSpot.canFit spot vt)
                   (filter ParkingSpot.isAvailable (JsMap.values (spots w))))))
    by (rewrite S; now left).
  apply sort_In in I. rewrite !filter_In in I. destruct I as [[I A] F].
  exists sel. auto.
Qed.

Lemma Candidate_filter vt w s :
  In s (filter (fun spot => ParkingSpot.canFit spot vt)
               (filter ParkingSpot.isAvailable (JsMap.values (spots w))))
  <-> Candidate vt w s.
Proof.
  unfold Candidate. rewrite !filter_In, canFit_Fits. tauto.
Qed.

Section AllocateOrder.
Variable localeCompare : string -> string -> Z.

(** What the sort needs of the host's collation: it is a consistent
    comparator. *)
Hypothesis localeCompare_antisym :
  forall a b, Z.sgn (localeCompare b a) = - Z.sgn (localeCompare a b).
Hypothesis localeCompare_trans :
  forall a b c,
    localeCompare a b <= 0 -> localeCompare b c <= 0 -> localeCompare a c <= 0.

Lemma localeCompare_refl a : localeCompare a a = 0.
Proof. pose proof (localeCompare_antisym a a). lia. Qed.

Lemma spotOrder_refl a : spotOrder localeCompare a a <= 0.
Proof.
  unfold spotOrder. rewrite Z.eqb_refl. simpl.
  rewrite localeCompare_refl. lia.
Qed.

Lemma spotOrder_total a b :
  0 < spotOrder localeCompare a b -> spotOrder localeCompare b a <= 0.
Proof.
  unfold spotOrder.
  destruct (Z.eqb_spec (ParkingSpot.floor a) (ParkingSpot.floor b)) as [E|E];
    simpl.
  - rewrite E, Z.eqb_refl. simpl. intros P.
    pose proof (localeCompare_antisym (ParkingSpot.id a) (ParkingSpot.id b)).
    lia.
  - destruct (Z.eqb_spec (ParkingSpot.floor b) (ParkingSpot.floor a));
      simpl; lia.
Qed.

Lemma spotOrder_trans a b c :
  spotOrder localeCompare a b <= 0 -> spotOrder localeCompare b c <= 0 ->
  spotOrder localeCompare a c <= 0.
Proof.
  unfold spotOrder.
  destruct (Z.eqb_spec (ParkingSpot.floor a) (ParkingSpot.floor b));
    destruct (Z.eqb_spec (ParkingSpot.floor b) (ParkingSpot.floor c));
    destruct (Z.eqb_spec (ParkingSpot.floor a) (ParkingSpot.floor c));
    simpl; try lia.
  apply localeCompare_trans.
Qed.

Lemma spotOrder_AtOrBefore a b :
  spotOrder localeCompare a b <= 0 <-> AtOrBefore localeCompare a b.
Proof.
  unfold spotOrder, AtOrBefore.
  destruct (Z.eqb_spec (ParkingSpot.floor a) (ParkingSpot.floor b)) as [E|E];
    simpl; lia.
Qed.

Lemma AtOrBefore_Before w a b :
  (forall x y, localeCompare x y = 0 -> x = y) ->
  spots_wf w ->
  In a (JsMap.values (spots w)) -> In b (JsMap.values (spots w)) ->
  AtOrBefore localeCompare a b -> b <> a -> Before localeCompare a b.
Proof.
  intros SEP WF Ia Ib [L|[E LE]] NE; [now left|right].
  split; [assumption|].
  destruct (Z.eq_dec (localeCompare (ParkingSpot.id a) (ParkingSpot.id b)) 0)
    as [Z0|NZ]; [|lia].
  exfalso. apply NE. apply SEP in Z0.
  pose proof (spots_wf_get w a WF Ia) as Ga.
  pose proof (spots_wf_get w b WF Ib) as Gb.
  rewrite Z0 in Ga. congruence.
Qed.

(** C1. [allocate] picks, among the available spots whose capacity class
    fits the vehicle, the one that comes first by floor and then by spot
    identifier (were two to tie, the one inserted first; none tie when
    the collation tells distinct identifiers apart); it marks that spot,
    and no other, occupied by the vehicle and returns it.  It returns
    none exactly when there is no such spot, and then nothing changes. *)
Theorem allocateSpot_first_fit vt lic w :
  spots_wf w ->
  ((forall s, ~ Candidate vt w s) <->
   fst (allocateSpot localeCompare vt lic w) = Return None) /\
  (fst (allocateSpot localeCompare vt lic w) = Return None ->
   snd (allocateSpot localeCompare vt lic w) = w) /\
  (forall c0, Candidate vt w c0 ->
   exists s,
     Candidate vt w s /\
     (forall c, Candidate vt w c -> AtOrBefore localeCompare s c) /\
     (forall c, Candidate vt w c -> c <> s -> AtOrBefore localeCompare c s ->
        Precedes (JsMap.values (spots w)) s c) /\
     ((forall x y, localeCompare x y = 0 -> x = y) ->
      forall c, Candidate vt w c -> c <> s -> Before localeCompare s c) /\
     allocateSpot localeCompare vt lic w =
       (Return (Some (occupiedBy lic s)),
        with_spots (JsMap.set (ParkingSpot.id s) (occupiedBy lic s)) w) /\
     JsMap.get (ParkingSpot.id s)
       (spots (snd (allocateSpot localeCompare vt lic w)))
       = Some (occupiedBy lic s) /\
     forall k, k <> ParkingSpot.id s ->
       JsMap.get k (spots (snd (allocateSpot localeCompare vt lic w)))
       = JsMap.get k (spots w)).
Proof.
  intros WF. rewrite allocateSpot_unfold.
  set (L := filter _ (filter _ _)).
  destruct (sort (spotOrder localeCompare) L) as [|sel rest] eqn:S.
  - apply sort_nil_inv in S.
    assert (NC : forall s, ~ Candidate vt w s).
    { intros s C. apply Candidate_filter in C. fold L in C.
      rewrite S in C. destruct C. }
    simpl. repeat split; auto.
    intros c0 C. destruct (NC _ C).
  - assert (Isel : In sel L).
    { apply (sort_In _ (spotOrder localeCompare)). rewrite S. now left. }
    assert (Csel : Candidate vt w sel) by now apply Candidate_filter.
    assert (LEAST : forall c, Candidate vt w c ->
                      AtOrBefore localeCompare sel c).
    { intros c C. apply spotOrder_AtOrBefore.
      apply (sort_head_least _ _ spotOrder_refl spotOrder_total
               spotOrder_trans L sel rest S).
      now apply Candidate_filter. }
    simpl. split; [|split].
    + split; [|discriminate]. intros NC. exfalso. now apply (NC sel).
    + discriminate.
    + intros _ _. exists sel. split; [exact Csel|].
      split; [exact LEAST|].
      split; [|split; [|split; [reflexivity|split]]].
      * intros c C NE TIE. apply spotOrder_AtOrBefore in TIE.
        apply Candidate_filter in C. fold L in C.
        apply (Precedes_filter ParkingSpot.isAvailable).
        apply (Precedes_filter (fun spot => ParkingSpot.canFit spot vt)).
        now apply (sort_head_stable _ (spotOrder localeCompare) L sel rest).
      * intros SEP c C NE. destruct C as [Ic [Ac Fc]].
        apply AtOrBefore_Before with w; auto.
        -- apply Csel.
        -- apply LEAST. now repeat split.
      * apply get_set_same.
      * intros k NE. now apply get_set_other.
Qed.

End AllocateOrder.

Lemma set_idem {K V : Type} `{EqDec K} (k : K) (v : V) (m : JsMap.t K V) :
  JsMap.set k v (JsMap.set k v m) = JsMap.set k v m.
Proof.
  induction m as [|[k' v'] m IH]; simpl.
  - destruct (eq_dec k k); congruence.
  - destruct (eq_dec k k') as [E|E]; simpl.
    + destruct (eq_dec k k); congruence.
    + destruct (eq_dec k k'); congruence.
Qed.

Lemma releaseSpot_unfold spotId w :
  releaseSpot spotId w =
  match JsMap.get spotId (spots w) with
  | None => (Throw (SpotNotFound spotId), w)
  | Some s =>
      (Return tt, with_spots (JsMap.set spotId (ParkingSpot.release s)) w)
  end.
Proof.
  unfold releaseSpot, getSpot, bind, gets. simpl.
  destruct (JsMap.get spotId (spots w)); reflexivity.
Qed.

(** C7. [release] fails with NotFound exactly when the store holds no
    spot under the identifier, and then changes nothing.  Otherwise it
    succeeds whatever the occupancy of the spot, occupied or already
    available: afterwards the spot is available and has no occupant, and
    every other spot is as it was; a second release succeeds as well. *)
Theorem releaseSpot_spec spotId w :
  (fst (releaseSpot spotId w) = Throw (SpotNotFound spotId) <->
   JsMap.get spotId (spots w) = None) /\
  (forall e, fst (releaseSpot spotId w) = Throw e ->
     e = SpotNotFound spotId /\ snd (releaseSpot spotId w) = w) /\
  (forall s, JsMap.get spotId (spots w) = Some s ->
     releaseSpot spotId w =
       (Return tt, with_spots (JsMap.set spotId (ParkingSpot.release s)) w) /\
     JsMap.get spotId (spots (snd (releaseSpot spotId w)))
       = Some (ParkingSpot.mk (ParkingSpot.id s) (ParkingSpot.floor s)
                              (ParkingSpot.spotType s) true None) /\
     (forall k, k <> spotId ->
        JsMap.get k (spots (snd (releaseSpot spotId w)))
        = JsMap.get k (spots w)) /\
     releaseSpot spotId (snd (releaseSpot spotId w))
       = (Return tt, snd (releaseSpot spotId w))).
Proof.
  rewrite releaseSpot_unfold.
  destruct (JsMap.get spotId (spots w)) as [s|] eqn:G; simpl.
  - split; [split; discriminate|]. split; [discriminate|].
    intros s0 E. inversion E; subst s0. clear E.
    split; [reflexivity|]. split; [apply get_set_same|].
    split; [intros k NE; now apply get_set_other|].
    rewrite releaseSpot_unfold. simpl. rewrite get_set_same.
    unfold with_spots. simpl. now rewrite set_idem.
  - split; [tauto|]. split; [|discriminate].
    intros e E. inversion E. auto.
Qed.

(** ** The fee calculator *)

Lemma CeilingHours_Qceiling d : CeilingHours d (Qceiling d).
Proof.
  split.
  - apply Qceiling_lt.
  - apply Qle_ceiling.
Qed.

Lemma CeilingHours_unique d h : CeilingHours d h -> h = Qceiling d.
Proof.
  intros [L U]. destruct (CeilingHours_Qceiling d) as [L' U'].
  assert (A : (inject_Z (h - 1) < inject_Z (Qceiling d))%Q)
    by (eapply Qlt_le_trans; eauto).
  assert (B : (inject_Z (Qceiling d - 1) < inject_Z h)%Q)
    by (eapply Qlt_le_trans; eauto).
  rewrite <- Zlt_Qlt in A, B. lia.
Qed.

Lemma calculateFee_unfold vt d w :
  calculateFee vt d w =
  match JsMap.get vt (rates w) with
  | None => (Throw (NoRateFound vt), w)
  | Some rate =>
      (Return (if Qceiling d <=? 1 then baseFee rate
               else (baseFee rate
                     + inject_Z (Qceiling d - 1) * hourlyRate rate)%Q), w)
  end.
Proof.
  unfold calculateFee, bind, gets. simpl.
  destruct (JsMap.get vt (rates w)); [|reflexivity].
  destruct (Qceiling d <=? 1); reflexivity.
Qed.

(** C5, as the code has it.  Under the default rate table a medium
    vehicle (car) parked for 3.5 hours owes 12.50, the base 5.00 and three
    further hours at 2.50, and a small vehicle (motorcycle) parked for 0.5
    hours owes 2.00. *)
Theorem calculateFee_default_examples (clock : nat -> Z) :
  calculateFee VehicleType.CAR (7 # 2) (newService None clock)
    = (Return (25 # 2), newService None clock) /\
  calculateFee VehicleType.MOTORCYCLE (1 # 2) (newService None clock)
    = (Return 2%Q, newService None clock).
Proof. split; reflexivity. Qed.

(** C5, as stated (a fee of 10.00 for the car), fails. *)
Lemma calculateFee_car_is_not_10 :
  ~ (defaultFeeIs VehicleType.CAR (7 # 2) 10 /\
     defaultFeeIs VehicleType.MOTORCYCLE (1 # 2) 2).
Proof.
  intros [[fee [E Q10]] _].
  vm_compute in E. inversion E; subst fee.
  revert Q10. unfold Qeq. simpl. discriminate.
Qed.

(** ** Identifiers *)

Lemma uint_of_string_zeros k s :
  NilEmpty.uint_of_string (repeatChar "0"%char k ++ s)
  = option_map (Nat.iter k Decimal.D0) (NilEmpty.uint_of_string s).
Proof.
  induction k as [|k IH]; simpl.
  - now destruct (NilEmpty.uint_of_string s).
  - rewrite IH. now destruct (NilEmpty.uint_of_string s).
Qed.

Lemma of_uint_zeros k d : Nat.of_uint (Nat.iter k Decimal.D0 d) = Nat.of_uint d.
Proof.
  induction k as [|k IH]; simpl; [reflexivity|]. exact IH.
Qed.

Lemma numberOfId_prefixed c k n :
  numberOfId (String c (repeatChar "0"%char k ++ String_of_nat n)) = Some n.
Proof.
  unfold numberOfId, String_of_nat.
  rewrite uint_of_string_zeros, NilEmpty.usu. simpl.
  now rewrite of_uint_zeros, Unsigned.of_to.
Qed.

Lemma numberOfId_ticketIdOf n : numberOfId (ticketIdOf n) = Some n.
Proof. unfold ticketIdOf, padStart. apply numberOfId_prefixed. Qed.

Lemma ticketIdOf_inj n m : ticketIdOf n = ticketIdOf m -> n = m.
Proof.
  intros E. apply (f_equal numberOfId) in E.
  rewrite !numberOfId_ticketIdOf in E. congruence.
Qed.

Lemma numberOfId_spotId c n :
  numberOfId (String c EmptyString ++ String_of_nat n) = Some n.
Proof. apply (numberOfId_prefixed c 0 n). Qed.

(** ** Check-in and check-out, unfolded *)

Lemma getActiveTicketByVehicle_unfold plate w :
  getActiveTicketByVehicle plate w = (Return (activeTicketOf plate w), w).
Proof. reflexivity. Qed.

Lemma checkInVehicle_unfold localeCompare vehicle w :
  checkInVehicle localeCompare vehicle w =
  match activeTicketOf (Vehicle.licensePlate vehicle) w with
  | Some existing =>
      (Throw (AlreadyParked (Vehicle.licensePlate vehicle)
                            (ParkingTicket.spot existing)), w)
  | None =>
      match allocateSpot localeCompare (Vehicle.type vehicle)
                         (Vehicle.licensePlate vehicle) w with
      | (Return None, w1) => (Return None, w1)
      | (Return (Some spot), w1) =>
          (Return (Some (fst (issueTicket vehicle spot w1))),
           snd (issueTicket vehicle spot w1))
      | (Throw e, w1) => (Throw e, w1)
      end
  end.
Proof.
  unfold checkInVehicle, bind. rewrite getActiveTicketByVehicle_unfold.
  destruct (activeTicketOf _ w); [reflexivity|].
  destruct (allocateSpot _ _ _ w) as [[[s|]|e] w1]; reflexivity.
Qed.

Lemma allocateSpot_None localeCompare vt lic w w' :
  allocateSpot localeCompare vt lic w = (Return None, w') -> w' = w.
Proof.
  rewrite allocateSpot_unfold.
  destruct (sort _ _) as [|sel rest]; [congruence|discriminate].
Qed.

Lemma allocateSpot_no_Throw localeCompare vt lic w e w' :
  allocateSpot localeCompare vt lic w <> (Throw e, w').
Proof.
  rewrite allocateSpot_unfold.
  destruct (sort _ _) as [|sel rest]; discriminate.
Qed.

(** C10. A check-in that returns none has no side effect at all: spots,
    tickets, vehicle index and ticket counter are as before, so the next
    successful check-in receives the ticket identifier it would have
    received had the failed attempt never happened. *)
Theorem checkIn_none_no_effect localeCompare vehicle w w' :
  checkInVehicle localeCompare vehicle w = (Return None, w') ->
  w' = w /\
  spots w' = spots w /\ tickets w' = tickets w /\
  activeTicketsByVehicle w' = activeTicketsByVehicle w /\
  ticketCounter w' = ticketCounter w /\
  forall next ticket w'',
    checkInVehicle localeCompare next w' = (Return (Some ticket), w'') ->
    checkInVehicle localeCompare next w = (Return (Some ticket), w'') /\
    ParkingTicket.ticketId ticket = ticketIdOf (ticketCounter w).
Proof.
  rewrite checkInVehicle_unfold.
  destruct (activeTicketOf _ w); [discriminate|].
  destruct (allocateSpot _ _ _ w) as [[[s|]|e] w1] eqn:A; try discriminate.
  intros E. inversion E; subst w1. clear E.
  apply allocateSpot_None in A. subst w'.
  do 5 (split; [reflexivity|]).
  intros next ticket w'' CI. split; [exact CI|].
  rewrite checkInVehicle_unfold in CI.
  destruct (activeTicketOf (Vehicle.licensePlate next) w); [discriminate|].
  destruct (allocateSpot_cases localeCompare (Vehicle.type next)
              (Vehicle.licensePlate next) w)
    as [A|[sel [_ [_ [_ A]]]]]; rewrite A in CI; [discriminate|].
  inversion CI. reflexivity.
Qed.

Lemma checkOutVehicle_unfold plate w :
  checkOutVehicle plate w =
  match activeTicketOf plate w with
  | None => (Throw (NoActiveSession plate), w)
  | Some t =>
      match ParkingTicket.exitTime t with
      | Some _ =>
          match JsMap.get (Vehicle.type (ParkingTicket.vehicle t)) (rates w)
          with
          | None =>
              (Throw (NoRateFound (Vehicle.type (ParkingTicket.vehicle t))),
               with_clockReads S w)
          | Some _ =>
              (Throw (TicketAlreadyCompleted (ParkingTicket.ticketId t)),
               with_tickets (JsMap.set (ParkingTicket.ticketId t) t)
                            (with_clockReads S w))
          end
      | None =>
          match JsMap.get (Vehicle.type (ParkingTicket.vehicle t)) (rates w)
          with
          | None =>
              (Throw (NoRateFound (Vehicle.type (ParkingTicket.vehicle t))),
               with_clockReads (fun n => S (S n)) w)
          | Some rate =>
              match JsMap.get (ParkingTicket.spot t) (spots w) with
              | None =>
                  (Throw (SpotNotFound (ParkingTicket.spot t)),
                   afterCompletion t rate w)
              | Some s =>
                  (Return (checkedOut t rate w),
                   with_spots (JsMap.set (ParkingTicket.spot t)
                                         (ParkingSpot.release s))
                              (afterCompletion t rate w))
              end
          end
      end
  end.
Proof.
  unfold checkOutVehicle, bind. rewrite getActiveTicketByVehicle_unfold.
  destruct (activeTicketOf plate w) as [t|]; [|reflexivity].
  unfold newDate, getDuration, bind, gets, modify, ret. simpl.
  destruct (ParkingTicket.exitTime t) as [e|] eqn:X; simpl.
  - rewrite calculateFee_unfold. simpl.
    destruct (JsMap.get _ (rates w)); [|reflexivity].
    unfold callOnTicket, ParkingTicket.complete, ParkingTicket.isActive.
    rewrite X. reflexivity.
  - rewrite calculateFee_unfold. simpl.
    destruct (JsMap.get _ (rates w)) as [rate|]; [|reflexivity].
    unfold callOnTicket, ParkingTicket.complete, ParkingTicket.isActive.
    rewrite X. simpl.
    unfold writeTicket, modify, completeTicket, getTicket, bind, gets. simpl.
    rewrite get_set_same. simpl.
    rewrite releaseSpot_unfold. simpl.
    destruct (JsMap.get (ParkingTicket.spot t) (spots w)); reflexivity.
Qed.

Lemma activeTicketOf_issueTicket vehicle spot w :
  activeTicketOf (Vehicle.licensePlate vehicle)
                 (snd (issueTicket vehicle spot w))
  = Some (fst (issueTicket vehicle spot w)).
Proof.
  unfold activeTicketOf, issueTicket. simpl.
  now rewrite !get_set_same.
Qed.

(** C6. A check-in fails with AlreadyParked exactly when the vehicle index
    holds an active session for the plate, a check-out fails with
    NoActiveSession exactly when it holds none; either failure is raised
    before any mutation, so the whole state is as it was before the call.
    In particular a second check-in of a vehicle that has just been
    checked in fails and leaves the spots untouched. *)
Theorem rejected_calls_no_effect localeCompare :
  (forall vehicle w,
     (exists p sid,
        fst (checkInVehicle localeCompare vehicle w)
        = Throw (AlreadyParked p sid)) <->
     activeTicketOf (Vehicle.licensePlate vehicle) w <> None) /\
  (forall vehicle w p sid w',
     checkInVehicle localeCompare vehicle w = (Throw (AlreadyParked p sid), w')
     -> w' = w) /\
  (forall plate w,
     (exists p, fst (checkOutVehicle plate w) = Throw (NoActiveSession p)) <->
     activeTicketOf plate w = None) /\
  (forall plate w p w',
     checkOutVehicle plate w = (Throw (NoActiveSession p), w') -> w' = w) /\
  (forall vehicle w ticket w1,
     checkInVehicle localeCompare vehicle w = (Return (Some ticket), w1) ->
     checkInVehicle localeCompare vehicle w1
     = (Throw (AlreadyParked (Vehicle.licensePlate vehicle)
                             (ParkingTicket.spot ticket)), w1)).
Proof.
  split; [|split; [|split; [|split]]].
  - intros vehicle w. rewrite checkInVehicle_unfold.
    destruct (activeTicketOf _ w) as [t|].
    + split; [discriminate|]. intros _. simpl. eauto.
    + split; [|tauto]. intros [p [sid E]]. exfalso.
      destruct (allocateSpot _ _ _ w) as [[[s|]|e] w1] eqn:A;
        simpl in E; try discriminate.
      now apply allocateSpot_no_Throw in A.
  - intros vehicle w p sid w'. rewrite checkInVehicle_unfold.
    destruct (activeTicketOf _ w) as [t|]; [congruence|].
    destruct (allocateSpot _ _ _ w) as [[[s|]|e] w1] eqn:A;
      try discriminate.
    intros _. now apply allocateSpot_no_Throw in A.
  - intros plate w. rewrite checkOutVehicle_unfold.
    destruct (activeTicketOf plate w) as [t|].
    + split; [|discriminate]. intros [p E]. exfalso.
      destruct (ParkingTicket.exitTime t);
        destruct (JsMap.get _ (rates w)); simpl in E; try discriminate;
        destruct (JsMap.get _ (spots w)); simpl in E; discriminate.
    + split; auto. intros _. simpl. eauto.
  - intros plate w p w'. rewrite checkOutVehicle_unfold.
    destruct (activeTicketOf plate w) as [t|]; [|congruence].
    destruct (ParkingTicket.exitTime t);
      destruct (JsMap.get _ (rates w)); try discriminate;
      destruct (JsMap.get _ (spots w)); discriminate.
  - intros vehicle w ticket w1. rewrite checkInVehicle_unfold.
    destruct (activeTicketOf _ w) as [t|]; [discriminate|].
    destruct (allocateSpot _ _ _ w) as [[[s|]|e] w0] eqn:A;
      try discriminate.
    intros E.
    assert (E1 : ticket = fst (issueTicket vehicle s w0)) by congruence.
    assert (E2 : w1 = snd (issueTicket vehicle s w0)) by congruence.
    subst ticket w1.
    rewrite checkInVehicle_unfold, activeTicketOf_issueTicket.
    reflexivity.
Qed.

(** ** The invariant of the service *)

Lemma In_set {K V : Type} `{EqDec K} (k k0 : K) (v v0 : V) (m : JsMap.t K V) :
  In (k, v) (JsMap.set k0 v0 m) -> (k = k0 /\ v = v0) \/ In (k, v) m.
Proof.
  induction m as [|[k' v'] m IH]; simpl.
  - intros [E|[]]. inversion E. auto.
  - destruct (eq_dec k0 k') as [E|E]; simpl.
    + intros [E'|I]; [inversion E'; auto|auto].
    + intros [E'|I]; [auto|]. destruct (IH I); auto.
Qed.

Lemma spots_wf_set w k s' :
  spots_wf w -> ParkingSpot.id s' = k ->
  spots_wf (with_spots (JsMap.set k s') w).
Proof.
  intros [ND KEY] E. split; simpl.
  - now apply wf_set.
  - intros k0 s0 I. apply In_set in I. destruct I as [[-> ->]|I]; auto.
Qed.

(** Writing a spot of the same identifier under a key that is present. *)
Lemma Inv_set_spot w k s s' :
  Inv w -> JsMap.get k (spots w) = Some s -> ParkingSpot.id s' = k ->
  Inv (with_spots (JsMap.set k s') w).
Proof.
  intros I G E. destruct I as [SW TK TV TS IX AI].
  constructor; simpl; auto.
  - now apply spots_wf_set.
  - intros tid t Gt. rewrite get_set.
    destruct (eq_dec (ParkingTicket.spot t) k); [discriminate|eauto].
Qed.

Lemma Inv_clockReads w f : Inv w -> Inv (with_clockReads f w).
Proof.
  intros [SW TK TV TS IX AI]. constructor; simpl; auto.
Qed.

Lemma activeTicketOf_None_index w plate :
  Inv w -> activeTicketOf plate w = None ->
  JsMap.get plate (activeTicketsByVehicle w) = None.
Proof.
  intros I. unfold activeTicketOf.
  destruct (JsMap.get plate (activeTicketsByVehicle w)) as [ref|] eqn:G; auto.
  destruct (inv_index w I _ _ G) as [t [Gt _]]. congruence.
Qed.

Lemma activeTicketOf_Some w plate t :
  Inv w -> activeTicketOf plate w = Some t ->
  JsMap.get plate (activeTicketsByVehicle w) = Some (ParkingTicket.ticketId t)
  /\ JsMap.get (ParkingTicket.ticketId t) (tickets w) = Some t
  /\ Vehicle.licensePlate (ParkingTicket.vehicle t) = plate
  /\ ParkingTicket.isActive t = true.
Proof.
  intros I. unfold activeTicketOf.
  destruct (JsMap.get plate (activeTicketsByVehicle w)) as [ref|] eqn:G;
    [|discriminate].
  intros Gt. destruct (inv_index w I _ _ G) as [t' [Gt' [P A]]].
  assert (t' = t) by congruence. subst t'.
  destruct (inv_ticket_keys w I _ _ Gt) as [K _]. subst ref. auto.
Qed.

Lemma Inv_issueTicket w vehicle spot :
  Inv w -> activeTicketOf (Vehicle.licensePlate vehicle) w = None ->
  JsMap.get (ParkingSpot.id spot) (spots w) <> None ->
  Inv (snd (issueTicket vehicle spot w)).
Proof.
  intros I NA SP. pose proof (activeTicketOf_None_index w _ I NA) as NI.
  destruct I as [SW TK TV TS IX AI].
  assert (FRESH : JsMap.get (ticketIdOf (ticketCounter w)) (tickets w) = None).
  { destruct (JsMap.get (ticketIdOf (ticketCounter w)) (tickets w)) as [t|]
      eqn:G; auto.
    destruct (TK _ _ G) as [_ [n [L E]]]. apply ticketIdOf_inj in E. lia. }
  unfold issueTicket. constructor; simpl.
  - exact SW.
  - intros tid t. rewrite get_set.
    destruct (eq_dec tid (ticketIdOf (ticketCounter w))) as [->|N].
    + intros E. inversion E; subst t. simpl. split; eauto.
    + intros G. destruct (TK _ _ G) as [K [n [L E]]]. split; eauto.
  - intros tid t. rewrite get_set.
    destruct (eq_dec tid (ticketIdOf (ticketCounter w))) as [->|N].
    + intros E. inversion E; subst t. left. auto.
    + eauto.
  - intros tid t. rewrite get_set.
    destruct (eq_dec tid (ticketIdOf (ticketCounter w))) as [->|N].
    + intros E. inversion E; subst t. exact SP.
    + eauto.
  - intros p ref. rewrite get_set.
    destruct (eq_dec p (Vehicle.licensePlate vehicle)) as [->|N].
    + intros E. inversion E; subst ref. rewrite get_set_same.
      eexists. split; [reflexivity|]. auto.
    + intros G. destruct (IX _ _ G) as [t [Gt [P A]]].
      exists t. split; auto. rewrite get_set_other; auto.
      intros ->. congruence.
  - intros tid t. rewrite get_set.
    destruct (eq_dec tid (ticketIdOf (ticketCounter w))) as [->|N].
    + intros E. inversion E; subst t. simpl. intros _. apply get_set_same.
    + intros G A. pose proof (AI _ _ G A) as X.
      rewrite get_set_other; auto. intros E. rewrite E in X. congruence.
Qed.

Lemma Inv_afterCompletion w t rate :
  Inv w -> ActiveTicket w t -> Inv (afterCompletion t rate w).
Proof.
  intros I [G A]. pose proof (inv_active_indexed w I _ _ G A) as GI.
  destruct I as [SW TK TV TS IX AI].
  unfold afterCompletion, checkedOut, completedWith.
  constructor; simpl.
  - exact SW.
  - intros tid t'. rewrite get_set.
    destruct (eq_dec tid (ParkingTicket.ticketId t)) as [->|N].
    + intros E. inversion E; subst t'. simpl. split; auto.
      destruct (TK _ _ G) as [_ X]. exact X.
    + eauto.
  - intros tid t'. rewrite get_set.
    destruct (eq_dec tid (ParkingTicket.ticketId t)) as [->|N].
    + intros E. inversion E; subst t'. right. simpl. eauto.
    + eauto.
  - intros tid t'. rewrite get_set.
    destruct (eq_dec tid (ParkingTicket.ticketId t)) as [->|N].
    + intros E. inversion E; subst t'. simpl. eauto.
    + eauto.
  - intros p ref Gp.
    destruct (eq_dec p (Vehicle.licensePlate (ParkingTicket.vehicle t)))
      as [->|N].
    + rewrite get_delete_same in Gp. discriminate.
    + rewrite get_delete_other in Gp by assumption.
      destruct (IX _ _ Gp) as [t' [Gt' [P A']]].
      exists t'. split; auto. rewrite get_set_other; auto.
      intros ->. assert (t' = t) by congruence. subst t'. congruence.
  - intros tid t'. rewrite get_set.
    destruct (eq_dec tid (ParkingTicket.ticketId t)) as [->|N].
    + intros E. inversion E; subst t'. discriminate.
    + intros G' A'. pose proof (AI _ _ G' A') as X.
      rewrite get_delete_other; auto.
      intros E. rewrite E in X. congruence.
Qed.

Lemma Inv_allocateSpot localeCompare vt lic w :
  Inv w -> Inv (snd (allocateSpot localeCompare vt lic w)).
Proof.
  intros I.
  destruct (allocateSpot_cases localeCompare vt lic w)
    as [E|[sel [In_ [A [F E]]]]]; rewrite E; simpl; auto.
  apply Inv_set_spot with sel; auto.
  apply spots_wf_get; auto. apply (inv_spots w I).
Qed.

Lemma Inv_releaseSpot spotId w : Inv w -> Inv (snd (releaseSpot spotId w)).
Proof.
  intros I. rewrite releaseSpot_unfold.
  destruct (JsMap.get spotId (spots w)) as [s|] eqn:G; simpl; auto.
  apply Inv_set_spot with s; auto. simpl.
  destruct (inv_spots w I) as [_ KEY]. apply KEY. now apply get_In.
Qed.

Lemma Inv_checkInVehicle localeCompare vehicle w :
  Inv w -> Inv (snd (checkInVehicle localeCompare vehicle w)).
Proof.
  intros I. rewrite checkInVehicle_unfold.
  destruct (activeTicketOf _ w) as [t|] eqn:NA; simpl; auto.
  pose proof (Inv_allocateSpot localeCompare (Vehicle.type vehicle)
                (Vehicle.licensePlate vehicle) w I) as I1.
  destruct (allocateSpot_cases localeCompare (Vehicle.type vehicle)
              (Vehicle.licensePlate vehicle) w)
    as [E|[sel [In_ [A [F E]]]]]; rewrite E in *;
    cbv beta iota; try exact I.
  apply Inv_issueTicket.
  - exact I1.
  - exact NA.
  - simpl. rewrite get_set_same. discriminate.
Qed.

Lemma Inv_checkOutVehicle plate w :
  Inv w -> Inv (snd (checkOutVehicle plate w)).
Proof.
  intros I. rewrite checkOutVehicle_unfold.
  destruct (activeTicketOf plate w) as [t|] eqn:AT; simpl; auto.
  destruct (activeTicketOf_Some w plate t I AT) as [GI [G [P A]]].
  unfold ParkingTicket.isActive in A.
  destruct (ParkingTicket.exitTime t) eqn:X; [discriminate|].
  destruct (JsMap.get _ (rates w)) as [rate|]; simpl;
    [|now apply Inv_clockReads].
  assert (I' : Inv (afterCompletion t rate w)).
  { apply Inv_afterCompletion; auto. split; auto.
    unfold ParkingTicket.isActive. now rewrite X. }
  destruct (JsMap.get (ParkingTicket.spot t) (spots w)) as [s|] eqn:GS;
    simpl; auto.
  apply Inv_set_spot with s; auto. simpl.
  destruct (inv_spots w I) as [_ KEY]. apply KEY. now apply get_In.
Qed.

Lemma Inv_exec localeCompare op w :
  Inv w -> Inv (exec localeCompare op w).
Proof.
  destruct op; simpl.
  - apply Inv_checkInVehicle.
  - apply Inv_checkOutVehicle.
  - apply Inv_allocateSpot.
  - apply Inv_releaseSpot.
Qed.

Lemma Inv_run localeCompare ops :
  forall w, Inv w -> Inv (run localeCompare ops w).
Proof.
  unfold run. induction ops as [|op ops IH]; simpl; auto.
  intros w I. apply IH. now apply Inv_exec.
Qed.

Lemma Inv_newService rates clock : Inv (newService rates clock).
Proof.
  constructor; simpl; try discriminate.
  split; [constructor|]. intros k s [].
Qed.

Lemma Inv_addSpot spot w : Inv w -> Inv (snd (addSpot spot w)).
Proof.
  intros [SW TK TV TS IX AI]. unfold addSpot, modify. simpl.
  constructor; simpl; auto.
  - now apply spots_wf_set.
  - intros tid t G. rewrite get_set.
    destruct (eq_dec (ParkingTicket.spot t) (ParkingSpot.id spot));
      [discriminate|eauto].
Qed.

Lemma Inv_addSpots prefix spotType floor count :
  forall c w, Inv w -> Inv (snd (addSpots prefix spotType floor count c w)).
Proof.
  induction count as [|count IH]; simpl; auto.
  intros c w I. unfold bind.
  destruct (addSpot _ w) as [[[]|e] w1] eqn:A.
  - apply IH. change w1 with (snd (Return tt, w1)). rewrite <- A.
    now apply Inv_addSpot.
  - discriminate A.
Qed.

Lemma addSpots_returns prefix spotType floor count :
  forall c w, fst (addSpots prefix spotType floor count c w)
              = Return (count + c)%nat.
Proof.
  induction count as [|count IH]; simpl; auto.
  intros c w. unfold bind. simpl. rewrite IH. f_equal. lia.
Qed.

Lemma Inv_addFloors spotsPerFloor remaining :
  forall floor c w,
    Inv w -> Inv (snd (addFloors spotsPerFloor remaining floor c w)).
Proof.
  induction remaining as [|remaining IH]; simpl; auto.
  intros floor c w I. unfold bind.
  repeat match goal with
  | |- context [addSpots ?p ?t ?f ?n ?c ?w] =>
      let H := fresh "A" in
      pose proof (Inv_addSpots p t f n c w) as H;
      pose proof (addSpots_returns p t f n c w);
      destruct (addSpots p t f n c w) as [[?|?] ?]; simpl in *;
      [|discriminate]
  end.
  apply IH. auto.
Qed.

Lemma Inv_initialized rates clock floors spotsPerFloor :
  Inv (initialized rates clock floors spotsPerFloor).
Proof.
  unfold initialized, initializeParkingLot, bind.
  pose proof (Inv_addFloors spotsPerFloor floors 1%nat 1%nat
                (newService rates clock) (Inv_newService rates clock)) as I.
  destruct (addFloors _ _ _ _ _) as [[c|e] w1]; exact I.
Qed.

Lemma Reachable_Inv localeCompare w : Reachable localeCompare w -> Inv w.
Proof.
  induction 1.
  - apply Inv_initialized.
  - now apply Inv_exec.
Qed.

(** ** The life of a ticket *)

Lemma completed_ticket_stays localeCompare op w tid t :
  Inv w -> JsMap.get tid (tickets w) = Some t ->
  ParkingTicket.isActive t = false ->
  JsMap.get tid (tickets (exec localeCompare op w)) = Some t.
Proof.
  intros I G NA. destruct op as [vehicle|plate|vt lic|spotId]; simpl.
  - rewrite checkInVehicle_unfold.
    destruct (activeTicketOf _ w) as [t0|]; simpl; auto.
    destruct (allocateSpot_cases localeCompare (Vehicle.type vehicle)
                (Vehicle.licensePlate vehicle) w)
      as [E|[sel [In_ [A [F E]]]]]; rewrite E; cbv beta iota; auto.
    simpl. rewrite get_set_other; auto.
    intros ->. destruct (inv_ticket_keys w I _ _ G) as [_ [n [L E']]].
    apply ticketIdOf_inj in E'. lia.
  - rewrite checkOutVehicle_unfold.
    destruct (activeTicketOf plate w) as [t0|] eqn:AT; simpl; auto.
    destruct (activeTicketOf_Some w plate t0 I AT) as [GI [G0 [P A0]]].
    assert (NE : tid <> ParkingTicket.ticketId t0)
      by (intros ->; congruence).
    destruct (ParkingTicket.exitTime t0);
      destruct (JsMap.get _ (rates w)); simpl; auto;
      try (rewrite get_set_other; now auto);
      destruct (JsMap.get _ (spots w)); simpl;
      rewrite get_set_other; auto.
  - destruct (allocateSpot_cases localeCompare vt lic w)
      as [E|[sel [In_ [A [F E]]]]]; rewrite E; auto.
  - rewrite releaseSpot_unfold.
    destruct (JsMap.get spotId (spots w)); auto.
Qed.

(** C8. In every reachable state each ticket is either active, with exit
    time and fee both unset, or completed, with both set.  [complete]
    takes an active ticket to a completed one; on a completed ticket it
    fails and leaves exit time and fee as they are, so a ticket is
    completed at most once, and no operation of the service alters a
    completed ticket. *)
Theorem ticket_lifecycle localeCompare :
  (forall w, Reachable localeCompare w ->
     forall tid t, JsMap.get tid (tickets w) = Some t ->
       (ParkingTicket.isActive t = true /\
        ParkingTicket.exitTime t = None /\ ParkingTicket.fee t = None) \/
       (ParkingTicket.isActive t = false /\
        exists e f, ParkingTicket.exitTime t = Some e /\
                    ParkingTicket.fee t = Some f)) /\
  (forall t e f, ParkingTicket.isActive t = true ->
     ParkingTicket.complete e f t = (Return tt, completedWith e f t) /\
     ParkingTicket.isActive (completedWith e f t) = false) /\
  (forall t e f, ParkingTicket.isActive t = false ->
     ParkingTicket.complete e f t
     = (Throw (TicketAlreadyCompleted (ParkingTicket.ticketId t)), t)) /\
  (forall t e f e' f',
     fst (ParkingTicket.complete e f t) = Return tt ->
     ParkingTicket.complete e' f' (snd (ParkingTicket.complete e f t))
     = (Throw (TicketAlreadyCompleted (ParkingTicket.ticketId t)),
        snd (ParkingTicket.complete e f t))) /\
  (forall w op tid t, Reachable localeCompare w ->
     JsMap.get tid (tickets w) = Some t ->
     ParkingTicket.isActive t = false ->
     JsMap.get tid (tickets (exec localeCompare op w)) = Some t).
Proof.
  split; [|split; [|split; [|split]]].
  - intros w R tid t G. apply Reachable_Inv in R.
    destruct (inv_ticket_valid w R _ _ G) as [[X F]|[e [f [X F]]]];
      unfold ParkingTicket.isActive; rewrite X; [left|right]; eauto.
  - intros t e f A. unfold ParkingTicket.complete. rewrite A. simpl. auto.
  - intros t e f A. unfold ParkingTicket.complete. now rewrite A.
  - intros t e f e' f'. unfold ParkingTicket.complete at 1 3 4.
    destruct (ParkingTicket.isActive t); simpl; [|discriminate].
    intros _. reflexivity.
  - intros w op tid t R. apply Reachable_Inv in R.
    now apply completed_ticket_stays.
Qed.

(** ** The round trip of a session *)

Lemma rates_exec localeCompare op w :
  rates (exec localeCompare op w) = rates w.
Proof.
  destruct op as [vehicle|plate|vt lic|spotId]; simpl.
  - rewrite checkInVehicle_unfold.
    destruct (activeTicketOf _ w); auto.
    destruct (allocateSpot_cases localeCompare (Vehicle.type vehicle)
                (Vehicle.licensePlate vehicle) w)
      as [E|[sel [_ [_ [_ E]]]]]; rewrite E; reflexivity.
  - rewrite checkOutVehicle_unfold.
    destruct (activeTicketOf plate w) as [t|]; auto.
    destruct (ParkingTicket.exitTime t);
      destruct (JsMap.get _ (rates w)); auto;
      destruct (JsMap.get _ (spots w)); auto.
  - destruct (allocateSpot_cases localeCompare vt lic w)
      as [E|[sel [_ [_ [_ E]]]]]; rewrite E; reflexivity.
  - rewrite releaseSpot_unfold. destruct (JsMap.get spotId (spots w)); auto.
Qed.

Lemma session_stays localeCompare op w plate S :
  Inv w -> activeTicketOf plate w = Some S -> ~ concerns plate op ->
  activeTicketOf plate (exec localeCompare op w) = Some S.
Proof.
  intros I AT NC.
  destruct (activeTicketOf_Some w plate S I AT) as [GI [G [P A]]].
  destruct op as [vehicle|plate'|vt lic|spotId]; simpl in *.
  - rewrite checkInVehicle_unfold.
    destruct (activeTicketOf (Vehicle.licensePlate vehicle) w) as [t0|];
      simpl; auto.
    destruct (allocateSpot_cases localeCompare (Vehicle.type vehicle)
                (Vehicle.licensePlate vehicle) w)
      as [E|[sel [_ [_ [_ E]]]]]; rewrite E; cbv beta iota; auto.
    unfold activeTicketOf, issueTicket. simpl.
    rewrite get_set_other by congruence. rewrite GI. cbv beta iota.
    rewrite get_set_other; auto.
    intros E'. destruct (inv_ticket_keys w I _ _ G) as [_ [n [L E'']]].
    rewrite E'' in E'. apply ticketIdOf_inj in E'. lia.
  - rewrite checkOutVehicle_unfold.
    destruct (activeTicketOf plate' w) as [t0|] eqn:AT0; simpl; auto.
    destruct (activeTicketOf_Some w plate' t0 I AT0) as [GI0 [G0 [P0 A0]]].
    assert (NE : ParkingTicket.ticketId S <> ParkingTicket.ticketId t0).
    { intros E. rewrite E in G. congruence. }
    unfold ParkingTicket.isActive in A0.
    destruct (ParkingTicket.exitTime t0); [discriminate|].
    destruct (JsMap.get _ (rates w)) as [rate|]; simpl; auto.
    assert (X : activeTicketOf plate (afterCompletion t0 rate w) = Some S).
    { unfold activeTicketOf, afterCompletion. simpl.
      rewrite get_delete_other by congruence. rewrite GI. cbv beta iota.
      now rewrite get_set_other. }
    destruct (JsMap.get _ (spots w)); simpl; exact X.
  - destruct (allocateSpot_cases localeCompare vt lic w)
      as [E|[sel [_ [_ [_ E]]]]]; rewrite E; auto.
  - rewrite releaseSpot_unfold. destruct (JsMap.get spotId (spots w)); auto.
Qed.

Lemma session_stays_run localeCompare ops plate S :
  forall w, Inv w -> activeTicketOf plate w = Some S ->
    (forall op, In op ops -> ~ concerns plate op) ->
    activeTicketOf plate (run localeCompare ops w) = Some S /\
    rates (run localeCompare ops w) = rates w.
Proof.
  unfold run. induction ops as [|op ops IH]; simpl; auto.
  intros w I AT NC.
  destruct (IH (exec localeCompare op w)) as [X Y].
  - now apply Inv_exec.
  - apply session_stays; auto.
  - auto.
  - split; auto. rewrite Y. apply rates_exec.
Qed.

Lemma checkIn_Some localeCompare vehicle w S w1 :
  checkInVehicle localeCompare vehicle w = (Return (Some S), w1) ->
  exists sel,
    In sel (JsMap.values (spots w)) /\
    ParkingSpot.isAvailable sel = true /\
    S = fst (issueTicket vehicle
               (occupiedBy (Vehicle.licensePlate vehicle) sel)
               (with_spots (JsMap.set (ParkingSpot.id sel)
                  (occupiedBy (Vehicle.licensePlate vehicle) sel)) w)) /\
    w1 = snd (issueTicket vehicle
               (occupiedBy (Vehicle.licensePlate vehicle) sel)
               (with_spots (JsMap.set (ParkingSpot.id sel)
                  (occupiedBy (Vehicle.licensePlate vehicle) sel)) w)) /\
    activeTicketOf (Vehicle.licensePlate vehicle) w = None.
Proof.
  rewrite checkInVehicle_unfold.
  destruct (activeTicketOf _ w) as [t|]; [discriminate|].
  destruct (allocateSpot_cases localeCompare (Vehicle.type vehicle)
              (Vehicle.licensePlate vehicle) w)
    as [E|[sel [I [A [_ E]]]]]; rewrite E; cbv beta iota; [discriminate|].
  intros X. exists sel. repeat split; auto; congruence.
Qed.

(** C3, as the code has it.  For a vehicle whose size class has a
    registered rate: if its check-in succeeds and returns [session], then,
    after any operations that are not a check-in or check-out of this
    vehicle, its check-out returns a session with the identifier of
    [session], with the exit time set and with a fee set; when the clock
    shows, at the moment the duration is measured, the time that was
    stamped as exit time, that fee is the fee computed for the class from
    the time between entry and exit.  Afterwards the spot allocated to
    [session] is available and has no occupant. *)
Theorem checkIn_checkOut_round_trip localeCompare vehicle w session w1 ops
    rate :
  Reachable localeCompare w ->
  JsMap.get (Vehicle.type vehicle) (rates w) = Some rate ->
  checkInVehicle localeCompare vehicle w = (Return (Some session), w1) ->
  (forall op, In op ops -> ~ concerns (Vehicle.licensePlate vehicle) op) ->
  let w2 := run localeCompare ops w1 in
  exists T w3 fee,
    checkOutVehicle (Vehicle.licensePlate vehicle) w2 = (Return T, w3) /\
    ParkingTicket.ticketId T = ParkingTicket.ticketId session /\
    ParkingTicket.exitTime T = Some (clock w2 (clockReads w2)) /\
    ParkingTicket.fee T = Some fee /\
    (clock w2 (S (clockReads w2)) = clock w2 (clockReads w2) ->
     forall exit, ParkingTicket.exitTime T = Some exit ->
       calculateFee (Vehicle.type vehicle)
                    (ParkingTicket.hoursUntil exit session) w2
       = (Return fee, w2)) /\
    (exists s0,
       JsMap.get (ParkingTicket.spot session) (spots w1) = Some s0 /\
       ParkingSpot.isAvailable s0 = false /\
       ParkingSpot.currentVehicleLicense s0
       = Some (Vehicle.licensePlate vehicle)) /\
    (exists s,
       JsMap.get (ParkingTicket.spot session) (spots w3) = Some s /\
       ParkingSpot.isAvailable s = true /\
       ParkingSpot.currentVehicleLicense s = None).
Proof.
  intros R GR CI NC w2.
  pose proof (Reachable_Inv localeCompare w R) as I.
  assert (I1 : Inv w1).
  { change w1 with (snd (Return (Some session), w1)). rewrite <- CI.
    now apply Inv_checkInVehicle. }
  destruct (checkIn_Some localeCompare vehicle w session w1 CI)
    as [sel [Isel [Asel [ES [EW _]]]]].
  assert (AT1 : activeTicketOf (Vehicle.licensePlate vehicle) w1 = Some session).
  { rewrite ES, EW. apply activeTicketOf_issueTicket. }
  assert (R1 : rates w1 = rates w) by (rewrite EW; reflexivity).
  assert (X : ParkingTicket.exitTime session = None) by (rewrite ES; reflexivity).
  assert (V : ParkingTicket.vehicle session = vehicle) by (rewrite ES; reflexivity).
  assert (SP : ParkingTicket.spot session = ParkingSpot.id sel)
    by (rewrite ES; reflexivity).
  destruct (session_stays_run localeCompare ops (Vehicle.licensePlate vehicle)
              session w1 I1 AT1 NC) as [AT2 R2].
  fold w2 in AT2, R2.
  assert (I2 : Inv w2) by now apply Inv_run.
  destruct (activeTicketOf_Some w2 _ session I2 AT2) as [_ [G2 _]].
  pose proof (inv_ticket_spot w2 I2 _ _ G2) as GS.
  destruct (JsMap.get (ParkingTicket.spot session) (spots w2)) as [s|] eqn:GS2;
    [clear GS|congruence].
  assert (GR2 : JsMap.get (Vehicle.type vehicle) (rates w2) = Some rate)
    by (rewrite R2, R1; exact GR).
  exists (checkedOut session rate w2).
  exists (with_spots (JsMap.set (ParkingTicket.spot session)
                        (ParkingSpot.release s))
            (afterCompletion session rate w2)).
  exists (feeUnder rate
            (ParkingTicket.hoursUntil (clock w2 (S (clockReads w2))) session)).
  split; [|split; [|split; [|split; [|split; [|split]]]]].
  - rewrite checkOutVehicle_unfold, AT2, X, V, GR2, GS2. reflexivity.
  - reflexivity.
  - reflexivity.
  - reflexivity.
  - intros SAME exit E. simpl in E. inversion E.
    rewrite calculateFee_unfold, GR2, SAME. reflexivity.
  - exists (occupiedBy (Vehicle.licensePlate vehicle) sel).
    rewrite SP, EW. simpl. rewrite get_set_same. auto.
  - exists (ParkingSpot.release s). simpl. rewrite get_set_same. auto.
Qed.

(** ** One vehicle per spot *)

Lemma Reachable_run localeCompare ops :
  forall w, Reachable localeCompare w ->
            Reachable localeCompare (run localeCompare ops w).
Proof.
  unfold run. induction ops as [|op ops IH]; simpl; auto.
  intros w R. apply IH. now constructor.
Qed.

Lemma ReachablePermitted_Reachable localeCompare w :
  ReachablePermitted localeCompare w -> Reachable localeCompare w.
Proof. induction 1; now constructor. Qed.

Lemma tickets_addSpots prefix spotType floor count :
  forall c w, tickets (snd (addSpots prefix spotType floor count c w))
              = tickets w.
Proof.
  induction count as [|count IH]; simpl; auto.
  intros c w. unfold bind. simpl. now rewrite IH.
Qed.

Lemma tickets_addFloors spotsPerFloor remaining :
  forall floor c w,
    tickets (snd (addFloors spotsPerFloor remaining floor c w)) = tickets w.
Proof.
  induction remaining as [|remaining IH]; simpl; auto.
  intros floor c w. unfold bind.
  repeat match goal with
  | |- context [addSpots ?p ?t ?f ?n ?c ?w] =>
      pose proof (tickets_addSpots p t f n c w);
      pose proof (addSpots_returns p t f n c w);
      destruct (addSpots p t f n c w) as [[?|?] ?]; simpl in *;
      [|discriminate]
  end.
  rewrite IH. congruence.
Qed.

Lemma tickets_initialized rates clock floors spotsPerFloor :
  tickets (initialized rates clock floors spotsPerFloor) = JsMap.empty.
Proof.
  unfold initialized, initializeParkingLot, bind.
  pose proof (tickets_addFloors spotsPerFloor floors 1%nat 1%nat
                (newService rates clock)) as T.
  destruct (addFloors _ _ _ _ _) as [[c|e] w1]; exact T.
Qed.

(** Under the invariants, active tickets with the same spot are one. *)
Lemma Occupancy_distinct w t1 t2 :
  Inv w -> Occupancy w -> ActiveTicket w t1 -> ActiveTicket w t2 ->
  ParkingTicket.spot t1 = ParkingTicket.spot t2 -> t1 = t2.
Proof.
  intros I O A1 A2 E.
  destruct (O t1 A1) as [s1 [G1 [_ L1]]].
  destruct (O t2 A2) as [s2 [G2 [_ L2]]].
  rewrite E in G1. assert (s1 = s2) by congruence. subst s2.
  assert (P : Vehicle.licensePlate (ParkingTicket.vehicle t1)
              = Vehicle.licensePlate (ParkingTicket.vehicle t2))
    by congruence.
  destruct A1 as [T1 X1]. destruct A2 as [T2 X2].
  pose proof (inv_active_indexed w I _ _ T1 X1) as J1.
  pose proof (inv_active_indexed w I _ _ T2 X2) as J2.
  rewrite P in J1. congruence.
Qed.

(** An available spot of the store is the spot of no active ticket. *)
Lemma Occupancy_available w t sel :
  Inv w -> Occupancy w -> ActiveTicket w t ->
  In sel (JsMap.values (spots w)) -> ParkingSpot.isAvailable sel = true ->
  ParkingTicket.spot t <> ParkingSpot.id sel.
Proof.
  intros I O A Isel Av E.
  destruct (O t A) as [s [G [U _]]].
  rewrite E, (spots_wf_get w sel (inv_spots w I) Isel) in G. congruence.
Qed.

Lemma Occupancy_set_spot w k s' :
  Occupancy w ->
  (forall t, ActiveTicket w t -> ParkingTicket.spot t <> k) ->
  Occupancy (with_spots (JsMap.set k s') w).
Proof.
  intros O NE t A. destruct (O t A) as [s [G U]].
  exists s. simpl. rewrite get_set_other; auto.
Qed.

Lemma Occupancy_exec localeCompare op w :
  Inv w -> Occupancy w -> permitted w op ->
  Occupancy (exec localeCompare op w).
Proof.
  intros I O PM. destruct op as [vehicle|plate|vt lic|spotId]; simpl in *.
  - rewrite checkInVehicle_unfold.
    destruct (activeTicketOf (Vehicle.licensePlate vehicle) w) as [t0|];
      simpl; auto.
    destruct (allocateSpot_cases localeCompare (Vehicle.type vehicle)
                (Vehicle.licensePlate vehicle) w)
      as [E|[sel [Isel [Av [_ E]]]]]; rewrite E; cbv beta iota; auto.
    intros t [G A]. unfold issueTicket in *. simpl in *.
    rewrite get_set in G.
    destruct (eq_dec (ParkingTicket.ticketId t) (ticketIdOf (ticketCounter w)))
      as [K|K].
    + inversion G; subst t. simpl. rewrite get_set_same.
      eexists. split; [reflexivity|]. auto.
    + assert (AT : ActiveTicket w t) by (split; auto).
      destruct (O t AT) as [s [Gs U]]. exists s.
      rewrite get_set_other; auto.
      now apply Occupancy_available with w.
  - rewrite checkOutVehicle_unfold.
    destruct (activeTicketOf plate w) as [t0|] eqn:AT0; simpl; auto.
    destruct (activeTicketOf_Some w plate t0 I AT0) as [GI0 [G0 [P0 A0]]].
    pose proof A0 as A0'. unfold ParkingTicket.isActive in A0'.
    destruct (ParkingTicket.exitTime t0); [discriminate|].
    destruct (JsMap.get _ (rates w)) as [rate|]; simpl; auto.
    assert (OLD : forall t, ActiveTicket (afterCompletion t0 rate w) t ->
                    ActiveTicket w t /\ t <> t0).
    { intros t [G A]. unfold afterCompletion in G. simpl in G.
      rewrite get_set in G.
      destruct (eq_dec (ParkingTicket.ticketId t) (ParkingTicket.ticketId t0)).
      - inversion G; subst t. discriminate.
      - split; [split; auto|]. congruence. }
    assert (O' : Occupancy (afterCompletion t0 rate w)).
    { intros t A. destruct (OLD t A) as [A' _]. exact (O t A'). }
    destruct (JsMap.get (ParkingTicket.spot t0) (spots w)) as [s0|]; auto.
    apply Occupancy_set_spot; auto.
    intros t A E. destruct (OLD t A) as [A' NE]. apply NE.
    apply Occupancy_distinct with w; auto. split; auto.
  - destruct (allocateSpot_cases localeCompare vt lic w)
      as [E|[sel [Isel [Av [_ E]]]]]; rewrite E; auto.
    apply Occupancy_set_spot; auto.
    intros t A. now apply Occupancy_available with w.
  - rewrite releaseSpot_unfold.
    destruct (JsMap.get spotId (spots w)) as [s|]; auto.
    now apply Occupancy_set_spot.
Qed.

Lemma ReachablePermitted_Occupancy localeCompare w :
  ReachablePermitted localeCompare w -> Occupancy w.
Proof.
  induction 1 as [rates clock floors spf|op w R IH PM].
  - intros t [G _]. rewrite tickets_initialized in G. discriminate.
  - apply Occupancy_exec; auto.
    apply Reachable_Inv with localeCompare.
    now apply ReachablePermitted_Reachable.
Qed.

Lemma NoReassignment_same w w' : spots w' = spots w -> NoReassignment w w'.
Proof. intros E k s G U. left. now rewrite E. Qed.

Lemma NoReassignment_exec localeCompare op w :
  Inv w -> NoReassignment w (exec localeCompare op w).
Proof.
  intros I.
  assert (ALLOC : forall sel lic (w' : World),
            In sel (JsMap.values (spots w)) ->
            ParkingSpot.isAvailable sel = true ->
            spots w' = JsMap.set (ParkingSpot.id sel) (occupiedBy lic sel)
                                 (spots w) ->
            NoReassignment w w').
  { intros sel lic w' Isel Av E k s G U. left. rewrite E.
    rewrite get_set_other; auto. intros ->.
    rewrite (spots_wf_get w sel (inv_spots w I) Isel) in G. congruence. }
  assert (REL : forall k0 s0 (w' : World),
            JsMap.get k0 (spots w) = Some s0 ->
            spots w' = JsMap.set k0 (ParkingSpot.release s0) (spots w) ->
            NoReassignment w w').
  { intros k0 s0 w' G0 E k s G U. rewrite E, get_set.
    destruct (eq_dec k k0) as [->|N]; [right|left]; congruence. }
  destruct op as [vehicle|plate|vt lic|spotId]; simpl.
  - rewrite checkInVehicle_unfold.
    destruct (activeTicketOf (Vehicle.licensePlate vehicle) w) as [t0|];
      simpl; [apply NoReassignment_same; reflexivity|].
    destruct (allocateSpot_cases localeCompare (Vehicle.type vehicle)
                (Vehicle.licensePlate vehicle) w)
      as [E|[sel [Isel [Av [_ E]]]]]; rewrite E; cbv beta iota;
      [apply NoReassignment_same; reflexivity|].
    eapply ALLOC; eauto; reflexivity.
  - rewrite checkOutVehicle_unfold.
    destruct (activeTicketOf plate w) as [t0|]; [|apply NoReassignment_same; reflexivity].
    destruct (ParkingTicket.exitTime t0);
      destruct (JsMap.get _ (rates w)); try (apply NoReassignment_same; reflexivity);
      destruct (JsMap.get (ParkingTicket.spot t0) (spots w)) as [s0|] eqn:GS;
      try (apply NoReassignment_same; reflexivity).
    eapply REL; eauto; reflexivity.
  - destruct (allocateSpot_cases localeCompare vt lic w)
      as [E|[sel [Isel [Av [_ E]]]]]; rewrite E;
      [apply NoReassignment_same; reflexivity|].
    eapply ALLOC; eauto; reflexivity.
  - rewrite releaseSpot_unfold.
    destruct (JsMap.get spotId (spots w)) as [s|] eqn:GS;
      [|apply NoReassignment_same; reflexivity].
    eapply REL; eauto; reflexivity.
Qed.

(** C2, as the code has it.  In every state reached from an initialized
    lot by check-ins, check-outs, allocations, and releases of spots that
    no active ticket refers to, each spot is held by at most one vehicle:
    distinct active tickets refer to distinct spots, and the spot of an
    active ticket is marked occupied, by the vehicle of that ticket.  No
    step whatever, a release of any spot included, hands an occupied spot
    to a second vehicle. *)
Theorem one_vehicle_per_spot localeCompare :
  (forall w, ReachablePermitted localeCompare w ->
     OneVehiclePerSpot w /\ Occupancy w) /\
  (forall w op, Reachable localeCompare w ->
     NoReassignment w (exec localeCompare op w)).
Proof.
  split.
  - intros w R. pose proof (ReachablePermitted_Occupancy localeCompare w R) as O.
    pose proof (Reachable_Inv localeCompare w
                  (ReachablePermitted_Reachable localeCompare w R)) as I.
    split; [split|exact O].
    + intros t1 t2 A1 A2 NE E. apply NE.
      now apply Occupancy_distinct with w.
    + intros t A. destruct (O t A) as [s [G [U _]]]. eauto.
  - intros w op R. apply NoReassignment_exec.
    now apply Reachable_Inv with localeCompare.
Qed.

(** ** Initialization *)

Lemma values_app_entries (m : JsMap.t string ParkingSpot.t) l :
  JsMap.values (m ++ entries l) = JsMap.values m ++ l.
Proof.
  unfold JsMap.values, entries. rewrite map_app, map_map. simpl.
  now rewrite map_id.
Qed.

Lemma numberOfId_newSpot spotType n :
  numberOfId (prefixOf spotType ++ String_of_nat n) = Some n.
Proof. destruct spotType; apply numberOfId_spotId. Qed.

Lemma addSpots_spots spotType floor count :
  forall c w,
    Below c (spots w) ->
    spots (snd (addSpots (prefixOf spotType) spotType floor count c w))
    = spots w ++ entries (newSpots spotType floor count c) /\
    Below (count + c)
      (spots (snd (addSpots (prefixOf spotType) spotType floor count c w))).
Proof.
  induction count as [|count IH]; intros c w B.
  - simpl. rewrite app_nil_r. auto.
  - pose (spot := ParkingSpot.new (prefixOf spotType ++ String_of_nat c)
                                  floor spotType).
    pose (w1 := with_spots (JsMap.set (ParkingSpot.id spot) spot) w).
    change (addSpots (prefixOf spotType) spotType floor (S count) c w)
      with (addSpots (prefixOf spotType) spotType floor count (S c) w1).
    change (newSpots spotType floor (S count) c)
      with (spot :: newSpots spotType floor count (S c)).
    assert (F : ~ In (ParkingSpot.id spot) (JsMap.keys (spots w))).
    { intros I. destruct (B _ I) as [n [E L]]. simpl in E.
      rewrite numberOfId_newSpot in E. inversion E. lia. }
    assert (S1 : spots w1 = spots w ++ entries [spot]).
    { simpl. now apply set_fresh. }
    assert (B1 : Below (S c) (spots w1)).
    { intros k I. rewrite S1 in I. unfold JsMap.keys in I.
      rewrite map_app, in_app_iff in I. destruct I as [I|[<-|[]]].
      - destruct (B _ I) as [n [E L]]. exists n. split; auto.
      - exists c. simpl. rewrite numberOfId_newSpot. auto. }
    destruct (IH (S c) w1 B1) as [E B2]. split.
    + rewrite E, S1. rewrite <- app_assoc. reflexivity.
    + replace (S count + c)%nat with (count + S c)%nat by lia. exact B2.
Qed.

Lemma addFloors_spots spotsPerFloor remaining :
  forall floor c w,
    Below c (spots w) ->
    spots (snd (addFloors spotsPerFloor remaining floor c w))
    = spots w ++ entries (floorSpots spotsPerFloor remaining floor c).
Proof.
  induction remaining as [|remaining IH]; intros floor c w B; simpl.
  - now rewrite app_nil_r.
  - unfold bind.
    pose proof (addSpots_returns "M" SpotType.MOTORCYCLE (Z.of_nat floor)
                  (spotsPerFloor SpotType.MOTORCYCLE) c w) as R1.
    destruct (addSpots_spots SpotType.MOTORCYCLE (Z.of_nat floor)
                (spotsPerFloor SpotType.MOTORCYCLE) c w B) as [E1 B1].
    simpl prefixOf in E1, B1.
    destruct (addSpots "M" _ _ _ c w) as [[c1|?] w1]; [|discriminate].
    simpl in R1, E1, B1. inversion R1; subst c1. clear R1.
    pose proof (addSpots_returns "C" SpotType.COMPACT (Z.of_nat floor)
                  (spotsPerFloor SpotType.COMPACT)
                  (spotsPerFloor SpotType.MOTORCYCLE + c) w1) as R2.
    destruct (addSpots_spots SpotType.COMPACT (Z.of_nat floor)
                (spotsPerFloor SpotType.COMPACT) _ w1 B1) as [E2 B2].
    simpl prefixOf in E2, B2.
    destruct (addSpots "C" _ _ _ _ w1) as [[c2|?] w2]; [|discriminate].
    simpl in R2, E2, B2. inversion R2; subst c2. clear R2.
    pose proof (addSpots_returns "L" SpotType.LARGE (Z.of_nat floor)
                  (spotsPerFloor SpotType.LARGE)
                  (spotsPerFloor SpotType.COMPACT
                   + (spotsPerFloor SpotType.MOTORCYCLE + c)) w2) as R3.
    destruct (addSpots_spots SpotType.LARGE (Z.of_nat floor)
                (spotsPerFloor SpotType.LARGE) _ w2 B2) as [E3 B3].
    simpl prefixOf in E3, B3.
    destruct (addSpots "L" _ _ _ _ w2) as [[c3|?] w3]; [|discriminate].
    simpl in R3, E3, B3. inversion R3; subst c3. clear R3.
    rewrite (IH _ _ w3 B3), E3, E2, E1.
    unfold entries. rewrite !map_app, <- !app_assoc. reflexivity.
Qed.

Lemma spots_initialized rates clock floors spotsPerFloor :
  JsMap.values (spots (initialized rates clock floors spotsPerFloor))
  = floorSpots spotsPerFloor floors 1 1.
Proof.
  unfold initialized, initializeParkingLot, bind.
  assert (B : Below 1 (spots (newService rates clock))) by (intros k []).
  pose proof (addFloors_spots spotsPerFloor floors 1%nat 1%nat
                (newService rates clock) B) as E.
  destruct (addFloors _ _ _ _ _) as [[c|e] w1]; simpl in *;
    rewrite E; apply (values_app_entries []).
Qed.

Lemma newSpots_length spotType floor count :
  forall c, List.length (newSpots spotType floor count c) = count.
Proof. induction count as [|count IH]; simpl; auto. Qed.

Lemma newSpots_In spotType floor count :
  forall c s, In s (newSpots spotType floor count c) ->
    ParkingSpot.floor s = floor /\ ParkingSpot.spotType s = spotType /\
    ParkingSpot.isAvailable s = true /\
    ParkingSpot.currentVehicleLicense s = None.
Proof.
  induction count as [|count IH]; simpl; [tauto|].
  intros c s [<-|I]; [simpl; auto|eauto].
Qed.

Lemma newSpots_NumberedFrom spotType floor count :
  forall c, NumberedFrom c (newSpots spotType floor count c).
Proof.
  induction count as [|count IH]; intros c n s; simpl.
  - destruct n; discriminate.
  - destruct n as [|n]; simpl.
    + intros E. inversion E. simpl. now rewrite Nat.add_0_r.
    + intros E. rewrite (IH (S c) n s E). f_equal. f_equal. lia.
Qed.

Lemma newSpots_class spotType floor count ty :
  forall c,
    List.length (filter (fun s => sameSpotType (ParkingSpot.spotType s) ty)
                        (newSpots spotType floor count c))
    = if sameSpotType spotType ty then count else 0%nat.
Proof.
  induction count as [|count IH]; intros c; simpl.
  - now destruct (sameSpotType spotType ty).
  - specialize (IH (S c)).
    destruct (sameSpotType spotType ty); simpl; auto.
Qed.

Lemma NumberedFrom_app c l1 c2 l2 :
  NumberedFrom c l1 -> c2 = (List.length l1 + c)%nat -> NumberedFrom c2 l2 ->
  NumberedFrom c (l1 ++ l2).
Proof.
  intros N1 -> N2 n s E.
  destruct (Nat.lt_ge_cases n (List.length l1)) as [L|L].
  - rewrite nth_error_app1 in E by assumption. now apply N1.
  - rewrite nth_error_app2 in E by assumption.
    rewrite (N2 _ _ E). f_equal. f_equal. lia.
Qed.

Lemma floorSpots_length spotsPerFloor remaining :
  forall floor c,
    List.length (floorSpots spotsPerFloor remaining floor c)
    = (remaining * (spotsPerFloor SpotType.MOTORCYCLE
                    + spotsPerFloor SpotType.COMPACT
                    + spotsPerFloor SpotType.LARGE))%nat.
Proof.
  induction remaining as [|remaining IH]; intros floor c; simpl; auto.
  rewrite !length_app, !newSpots_length, IH. lia.
Qed.

Lemma floorSpots_In spotsPerFloor remaining :
  forall floor c s, In s (floorSpots spotsPerFloor remaining floor c) ->
    Z.of_nat floor <= ParkingSpot.floor s < Z.of_nat (floor + remaining) /\
    ParkingSpot.isAvailable s = true /\
    ParkingSpot.currentVehicleLicense s = None.
Proof.
  induction remaining as [|remaining IH]; intros floor c s; simpl; [tauto|].
  rewrite !in_app_iff. intros [I|[I|[I|I]]];
    try (apply newSpots_In in I; destruct I as [F [_ [A L]]];
         repeat split; auto; lia).
  destruct (IH _ _ _ I) as [F [A L]]. repeat split; auto; lia.
Qed.

Lemma floorSpots_class spotsPerFloor remaining ty :
  forall floor c,
    List.length (filter (fun s => sameSpotType (ParkingSpot.spotType s) ty)
                        (floorSpots spotsPerFloor remaining floor c))
    = (remaining * spotsPerFloor ty)%nat.
Proof.
  induction remaining as [|remaining IH]; intros floor c; simpl; auto.
  rewrite !filter_app, !length_app, !newSpots_class, IH.
  destruct ty; simpl; lia.
Qed.

Lemma floorSpots_NumberedFrom spotsPerFloor remaining :
  forall floor c, NumberedFrom c (floorSpots spotsPerFloor remaining floor c).
Proof.
  induction remaining as [|remaining IH]; intros floor c; simpl.
  - intros [|n] s; discriminate.
  - repeat (eapply NumberedFrom_app;
            [apply newSpots_NumberedFrom
            |rewrite newSpots_length; reflexivity|]).
    apply IH.
Qed.

Lemma addAll_app l1 l2 m : addAll (l1 ++ l2) m = addAll l2 (addAll l1 m).
Proof. apply fold_left_app. Qed.

Lemma addSpots_addAll spotType floor count :
  forall c w,
    spots (snd (addSpots (prefixOf spotType) spotType floor count c w))
    = addAll (newSpots spotType floor count c) (spots w).
Proof.
  induction count as [|count IH]; intros c w; [reflexivity|].
  change (addSpots (prefixOf spotType) spotType floor (S count) c w)
    with (addSpots (prefixOf spotType) spotType floor count (S c)
            (snd (addSpot (ParkingSpot.new
                             (prefixOf spotType ++ String_of_nat c)
                             floor spotType) w))).
  now rewrite IH.
Qed.

Lemma addFloors_addAll spotsPerFloor remaining :
  forall floor c w,
    (exists c', fst (addFloors spotsPerFloor remaining floor c w) = Return c')
    /\ spots (snd (addFloors spotsPerFloor remaining floor c w))
       = addAll (floorSpots spotsPerFloor remaining floor c) (spots w).
Proof.
  induction remaining as [|remaining IH]; intros floor c w; simpl.
  - split; [now exists c|reflexivity].
  - unfold bind.
    pose proof (addSpots_returns "M" SpotType.MOTORCYCLE (Z.of_nat floor)
                  (spotsPerFloor SpotType.MOTORCYCLE) c w) as R1.
    pose proof (addSpots_addAll SpotType.MOTORCYCLE (Z.of_nat floor)
                  (spotsPerFloor SpotType.MOTORCYCLE) c w) as E1.
    simpl prefixOf in E1.
    destruct (addSpots "M" _ _ _ c w) as [[c1|?] w1]; [|discriminate].
    simpl in R1, E1. inversion R1; subst c1. clear R1.
    pose proof (addSpots_returns "C" SpotType.COMPACT (Z.of_nat floor)
                  (spotsPerFloor SpotType.COMPACT)
                  (spotsPerFloor SpotType.MOTORCYCLE + c) w1) as R2.
    pose proof (addSpots_addAll SpotType.COMPACT (Z.of_nat floor)
                  (spotsPerFloor SpotType.COMPACT)
                  (spotsPerFloor SpotType.MOTORCYCLE + c) w1) as E2.
    simpl prefixOf in E2.
    destruct (addSpots "C" _ _ _ _ w1) as [[c2|?] w2]; [|discriminate].
    simpl in R2, E2. inversion R2; subst c2. clear R2.
    pose proof (addSpots_returns "L" SpotType.LARGE (Z.of_nat floor)
                  (spotsPerFloor SpotType.LARGE)
                  (spotsPerFloor SpotType.COMPACT
                   + (spotsPerFloor SpotType.MOTORCYCLE + c)) w2) as R3.
    pose proof (addSpots_addAll SpotType.LARGE (Z.of_nat floor)
                  (spotsPerFloor SpotType.LARGE)
                  (spotsPerFloor SpotType.COMPACT
                   + (spotsPerFloor SpotType.MOTORCYCLE + c)) w2) as E3.
    simpl prefixOf in E3.
    destruct (addSpots "L" _ _ _ _ w2) as [[c3|?] w3]; [|discriminate].
    simpl in R3, E3. inversion R3; subst c3. clear R3.
    destruct (IH (S floor)
                (spotsPerFloor SpotType.LARGE
                 + (spotsPerFloor SpotType.COMPACT
                    + (spotsPerFloor SpotType.MOTORCYCLE + c)))%nat w3)
      as [RR EE].
    split; [exact RR|].
    rewrite EE, E3, E2, E1, !addAll_app. reflexivity.
Qed.

Lemma get_addAll_other l :
  forall m k, ~ In k (map ParkingSpot.id l) ->
              JsMap.get k (addAll l m) = JsMap.get k m.
Proof.
  induction l as [|x l IH]; intros m k N; simpl; auto.
  rewrite IH by (simpl in N; tauto).
  apply get_set_other. simpl in N. intros ->. tauto.
Qed.

Lemma get_addAll l :
  forall m s, NoDup (map ParkingSpot.id l) -> In s l ->
              JsMap.get (ParkingSpot.id s) (addAll l m) = Some s.
Proof.
  induction l as [|x l IH]; intros m s ND I; [destruct I|].
  simpl in ND. inversion ND as [|? ? NI ND']; subst.
  destruct I as [->|I]; simpl.
  - rewrite get_addAll_other by assumption. apply get_set_same.
  - now apply IH.
Qed.

Lemma NumberedFrom_NoDup c l :
  NumberedFrom c l -> NoDup (map ParkingSpot.id l).
Proof.
  intros N. apply NoDup_nth_error. intros i j L E.
  rewrite length_map in L. rewrite !nth_error_map in E.
  destruct (nth_error l i) as [si|] eqn:Ei;
    [|apply nth_error_None in Ei; lia].
  destruct (nth_error l j) as [sj|] eqn:Ej; [|discriminate].
  simpl in E. inversion E as [E'].
  rewrite (N _ _ Ei), (N _ _ Ej) in E'.
  apply (f_equal numberOfId) in E'.
  rewrite !numberOfId_newSpot in E'. inversion E'. lia.
Qed.

(** C9, as the code has it.  [initialize] creates exactly floorCount times
    the sum of the per-class counts spots, each on a floor between 1 and
    floorCount, available, and of the class it was declared with,
    floorCount times the count of the class for each class, and inserts
    every one of them into the store; on a fresh store they are its whole
    content, in the order of creation.  The identifiers carry the letter
    of the class and the value of one running counter, shared by all
    classes and floors, that starts at 1. *)
Theorem initializeParkingLot_spec floors spotsPerFloor w0 :
  let w := snd (initializeParkingLot floors spotsPerFloor w0) in
  let created := floorSpots spotsPerFloor floors 1 1 in
  fst (initializeParkingLot floors spotsPerFloor w0) = Return tt /\
  spots w = addAll created (spots w0) /\
  List.length created
  = (floors * (spotsPerFloor SpotType.MOTORCYCLE
               + spotsPerFloor SpotType.COMPACT
               + spotsPerFloor SpotType.LARGE))%nat /\
  (forall s, In s created ->
     1 <= ParkingSpot.floor s <= Z.of_nat floors /\
     ParkingSpot.isAvailable s = true /\
     ParkingSpot.currentVehicleLicense s = None) /\
  (forall ty,
     List.length (filter (fun s => sameSpotType (ParkingSpot.spotType s) ty)
                         created)
     = (floors * spotsPerFloor ty)%nat) /\
  NumberedFrom 1 created /\
  (forall s, In s created -> JsMap.get (ParkingSpot.id s) (spots w) = Some s)
  /\
  (spots w0 = JsMap.empty ->
   JsMap.values (spots w) = created /\
   JsMap.size (spots w) = List.length created).
Proof.
  intros w created.
  destruct (addFloors_addAll spotsPerFloor floors 1%nat 1%nat w0)
    as [[c' R] E].
  assert (EW : spots w = addAll created (spots w0)).
  { unfold w, initializeParkingLot, bind.
    destruct (addFloors _ _ _ _ w0) as [[c|e] w1]; exact E. }
  assert (N : NumberedFrom 1 created) by apply floorSpots_NumberedFrom.
  split; [|split; [exact EW|split; [|split; [|split; [|split; [|split]]]]]].
  - unfold initializeParkingLot, bind.
    destruct (addFloors _ _ _ _ w0) as [[c|e] w1]; [reflexivity|].
    discriminate R.
  - apply floorSpots_length.
  - intros s I. apply floorSpots_In in I.
    destruct I as [F [A L]]. repeat split; auto; lia.
  - intros ty. apply floorSpots_class.
  - exact N.
  - intros s I. rewrite EW. apply get_addAll; auto.
    now apply NumberedFrom_NoDup with 1%nat.
  - intros E0.
    assert (B : Below 1 (spots w0)) by (rewrite E0; intros k []).
    pose proof (addFloors_spots spotsPerFloor floors 1%nat 1%nat w0 B) as EA.
    assert (V : JsMap.values (spots w) = created).
    { unfold w, initializeParkingLot, bind.
      destruct (addFloors _ _ _ _ w0) as [[c|e] w1]; simpl in *;
        rewrite EA, E0; apply (values_app_entries []). }
    split; [exact V|].
    unfold JsMap.size. rewrite <- V. symmetry. apply length_map.
Qed.

(** * Properties of the rest of the services *)

(** ** [hasAvailableSpot] *)

Lemma hasAvailableSpot_unfold vt w :
  hasAvailableSpot vt w =
  (Return (existsb (fun spot => ParkingSpot.canFit spot vt)
             (filter ParkingSpot.isAvailable (JsMap.values (spots w)))), w).
Proof. reflexivity. Qed.

Lemma canFit_rank s vt :
  ParkingSpot.canFit s vt = true <->
  (vehicleRank vt <= spotRank (ParkingSpot.spotType s))%nat.
Proof.
  unfold ParkingSpot.canFit.
  destruct (ParkingSpot.spotType s), vt; simpl; split; intros H;
    try reflexivity; try discriminate; try lia.
Qed.

Lemma hasAvailableSpot_Candidate vt w :
  fst (hasAvailableSpot vt w) = Return true <-> exists s, Candidate vt w s.
Proof.
  rewrite hasAvailableSpot_unfold. simpl. split.
  - intros E. inversion E as [X]. apply existsb_exists in X.
    destruct X as [s [I F]]. exists s. apply Candidate_filter.
    rewrite filter_In. auto.
  - intros [s C]. apply Candidate_filter in C. rewrite filter_In in C.
    f_equal. apply existsb_exists. exists s. tauto.
Qed.

(** X1. [hasAvailableSpot] changes nothing and answers what [allocateSpot]
    would do: it returns true exactly when an allocation for the same
    vehicle type would return a spot, false exactly when it would return
    none; for a vehicle that is not parked, false is exactly when a
    check-in would return none. *)
Theorem hasAvailableSpot_agrees_with_allocateSpot localeCompare vt lic w :
  snd (hasAvailableSpot vt w) = w /\
  (fst (hasAvailableSpot vt w) = Return true <->
   exists s, fst (allocateSpot localeCompare vt lic w) = Return (Some s)) /\
  (fst (hasAvailableSpot vt w) = Return false <->
   fst (allocateSpot localeCompare vt lic w) = Return None) /\
  (forall vehicle,
     activeTicketOf (Vehicle.licensePlate vehicle) w = None ->
     (fst (hasAvailableSpot (Vehicle.type vehicle) w) = Return false <->
      fst (checkInVehicle localeCompare vehicle w) = Return None)).
Proof.
  assert (KEY : forall vt' lic',
            (fst (hasAvailableSpot vt' w) = Return true <->
             exists s, fst (allocateSpot localeCompare vt' lic' w)
                       = Return (Some s)) /\
            (fst (hasAvailableSpot vt' w) = Return false <->
             fst (allocateSpot localeCompare vt' lic' w) = Return None)).
  { intros vt' lic'.
    pose proof (hasAvailableSpot_Candidate vt' w) as HC.
    rewrite hasAvailableSpot_unfold in *. cbn [fst] in *.
    set (b := existsb _ _) in *.
    destruct (allocateSpot_cases localeCompare vt' lic' w)
      as [E|[sel [I [A [F E]]]]]; rewrite E; cbn [fst].
    - assert (NC : ~ exists s, Candidate vt' w s).
      { intros [s C]. apply Candidate_filter in C.
        rewrite allocateSpot_unfold in E.
        destruct (sort _ _) as [|x r] eqn:S; [|discriminate].
        apply sort_nil_inv in S. rewrite S in C. destruct C. }
      destruct b.
      + exfalso. apply NC. now apply HC.
      + split; split; intros H; try reflexivity; try discriminate.
        destruct H; discriminate.
    - assert (C : exists s, Candidate vt' w s).
      { exists sel. apply Candidate_filter. rewrite !filter_In. auto. }
      apply HC in C. rewrite C.
      split; split; intros H; try reflexivity; try discriminate; eauto. }
  split; [reflexivity|]. split; [apply KEY|]. split; [apply KEY|].
  intros vehicle NA. rewrite checkInVehicle_unfold, NA.
  destruct (KEY (Vehicle.type vehicle) (Vehicle.licensePlate vehicle))
    as [_ K]. rewrite K.
  destruct (allocateSpot localeCompare (Vehicle.type vehicle)
              (Vehicle.licensePlate vehicle) w) as [[[s|]|e] w1]; simpl;
    split; intros H; try reflexivity; discriminate.
Qed.

(** X2. Capacity for a larger vehicle is capacity for a smaller one: when
    [hasAvailableSpot] is true for a vehicle type it is true for every
    type that is not larger, since [canFit] holds exactly when the size of
    the vehicle does not exceed the size of the spot. *)
Theorem hasAvailableSpot_monotone vt vt' w :
  (vehicleRank vt' <= vehicleRank vt)%nat ->
  fst (hasAvailableSpot vt w) = Return true ->
  fst (hasAvailableSpot vt' w) = Return true.
Proof.
  intros LE H. apply hasAvailableSpot_Candidate in H.
  apply hasAvailableSpot_Candidate. destruct H as [s [I [A F]]].
  exists s. split; [exact I|split; [exact A|]].
  apply canFit_Fits. apply canFit_Fits in F.
  apply canFit_rank. apply canFit_rank in F. lia.
Qed.

(** ** [FeeCalculator]: the rate table *)

Lemma get_fold_rates vt l :
  forall m,
    JsMap.get vt (fold_left (fun m rate => JsMap.set (vehicleType rate) rate m)
                            l m)
    = match lastRateFor vt l with
      | Some rate => Some rate
      | None => JsMap.get vt m
      end.
Proof.
  unfold lastRateFor.
  induction l as [|x l IH] using rev_ind; intros m; [reflexivity|].
  rewrite fold_left_app, rev_app_distr. simpl.
  rewrite get_set.
  destruct (eq_dec vt (vehicleType x)) as [E|N].
  - destruct (eq_dec (vehicleType x) vt); [reflexivity|congruence].
  - destruct (eq_dec (vehicleType x) vt); [congruence|]. apply IH.
Qed.

(** X3. A fee calculator built from a list of rates holds, for each
    vehicle type, the last rate of the list for that type, and none for a
    type the list leaves out; built without a list it holds the three
    default rates.  A rate it returns for a type is a rate of that type. *)
Theorem FeeCalculator_new_last_wins :
  (forall l vt,
     JsMap.get vt (FeeCalculator_new (Some l)) = lastRateFor vt l) /\
  (forall vt, JsMap.get vt (FeeCalculator_new None)
              = lastRateFor vt defaultRates) /\
  (forall rates vt rate,
     JsMap.get vt (FeeCalculator_new rates) = Some rate ->
     vehicleType rate = vt) /\
  (forall l vt,
     JsMap.get vt (FeeCalculator_new (Some l)) = None <->
     forall rate, In rate l -> vehicleType rate <> vt).
Proof.
  assert (K : forall l vt,
            JsMap.get vt (FeeCalculator_new (Some l)) = lastRateFor vt l).
  { intros l vt. unfold FeeCalculator_new. rewrite get_fold_rates.
    now destruct (lastRateFor vt l). }
  split; [exact K|]. split; [intros vt; apply (K defaultRates)|]. split.
  - intros rates vt rate G.
    assert (G' : lastRateFor vt (match rates with
                                 | Some l => l
                                 | None => defaultRates
                                 end) = Some rate)
      by (destruct rates; rewrite <- G; symmetry; apply K).
    unfold lastRateFor in G'. apply find_some in G'. destruct G' as [_ G'].
    now destruct (eq_dec (vehicleType rate) vt).
  - intros l vt. rewrite K. unfold lastRateFor. split.
    + intros F rate I E. apply in_rev in I.
      pose proof (find_none _ _ F rate I) as X. simpl in X.
      destruct (eq_dec (vehicleType rate) vt); congruence.
    + intros NO. destruct (find _ (rev l)) as [rate|] eqn:F; auto.
      apply find_some in F. destruct F as [I F]. exfalso.
      apply (NO rate); [now apply in_rev|].
      now destruct (eq_dec (vehicleType rate) vt).
Qed.

Lemma rates_addSpots prefix spotType floor count :
  forall c w, rates (snd (addSpots prefix spotType floor count c w))
              = rates w.
Proof.
  induction count as [|count IH]; simpl; auto.
  intros c w. unfold bind. simpl. now rewrite IH.
Qed.

Lemma rates_addFloors spotsPerFloor remaining :
  forall floor c w,
    rates (snd (addFloors spotsPerFloor remaining floor c w)) = rates w.
Proof.
  induction remaining as [|remaining IH]; simpl; auto.
  intros floor c w. unfold bind.
  repeat match goal with
  | |- context [addSpots ?p ?t ?f ?n ?c ?w] =>
      pose proof (rates_addSpots p t f n c w);
      pose proof (addSpots_returns p t f n c w);
      destruct (addSpots p t f n c w) as [[?|?] ?]; simpl in *;
      [|discriminate]
  end.
  rewrite IH. congruence.
Qed.

Lemma rates_initialized rates0 clock floors spotsPerFloor :
  rates (initialized rates0 clock floors spotsPerFloor)
  = FeeCalculator_new rates0.
Proof.
  unfold initialized, initializeParkingLot, bind.
  pose proof (rates_addFloors spotsPerFloor floors 1%nat 1%nat
                (newService rates0 clock)) as T.
  destruct (addFloors _ _ _ _ _) as [[c|e] w1]; exact T.
Qed.

Lemma rates_run localeCompare ops :
  forall w, rates (run localeCompare ops w) = rates w.
Proof.
  unfold run. induction ops as [|op ops IH]; simpl; auto.
  intros w. rewrite IH. apply rates_exec.
Qed.

(** X4. [setRate] touches the rate table only, and [getRate] reads it
    back: after [setRate(rate)] the rate of that vehicle type is [rate]
    and the rate of every other type is as before; a fee for that type is
    then computed for every duration, without a throw, and it is the base
    fee of [rate] for a stay within the first hour. *)
Theorem setRate_getRate rate w :
  fst (setRate rate w) = Return tt /\
  spots (snd (setRate rate w)) = spots w /\
  tickets (snd (setRate rate w)) = tickets w /\
  activeTicketsByVehicle (snd (setRate rate w)) = activeTicketsByVehicle w /\
  ticketCounter (snd (setRate rate w)) = ticketCounter w /\
  getRate (vehicleType rate) (snd (setRate rate w))
    = (Return (Some rate), snd (setRate rate w)) /\
  (forall vt, vt <> vehicleType rate ->
     fst (getRate vt (snd (setRate rate w))) = fst (getRate vt w)) /\
  (forall d, exists fee,
     calculateFee (vehicleType rate) d (snd (setRate rate w))
     = (Return fee, snd (setRate rate w))) /\
  (forall d, Qceiling d <= 1 ->
     calculateFee (vehicleType rate) d (snd (setRate rate w))
     = (Return (baseFee rate), snd (setRate rate w))).
Proof.
  unfold setRate, getRate, modify, gets. simpl.
  repeat split.
  - now rewrite get_set_same.
  - intros vt N. now rewrite get_set_other.
  - intros d. rewrite calculateFee_unfold. simpl. rewrite get_set_same.
    eexists. reflexivity.
  - intros d H. rewrite calculateFee_unfold. simpl. rewrite get_set_same.
    apply Z.leb_le in H. now rewrite H.
Qed.

(** X5. On a lot built with the default rates, whatever check-ins,
    check-outs, allocations and releases follow, a fee is computed for
    every vehicle type and every duration: [calculateFee] never throws,
    and so a check-out never fails for want of a rate. *)
Theorem default_rates_price_everything localeCompare clock floors
    spotsPerFloor ops vt d :
  let w := run localeCompare ops
             (initialized None clock floors spotsPerFloor) in
  (exists rate,
     JsMap.get vt (rates w) = Some rate /\
     calculateFee vt d w = (Return (feeUnder rate d), w)) /\
  (forall plate, fst (checkOutVehicle plate w) <> Throw (NoRateFound vt)).
Proof.
  intros w.
  assert (R : rates w = FeeCalculator_new None)
    by (unfold w; rewrite rates_run; apply rates_initialized).
  assert (G : forall vt', exists rate,
            JsMap.get vt' (rates w) = Some rate).
  { intros vt'. rewrite R. destruct vt'; eexists; reflexivity. }
  split.
  - destruct (G vt) as [rate E]. exists rate. split; [exact E|].
    rewrite calculateFee_unfold, E. reflexivity.
  - intros plate. rewrite checkOutVehicle_unfold.
    destruct (activeTicketOf plate w) as [t|]; [|discriminate].
    destruct (G (Vehicle.type (ParkingTicket.vehicle t))) as [rate E].
    rewrite E.
    destruct (ParkingTicket.exitTime t); [discriminate|].
    destruct (JsMap.get _ (spots w)); discriminate.
Qed.

(** ** [calculateFee] and [getDuration]: what a stay costs *)

Lemma feeUnder_base rate d :
  (0 <= hourlyRate rate)%Q -> (baseFee rate <= feeUnder rate d)%Q.
Proof.
  intros H. unfold feeUnder.
  destruct (Z.leb_spec (Qceiling d) 1) as [L|L]; [apply Qle_refl|].
  rewrite <- (Qplus_0_r (baseFee rate)) at 1.
  apply Qplus_le_r. apply Qmult_le_0_compat; [|exact H].
  change 0%Q with (inject_Z 0). rewrite <- Zle_Qle. lia.
Qed.

Lemma feeUnder_monotone rate d1 d2 :
  (0 <= hourlyRate rate)%Q -> (d1 <= d2)%Q ->
  (feeUnder rate d1 <= feeUnder rate d2)%Q.
Proof.
  intros H LE. pose proof (Qceiling_resp_le _ _ LE) as C.
  unfold feeUnder.
  destruct (Z.leb_spec (Qceiling d1) 1) as [L1|L1];
    destruct (Z.leb_spec (Qceiling d2) 1) as [L2|L2]; try lia.
  - apply Qle_refl.
  - rewrite <- (Qplus_0_r (baseFee rate)) at 1.
    apply Qplus_le_r. apply Qmult_le_0_compat; [|exact H].
    change 0%Q with (inject_Z 0). rewrite <- Zle_Qle. lia.
  - apply Qplus_le_r. apply Qmult_le_compat_r; [|exact H].
    rewrite <- Zle_Qle. lia.
Qed.

(** X6. With a hourly rate that is not negative, a longer stay never
    costs less: the fee grows with the duration, and it is never below the
    base fee of the vehicle type. *)
Theorem calculateFee_monotone vt w rate d1 d2 :
  JsMap.get vt (rates w) = Some rate ->
  (0 <= hourlyRate rate)%Q ->
  (d1 <= d2)%Q ->
  exists fee1 fee2,
    calculateFee vt d1 w = (Return fee1, w) /\
    calculateFee vt d2 w = (Return fee2, w) /\
    (baseFee rate <= fee1)%Q /\ (fee1 <= fee2)%Q.
Proof.
  intros G H LE. exists (feeUnder rate d1), (feeUnder rate d2).
  rewrite !calculateFee_unfold, G.
  repeat split; try reflexivity.
  - now apply feeUnder_base.
  - now apply feeUnder_monotone.
Qed.

Lemma hoursUntil_CeilingHours t e h :
  CeilingHours (ParkingTicket.hoursUntil e t) h <->
  (h - 1) * 3600000 < e - ParkingTicket.entryTime t <= h * 3600000.
Proof.
  unfold CeilingHours, ParkingTicket.hoursUntil, Qlt, Qle, Qdiv, Qmult, Qinv.
  simpl. lia.
Qed.

(** X7. A stay is charged by the started hour, counted in milliseconds
    between entry and the end of the stay.  A stay of more than [h - 1]
    and at most [h] hours (an hour is 3,600,000 ms) costs what a stay of
    exactly [h] hours costs, and the base fee when [h] is at most one; so
    a full hour is not rounded up and one millisecond more is. *)
Theorem fee_by_started_hour vt w rate ticket endTime h :
  JsMap.get vt (rates w) = Some rate ->
  (h - 1) * 3600000 < endTime - ParkingTicket.entryTime ticket
                    <= h * 3600000 ->
  calculateFee vt (ParkingTicket.hoursUntil endTime ticket) w
  = calculateFee vt (inject_Z h) w /\
  (h <= 1 ->
   calculateFee vt (ParkingTicket.hoursUntil endTime ticket) w
   = (Return (baseFee rate), w)) /\
  (1 < h ->
   forall endTime',
     (h - 1) * 3600000 < endTime' - ParkingTicket.entryTime ticket
                       <= h * 3600000 ->
     calculateFee vt (ParkingTicket.hoursUntil endTime' ticket) w
     = calculateFee vt (ParkingTicket.hoursUntil endTime ticket) w).
Proof.
  intros G B. apply hoursUntil_CeilingHours in B.
  apply CeilingHours_unique in B.
  assert (K : forall d, h = Qceiling d ->
            calculateFee vt d w = calculateFee vt (inject_Z h) w).
  { intros d E. rewrite !calculateFee_unfold, G, Qceiling_Z, <- E.
    reflexivity. }
  split; [now apply K|]. split.
  - intros I. rewrite calculateFee_unfold, G, <- B.
    apply Z.leb_le in I. now rewrite I.
  - intros _ endTime' B'. apply hoursUntil_CeilingHours in B'.
    apply CeilingHours_unique in B'.
    rewrite (K _ B), (K _ B'). reflexivity.
Qed.

(** ** The effect of one operation *)

Lemma exec_Effect localeCompare op w :
  Inv w -> Effect w (exec localeCompare op w).
Proof.
  intros I. destruct op as [vehicle|plate|vt lic|spotId]; simpl.
  - rewrite checkInVehicle_unfold.
    destruct (activeTicketOf (Vehicle.licensePlate vehicle) w) as [t0|] eqn:NA;
      [now apply Effect_none|].
    destruct (allocateSpot_cases localeCompare (Vehicle.type vehicle)
                (Vehicle.licensePlate vehicle) w)
      as [E|[sel [Isel [Av [Fv E]]]]]; rewrite E; cbv beta iota;
      [now apply Effect_none|].
    now apply Effect_checkIn with sel vehicle.
  - rewrite checkOutVehicle_unfold.
    destruct (activeTicketOf plate w) as [t|] eqn:AT;
      [|now apply Effect_none].
    destruct (activeTicketOf_Some w plate t I AT) as [GI [G [P A]]].
    pose proof A as A'. unfold ParkingTicket.isActive in A'.
    destruct (ParkingTicket.exitTime t); [discriminate|].
    destruct (JsMap.get (Vehicle.type (ParkingTicket.vehicle t)) (rates w))
      as [rate|] eqn:GR; [|now apply Effect_none].
    pose proof (inv_ticket_spot w I _ _ G) as GS.
    destruct (JsMap.get (ParkingTicket.spot t) (spots w)) as [s|] eqn:GS';
      [|congruence].
    apply Effect_checkOut with t rate s; auto.
    + now split.
    + now rewrite P.
  - destruct (allocateSpot_cases localeCompare vt lic w)
      as [E|[sel [Isel [Av [Fv E]]]]]; rewrite E;
      [now apply Effect_none|].
    now apply Effect_allocate with sel lic.
  - rewrite releaseSpot_unfold.
    destruct (JsMap.get spotId (spots w)) as [s|] eqn:GS;
      [|now apply Effect_none].
    now apply Effect_release with spotId s.
Qed.

(** ** More facts on [JsMap] *)

Section MoreJsMapFacts.
Context {K V : Type} `{EqDec K}.
Implicit Types (m : JsMap.t K V) (k : K) (v : V).

Lemma get_Some_keys k v m : JsMap.get k m = Some v -> In k (JsMap.keys m).
Proof.
  intros G. apply get_In in G. change k with (fst (k, v)).
  now apply in_map.
Qed.

Lemma get_None_keys k m : ~ In k (JsMap.keys m) -> JsMap.get k m = None.
Proof.
  intros N. destruct (JsMap.get k m) as [v|] eqn:G; [|reflexivity].
  destruct N. now apply get_Some_keys with v.
Qed.

Lemma keys_set_present k v m :
  In k (JsMap.keys m) -> JsMap.keys (JsMap.set k v m) = JsMap.keys m.
Proof.
  induction m as [|[k' v'] m IH]; simpl; [tauto|].
  destruct (eq_dec k k') as [E|E]; simpl.
  - congruence.
  - intros [F|I]; [congruence|]. f_equal. auto.
Qed.

Lemma size_keys m : JsMap.size m = List.length (JsMap.keys m).
Proof. unfold JsMap.size, JsMap.keys. symmetry. apply length_map. Qed.

Lemma set_same k v m : JsMap.get k m = Some v -> JsMap.set k v m = m.
Proof.
  induction m as [|[k' v'] m IH]; simpl; [discriminate|].
  destruct (eq_dec k k') as [E|E].
  - intros G. congruence.
  - intros G. f_equal. auto.
Qed.

Lemma set_set k v v' m :
  JsMap.set k v' (JsMap.set k v m) = JsMap.set k v' m.
Proof.
  induction m as [|[k0 v0] m IH]; simpl.
  - destruct (eq_dec k k); congruence.
  - destruct (eq_dec k k0) as [E|E]; simpl.
    + destruct (eq_dec k k); congruence.
    + destruct (eq_dec k k0); congruence.
Qed.

Lemma delete_absent k m : ~ In k (JsMap.keys m) -> JsMap.delete k m = m.
Proof.
  induction m as [|[k' v'] m IH]; simpl; auto.
  intros N. destruct (eq_dec k k') as [E|E].
  - exfalso. apply N. left. congruence.
  - f_equal. apply IH. tauto.
Qed.

Lemma delete_set_fresh k v m :
  ~ In k (JsMap.keys m) -> JsMap.delete k (JsMap.set k v m) = m.
Proof.
  induction m as [|[k' v'] m IH]; simpl.
  - intros _. destruct (eq_dec k k); congruence.
  - intros N. destruct (eq_dec k k') as [E|E].
    + exfalso. apply N. left. congruence.
    + simpl. destruct (eq_dec k k'); [congruence|]. f_equal.
      apply IH. tauto.
Qed.

Lemma In_keys_delete k k' m :
  In k' (JsMap.keys (JsMap.delete k m)) <-> k' <> k /\ In k' (JsMap.keys m).
Proof.
  induction m as [|[k0 v0] m IH]; simpl.
  - tauto.
  - destruct (eq_dec k k0) as [E|E]; simpl.
    + subst k0. rewrite IH. intuition congruence.
    + rewrite IH. intuition congruence.
Qed.

Lemma wf_delete k m : JsMap.wf m -> JsMap.wf (JsMap.delete k m).
Proof.
  unfold JsMap.wf. induction m as [|[k0 v0] m IH]; simpl; intros ND; auto.
  inversion ND as [|? ? NI ND']; subst.
  destruct (eq_dec k k0) as [E|E]; simpl; auto.
  constructor; [|auto].
  fold (JsMap.keys (JsMap.delete k m)). rewrite In_keys_delete. tauto.
Qed.

Lemma keys_get_Some k m :
  In k (JsMap.keys m) -> exists v, JsMap.get k m = Some v.
Proof.
  intros I. destruct (JsMap.get k m) as [v|] eqn:G; [eauto|].
  exfalso. induction m as [|[k0 v0] m IH]; simpl in *; [tauto|].
  destruct (eq_dec k k0) as [E|E]; [discriminate|].
  destruct I as [I|I]; [congruence|auto].
Qed.

Lemma get_values k v m : JsMap.get k m = Some v -> In v (JsMap.values m).
Proof.
  intros G. apply get_In in G. unfold JsMap.values.
  change v with (snd (k, v)). now apply in_map.
Qed.

Lemma values_get v m :
  JsMap.wf m -> In v (JsMap.values m) -> exists k, JsMap.get k m = Some v.
Proof.
  intros W I. destruct (In_values_get v m I) as [k Ik].
  exists k. now apply In_get.
Qed.

Lemma map_values_set {B : Type} (f : V -> B) k v v0 m :
  JsMap.get k m = Some v0 -> f v = f v0 ->
  map f (JsMap.values (JsMap.set k v m)) = map f (JsMap.values m).
Proof.
  intros G E. induction m as [|[k0 v1] m IH]; simpl in *; [discriminate|].
  destruct (eq_dec k k0) as [E0|E0]; simpl.
  - assert (v1 = v0) by congruence. subst v1. now rewrite E.
  - f_equal. auto.
Qed.

Lemma count_set_present (P : V -> bool) k v v0 m :
  JsMap.get k m = Some v0 ->
  (List.length (filter P (JsMap.values (JsMap.set k v m)))
   + (if P v0 then 1 else 0))%nat
  = (List.length (filter P (JsMap.values m)) + (if P v then 1 else 0))%nat.
Proof.
  intros G. induction m as [|[k0 v1] m IH]; simpl in *; [discriminate|].
  destruct (eq_dec k k0) as [E0|E0]; simpl.
  - assert (v1 = v0) by congruence. subst v1.
    destruct (P v), (P v0); simpl; lia.
  - specialize (IH G). destruct (P v1); simpl; lia.
Qed.

End MoreJsMapFacts.

(** ** More of what every run keeps *)

Lemma addSpots_only_spots prefix spotType floor count :
  forall c w,
    snd (addSpots prefix spotType floor count c w)
    = with_spots
        (fun _ => spots (snd (addSpots prefix spotType floor count c w))) w.
Proof.
  induction count as [|count IH]; intros c w.
  - destruct w; reflexivity.
  - change (addSpots prefix spotType floor (S count) c w)
      with (addSpots prefix spotType floor count (S c)
              (snd (addSpot (ParkingSpot.new
                               (prefix ++ String_of_nat c) floor spotType)
                            w))).
    rewrite IH at 1. reflexivity.
Qed.

Lemma addFloors_only_spots spotsPerFloor remaining :
  forall floor c w,
    snd (addFloors spotsPerFloor remaining floor c w)
    = with_spots
        (fun _ => spots (snd (addFloors spotsPerFloor remaining floor c w)))
        w.
Proof.
  induction remaining as [|remaining IH]; intros floor c w.
  - destruct w; reflexivity.
  - simpl. unfold bind.
    repeat match goal with
    | |- context [addSpots ?p ?t ?f ?n ?c ?w] =>
        let E := fresh "E" in
        pose proof (addSpots_only_spots p t f n c w) as E;
        pose proof (addSpots_returns p t f n c w);
        destruct (addSpots p t f n c w) as [[?|?] ?]; simpl in *;
        [|discriminate]
    end.
    rewrite IH at 1.
    generalize (spots (snd (addFloors spotsPerFloor remaining (S floor)
                              a1 w2))).
    intros X.
    match goal with
    | E1 : w2 = _, E0 : w1 = _, E : w0 = _ |- _ => rewrite E1, E0, E
    end.
    reflexivity.
Qed.

Lemma initialized_only_spots rates clock floors spotsPerFloor :
  initialized rates clock floors spotsPerFloor
  = with_spots
      (fun _ => spots (initialized rates clock floors spotsPerFloor))
      (newService rates clock).
Proof.
  unfold initialized, initializeParkingLot, bind.
  pose proof (addFloors_only_spots spotsPerFloor floors 1%nat 1%nat
                (newService rates clock)) as E.
  destruct (addFloors _ _ _ _ _) as [[c|e] w1]; exact E.
Qed.

Lemma NoDup_ticketIds n : NoDup (map ticketIdOf (seq 1 n)).
Proof.
  apply Finite.Injective_map_NoDup; [|apply seq_NoDup].
  intros x y. apply ticketIdOf_inj.
Qed.

Lemma Tidy_initialized rates clock floors spotsPerFloor :
  Tidy (initialized rates clock floors spotsPerFloor).
Proof.
  constructor.
  - intros k s G A.
    assert (I : In s (JsMap.values
                        (spots (initialized rates clock floors
                                  spotsPerFloor)))).
    { apply get_In in G. unfold JsMap.values.
      change s with (snd (k, s)). now apply in_map. }
    rewrite spots_initialized in I. apply floorSpots_In in I. tauto.
  - rewrite initialized_only_spots. split; reflexivity.
  - rewrite initialized_only_spots. constructor.
Qed.

Lemma Tidy_Effect w w' : Inv w -> Tidy w -> Effect w w' -> Tidy w'.
Proof.
  intros I [AC [TK TC] IW] E.
  assert (SET : forall k s',
            (ParkingSpot.isAvailable s' = true ->
             ParkingSpot.currentVehicleLicense s' = None) ->
            spots w' = JsMap.set k s' (spots w) -> AvailableClean w').
  { intros k s' C ES k0 s0 G A. rewrite ES, get_set in G.
    destruct (eq_dec k0 k); [inversion G; subst; auto|eauto]. }
  destruct E as [ES ET EA EC|sel lic Is Av ES ET EA EC
                 |sel vehicle Is Av Fv NA ES ET EA EC
                 |k s G ES ET EA EC|t rate s AT GI GR GS ES ET EA EC].
  - constructor.
    + intros k s. rewrite ES. apply AC.
    + unfold TicketsInOrder. now rewrite ET, EC.
    + now rewrite EA.
  - constructor.
    + refine (SET _ _ _ ES); simpl; intros; discriminate.
    + unfold TicketsInOrder. now rewrite ET, EC.
    + now rewrite EA.
  - constructor.
    + refine (SET _ _ _ ES); simpl; intros; discriminate.
    + assert (F : ~ In (ticketIdOf (ticketCounter w))
                       (JsMap.keys (tickets w))).
      { rewrite TK, TC, in_map_iff. intros [i [Ei Ii]].
        apply ticketIdOf_inj in Ei. apply in_seq in Ii. lia. }
      unfold TicketsInOrder. rewrite ET, EC, TC.
      rewrite set_fresh by (rewrite <- TC; exact F).
      unfold JsMap.size, JsMap.keys. rewrite length_app, map_app. simpl.
      rewrite Nat.add_1_r, seq_S, map_app. simpl.
      fold (JsMap.keys (tickets w)). rewrite TK. auto.
    + rewrite EA. now apply wf_set.
  - constructor.
    + refine (SET _ _ _ ES); simpl; intros; reflexivity.
    + unfold TicketsInOrder. now rewrite ET, EC.
    + now rewrite EA.
  - constructor.
    + refine (SET _ _ _ ES); simpl; intros; reflexivity.
    + destruct AT as [G A].
      assert (KS : JsMap.keys (tickets w') = JsMap.keys (tickets w)).
      { rewrite ET. apply keys_set_present. eapply get_Some_keys; eauto. }
      unfold TicketsInOrder. rewrite !size_keys, KS, EC.
      rewrite <- !size_keys. auto.
    + rewrite EA. now apply wf_delete.
Qed.

Lemma Reachable_Tidy localeCompare w : Reachable localeCompare w -> Tidy w.
Proof.
  induction 1 as [rates clock floors spf|op w R IH].
  - apply Tidy_initialized.
  - apply Tidy_Effect with w; auto.
    + now apply Reachable_Inv with localeCompare.
    + apply exec_Effect. now apply Reachable_Inv with localeCompare.
Qed.

(** ** The ticket store *)

Lemma tickets_wf w : Tidy w -> JsMap.wf (tickets w).
Proof.
  intros [_ [TK _] _]. unfold JsMap.wf. rewrite TK. apply NoDup_ticketIds.
Qed.

Lemma ticket_ids_are_keys w :
  Inv w -> Tidy w ->
  map ParkingTicket.ticketId (JsMap.values (tickets w))
  = JsMap.keys (tickets w).
Proof.
  intros I T. pose proof (tickets_wf w T) as WF.
  unfold JsMap.values, JsMap.keys. rewrite map_map.
  apply map_ext_in. intros [k t] In_. simpl.
  apply (In_get k t _ WF) in In_.
  now destruct (inv_ticket_keys w I _ _ In_).
Qed.

(** X8. In every reachable state the tickets sit in the store in the
    order of issue and carry the identifiers T000001, T000002, ... of the
    counter values 1, 2, ...: no two tickets share an identifier, the
    counter is one more than the number of tickets ever issued, and the
    identifier [generateTicketId] hands out next is not in the store. *)
Theorem tickets_numbered_in_order localeCompare w :
  Reachable localeCompare w ->
  exists all,
    getAllTickets w = (Return all, w) /\
    map ParkingTicket.ticketId all
    = map ticketIdOf (seq 1 (List.length all)) /\
    NoDup (map ParkingTicket.ticketId all) /\
    ticketCounter w = S (List.length all) /\
    fst (generateTicketId w) = Return (ticketIdOf (S (List.length all))) /\
    getTicket (ticketIdOf (S (List.length all))) w = (Return None, w).
Proof.
  intros R. pose proof (Reachable_Inv _ _ R) as I.
  pose proof (Reachable_Tidy _ _ R) as T.
  exists (JsMap.values (tickets w)). split; [reflexivity|].
  destruct (tidy_tickets w T) as [TK TC].
  assert (L : List.length (JsMap.values (tickets w)) = JsMap.size (tickets w))
    by apply length_map.
  rewrite L, ticket_ids_are_keys by assumption.
  split; [exact TK|]. split; [rewrite TK; apply NoDup_ticketIds|].
  split; [exact TC|]. split.
  - unfold generateTicketId, bind, gets, modify, ret. simpl.
    now rewrite TC.
  - unfold getTicket, gets. f_equal. f_equal.
    apply get_None_keys. rewrite TK, in_map_iff. intros [i [Ei Ii]].
    apply ticketIdOf_inj in Ei. apply in_seq in Ii. lia.
Qed.

Lemma sameSession_refl t : sameSession t t.
Proof. repeat split. Qed.

Lemma sameSession_trans a b c :
  sameSession a b -> sameSession b c -> sameSession a c.
Proof. unfold sameSession. intuition congruence. Qed.

Lemma ticket_kept_Effect w w' tid t :
  Inv w -> Tidy w -> Effect w w' ->
  JsMap.get tid (tickets w) = Some t ->
  exists t',
    JsMap.get tid (tickets w') = Some t' /\ sameSession t t' /\
    (t' = t \/
     (ParkingTicket.isActive t = true /\ ParkingTicket.isActive t' = false)).
Proof.
  intros I T E G.
  assert (SAME : tickets w' = tickets w ->
            exists t', JsMap.get tid (tickets w') = Some t' /\
              sameSession t t' /\
              (t' = t \/ (ParkingTicket.isActive t = true /\
                          ParkingTicket.isActive t' = false))).
  { intros ->. exists t. split; [exact G|]. split; [apply sameSession_refl|].
    now left. }
  destruct E as [ES ET EA EC|sel lic Is Av ES ET EA EC
                 |sel vehicle Is Av Fv NA ES ET EA EC
                 |k s G' ES ET EA EC|t0 rate s AT GI GR GS ES ET EA EC];
    auto.
  - exists t. rewrite ET. split; [|split; [apply sameSession_refl|now left]].
    rewrite get_set_other; [exact G|].
    intros ->. destruct (inv_ticket_keys w I _ _ G) as [_ [n [L E']]].
    apply ticketIdOf_inj in E'. lia.
  - rewrite ET, get_set. destruct AT as [G0 A0].
    destruct (eq_dec tid (ParkingTicket.ticketId t0)) as [->|N].
    + assert (t0 = t) by congruence. subst t0.
      exists (checkedOut t rate w). split; [reflexivity|].
      split; [repeat split|]. right. split; [exact A0|reflexivity].
    + exists t. split; [exact G|]. split; [apply sameSession_refl|now left].
Qed.

(** X9. Tickets are kept for good.  Whatever operations follow, a ticket
    of the store is still found under its identifier, with the same
    identifier, vehicle, spot and entry time; it is unchanged, or it was
    active and has since been completed. *)
Theorem tickets_are_never_deleted localeCompare ops :
  forall w, Reachable localeCompare w ->
  forall tid t, getTicket tid w = (Return (Some t), w) ->
  exists t',
    getTicket tid (run localeCompare ops w)
    = (Return (Some t'), run localeCompare ops w) /\
    sameSession t t' /\
    (t' = t \/
     (ParkingTicket.isActive t = true /\ ParkingTicket.isActive t' = false)).
Proof.
  unfold getTicket, gets, run.
  induction ops as [|op ops IH]; intros w R tid t G; simpl.
  - exists t. split; [exact G|]. split; [apply sameSession_refl|now left].
  - assert (G0 : JsMap.get tid (tickets w) = Some t) by congruence.
    destruct (ticket_kept_Effect w (exec localeCompare op w) tid t)
      as [t1 [G1 [S1 C1]]]; auto.
    + now apply Reachable_Inv with localeCompare.
    + now apply Reachable_Tidy with localeCompare.
    + apply exec_Effect. now apply Reachable_Inv with localeCompare.
    + destruct (IH (exec localeCompare op w)
                  (Reachable_step localeCompare op w R) tid t1)
        as [t2 [G2 [S2 C2]]]; [now rewrite G1|].
      exists t2. split; [exact G2|].
      split; [now apply sameSession_trans with t1|].
      destruct C1 as [->|[A1 N1]]; [exact C2|].
      right. split; [exact A1|].
      destruct C2 as [->|[A2 _]]; [exact N1|congruence].
Qed.

(** ** The active sessions *)

Lemma activeTickets_In w t :
  Inv w -> Tidy w ->
  (In t (activeTickets w) <-> ActiveTicket w t).
Proof.
  intros I T. unfold activeTickets, ActiveTicket. rewrite filter_In.
  split.
  - intros [V A]. split; [|exact A].
    destruct (values_get t (tickets w) (tickets_wf w T) V) as [tid G].
    destruct (inv_ticket_keys w I _ _ G) as [E _]. now rewrite E.
  - intros [G A]. split; [|exact A]. now apply get_values with (ParkingTicket.ticketId t).
Qed.

Lemma values_NoDup_tickets w : Inv w -> Tidy w -> NoDup (JsMap.values (tickets w)).
Proof.
  intros I T. apply NoDup_map_inv with (f := ParkingTicket.ticketId).
  rewrite ticket_ids_are_keys by assumption. apply (tickets_wf w T).
Qed.

Lemma activeTicketOf_iff w plate t :
  Inv w ->
  (activeTicketOf plate w = Some t <-> ActiveTicket w t /\ plateOf t = plate).
Proof.
  intros I. split.
  - intros AT. destruct (activeTicketOf_Some w plate t I AT) as [_ [G [P A]]].
    repeat split; assumption.
  - intros [[G A] P]. unfold activeTicketOf.
    pose proof (inv_active_indexed w I _ _ G A) as GI.
    unfold plateOf in P. rewrite P in GI. now rewrite GI.
Qed.

(** X10. In every reachable state [getActiveTickets] lists each parked
    vehicle once: the plates of the active tickets are distinct, there
    are as many of them as entries in the vehicle index, and
    [getActiveTicketByVehicle] finds for a plate exactly the listed ticket
    of that plate. *)
Theorem active_sessions_indexed localeCompare w :
  Reachable localeCompare w ->
  exists active,
    getActiveTickets w = (Return active, w) /\
    NoDup (map plateOf active) /\
    List.length active = JsMap.size (activeTicketsByVehicle w) /\
    (forall plate t,
       getActiveTicketByVehicle plate w = (Return (Some t), w) <->
       In t active /\ plateOf t = plate).
Proof.
  intros R. pose proof (Reachable_Inv _ _ R) as I.
  pose proof (Reachable_Tidy _ _ R) as T.
  exists (activeTickets w). split; [reflexivity|].
  assert (ND : NoDup (map plateOf (activeTickets w))).
  { apply Finite.Injective_map_NoDup_in.
    - intros a b Ia Ib E.
      apply (activeTickets_In w a I T) in Ia. destruct Ia as [Ga Aa].
      apply (activeTickets_In w b I T) in Ib. destruct Ib as [Gb Ab].
      pose proof (inv_active_indexed w I _ _ Ga Aa) as Xa.
      pose proof (inv_active_indexed w I _ _ Gb Ab) as Xb.
      unfold plateOf in E. rewrite E in Xa. congruence.
    - apply NoDup_filter. now apply values_NoDup_tickets. }
  split; [exact ND|]. split.
  - rewrite size_keys, <- (length_map plateOf).
    apply Permutation.Permutation_length.
    apply Permutation.NoDup_Permutation;
      [exact ND|apply (tidy_index w T)|].
    intros p. rewrite in_map_iff. split.
    + intros [t [P It]]. apply (activeTickets_In w t I T) in It.
      destruct It as [G A].
      apply get_Some_keys with (ParkingTicket.ticketId t).
      rewrite <- P. now apply (inv_active_indexed w I).
    + intros K. destruct (keys_get_Some _ _ K) as [ref G].
      destruct (inv_index w I _ _ G) as [t [Gt [P A]]].
      exists t. split; [exact P|]. apply (activeTickets_In w t I T).
      split; [|exact A].
      destruct (inv_ticket_keys w I _ _ Gt) as [E _]. now rewrite E.
  - intros plate t. rewrite getActiveTicketByVehicle_unfold.
    rewrite (activeTickets_In w t I T), <- (activeTicketOf_iff w plate t I).
    split; [congruence|now intros ->].
Qed.

(** ** Errors that the invariant rules out *)

(** X11. The defensive errors never surface in a reachable state:
    [allocateSpot] never throws (the spot it occupies is available), a
    check-in throws only for a vehicle that is already parked, naming the
    spot of its active ticket, and a check-out throws only for a plate
    without an active session or for a vehicle type without a rate; the
    errors of [occupy], [complete] and [releaseSpot] are not raised
    through them. *)
Theorem defensive_errors_never_raised localeCompare w :
  Reachable localeCompare w ->
  (forall vt lic e, fst (allocateSpot localeCompare vt lic w) <> Throw e) /\
  (forall vehicle e,
     fst (checkInVehicle localeCompare vehicle w) = Throw e ->
     exists t,
       activeTicketOf (Vehicle.licensePlate vehicle) w = Some t /\
       e = AlreadyParked (Vehicle.licensePlate vehicle)
                         (ParkingTicket.spot t)) /\
  (forall plate e,
     fst (checkOutVehicle plate w) = Throw e ->
     (activeTicketOf plate w = None /\ e = NoActiveSession plate) \/
     (exists t,
        activeTicketOf plate w = Some t /\
        JsMap.get (Vehicle.type (ParkingTicket.vehicle t)) (rates w) = None /\
        e = NoRateFound (Vehicle.type (ParkingTicket.vehicle t)))).
Proof.
  intros R. pose proof (Reachable_Inv _ _ R) as I.
  split; [|split].
  - intros vt lic e E.
    destruct (allocateSpot localeCompare vt lic w) as [o w'] eqn:A.
    simpl in E. subst o. now apply allocateSpot_no_Throw in A.
  - intros vehicle e. rewrite checkInVehicle_unfold.
    destruct (activeTicketOf (Vehicle.licensePlate vehicle) w) as [t|] eqn:AT.
    + simpl. intros E. exists t. split; [reflexivity|congruence].
    + destruct (allocateSpot_cases localeCompare (Vehicle.type vehicle)
                  (Vehicle.licensePlate vehicle) w)
        as [E|[sel [_ [_ [_ E]]]]]; rewrite E; simpl; discriminate.
  - intros plate e. rewrite checkOutVehicle_unfold.
    destruct (activeTicketOf plate w) as [t|] eqn:AT.
    + destruct (activeTicketOf_Some w plate t I AT) as [_ [G [_ A]]].
      unfold ParkingTicket.isActive in A.
      destruct (ParkingTicket.exitTime t); [discriminate|].
      destruct (JsMap.get (Vehicle.type (ParkingTicket.vehicle t)) (rates w))
        as [rate|] eqn:GR.
      * pose proof (inv_ticket_spot w I _ _ G) as GS.
        destruct (JsMap.get (ParkingTicket.spot t) (spots w)); [|congruence].
        simpl. discriminate.
      * simpl. intros E. right. exists t. repeat split; congruence.
    + simpl. intros E. left. split; [reflexivity|congruence].
Qed.

(** X12. A check-out that fails for want of a rate reads the clock twice
    and changes nothing else: the session is still active, the spot is
    still held and the ticket store is as before.  Once a rate for the
    vehicle type is set, the check-out of the same plate succeeds; the
    ticket it returns is the session's, completed, with the next reading
    of the clock as exit time and with a fee, and the plate has no
    active session any more. *)
Theorem checkOut_without_rate_keeps_session localeCompare w plate t rate :
  Reachable localeCompare w ->
  activeTicketOf plate w = Some t ->
  JsMap.get (Vehicle.type (ParkingTicket.vehicle t)) (rates w) = None ->
  vehicleType rate = Vehicle.type (ParkingTicket.vehicle t) ->
  let w1 := snd (checkOutVehicle plate w) in
  let w2 := snd (setRate rate w1) in
  fst (checkOutVehicle plate w)
  = Throw (NoRateFound (Vehicle.type (ParkingTicket.vehicle t))) /\
  w1 = with_clockReads (fun n => S (S n)) w /\
  activeTicketOf plate w1 = Some t /\
  exists T w3 fee,
    checkOutVehicle plate w2 = (Return T, w3) /\
    sameSession t T /\
    ParkingTicket.exitTime T = Some (clock w (S (S (clockReads w)))) /\
    ParkingTicket.fee T = Some fee /\
    getTicket (ParkingTicket.ticketId t) w3 = (Return (Some T), w3) /\
    activeTicketOf plate w3 = None.
Proof.
  intros R AT GR VT w1 w2. pose proof (Reachable_Inv _ _ R) as I.
  destruct (activeTicketOf_Some w plate t I AT) as [_ [G [P A]]].
  pose proof A as X. unfold ParkingTicket.isActive in X.
  destruct (ParkingTicket.exitTime t) eqn:XT; [discriminate|]. clear X.
  assert (E1 : checkOutVehicle plate w
               = (Throw (NoRateFound (Vehicle.type (ParkingTicket.vehicle t))),
                  with_clockReads (fun n => S (S n)) w)).
  { rewrite checkOutVehicle_unfold, AT, XT, GR. reflexivity. }
  assert (W1 : w1 = with_clockReads (fun n => S (S n)) w)
    by (unfold w1; now rewrite E1).
  split; [now rewrite E1|]. split; [exact W1|].
  split; [rewrite W1; exact AT|].
  pose proof (inv_ticket_spot w I _ _ G) as GS.
  destruct (JsMap.get (ParkingTicket.spot t) (spots w)) as [s|] eqn:GS';
    [|congruence].
  assert (AT2 : activeTicketOf plate w2 = Some t)
    by (unfold w2; rewrite W1; exact AT).
  assert (GR2 : JsMap.get (Vehicle.type (ParkingTicket.vehicle t)) (rates w2)
                = Some rate).
  { unfold w2, setRate, modify. simpl. rewrite VT. apply get_set_same. }
  assert (GS2 : JsMap.get (ParkingTicket.spot t) (spots w2) = Some s)
    by (unfold w2; rewrite W1; exact GS').
  rewrite checkOutVehicle_unfold, AT2, XT, GR2, GS2.
  eexists. eexists. eexists. split; [reflexivity|].
  split; [repeat split|]. split; [unfold w2; rewrite W1; reflexivity|].
  split; [reflexivity|]. split.
  - unfold getTicket, gets. simpl. now rewrite get_set_same.
  - unfold activeTicketOf. simpl. rewrite P.
    now rewrite get_delete_same.
Qed.

(** ** Round trips *)

Lemma release_occupied lic sel :
  ParkingSpot.isAvailable sel = true ->
  ParkingSpot.currentVehicleLicense sel = None ->
  ParkingSpot.release (occupiedBy lic sel) = sel.
Proof.
  destruct sel as [id floor ty av cur]. simpl. now intros -> ->.
Qed.

Lemma release_allocated_spots w sel lic :
  Inv w -> Tidy w ->
  In sel (JsMap.values (spots w)) -> ParkingSpot.isAvailable sel = true ->
  JsMap.set (ParkingSpot.id sel) (ParkingSpot.release (occupiedBy lic sel))
    (JsMap.set (ParkingSpot.id sel) (occupiedBy lic sel) (spots w))
  = spots w.
Proof.
  intros I T Isel Av.
  pose proof (spots_wf_get w sel (inv_spots w I) Isel) as G.
  rewrite set_set, release_occupied; auto.
  - now apply set_same.
  - now apply (tidy_available w T) with (ParkingSpot.id sel).
Qed.

(** X13. Allocating a spot and releasing it again gives back the state
    there was before: in a reachable state an available spot carries no
    stale plate, so [release] undoes [occupy] exactly. *)
Theorem allocate_release_round_trip localeCompare vt lic w spot w1 :
  Reachable localeCompare w ->
  allocateSpot localeCompare vt lic w = (Return (Some spot), w1) ->
  releaseSpot (ParkingSpot.id spot) w1 = (Return tt, w).
Proof.
  intros R A. pose proof (Reachable_Inv _ _ R) as I.
  pose proof (Reachable_Tidy _ _ R) as T.
  destruct (allocateSpot_cases localeCompare vt lic w)
    as [E|[sel [Isel [Av [_ E]]]]]; rewrite E in A; [discriminate|].
  assert (spot = occupiedBy lic sel) by congruence.
  assert (w1 = with_spots (JsMap.set (ParkingSpot.id sel)
                                     (occupiedBy lic sel)) w) by congruence.
  subst spot w1. rewrite releaseSpot_unfold. simpl.
  rewrite get_set_same. f_equal.
  unfold with_spots. simpl.
  rewrite (release_allocated_spots w sel lic I T Isel Av).
  now destruct w.
Qed.

Lemma ticketIdOf_counter_fresh w :
  Inv w -> ~ In (ticketIdOf (ticketCounter w)) (JsMap.keys (tickets w)).
Proof.
  intros I K. destruct (keys_get_Some _ _ K) as [t G].
  destruct (inv_ticket_keys w I _ _ G) as [_ [n [L E]]].
  apply ticketIdOf_inj in E. lia.
Qed.

(** X14. A visit leaves the lot as it found it.  When a vehicle is
    checked in and, with a rate for its type, checked out at once, the
    spot store and the vehicle index are again what they were before the
    check-in; what remains is one more ticket at the end of the ticket
    store, the completed ticket of the session, and a counter advanced
    by one. *)
Theorem visit_leaves_lot_as_found localeCompare vehicle w session w1 rate :
  Reachable localeCompare w ->
  JsMap.get (Vehicle.type vehicle) (rates w) = Some rate ->
  checkInVehicle localeCompare vehicle w = (Return (Some session), w1) ->
  exists T w3,
    checkOutVehicle (Vehicle.licensePlate vehicle) w1 = (Return T, w3) /\
    spots w3 = spots w /\
    activeTicketsByVehicle w3 = activeTicketsByVehicle w /\
    JsMap.values (tickets w3) = JsMap.values (tickets w) ++ [T] /\
    ticketCounter w3 = S (ticketCounter w) /\
    sameSession session T /\
    ParkingTicket.isActive T = false.
Proof.
  intros R GR CI. pose proof (Reachable_Inv _ _ R) as I.
  pose proof (Reachable_Tidy _ _ R) as T.
  destruct (checkIn_Some localeCompare vehicle w session w1 CI)
    as [sel [Isel [Av [ES [EW NA]]]]].
  set (occ := occupiedBy (Vehicle.licensePlate vehicle) sel) in *.
  set (w0 := with_spots (JsMap.set (ParkingSpot.id sel) occ) w) in *.
  assert (AT : activeTicketOf (Vehicle.licensePlate vehicle) w1
               = Some session).
  { rewrite ES, EW. apply activeTicketOf_issueTicket. }
  assert (XT : ParkingTicket.exitTime session = None) by now rewrite ES.
  assert (GR1 : JsMap.get (Vehicle.type (ParkingTicket.vehicle session))
                          (rates w1) = Some rate)
    by (rewrite ES, EW; exact GR).
  assert (GS1 : JsMap.get (ParkingTicket.spot session) (spots w1) = Some occ).
  { rewrite ES, EW. simpl. apply get_set_same. }
  rewrite checkOutVehicle_unfold, AT, XT, GR1, GS1.
  eexists. eexists. split; [reflexivity|].
  assert (SP : ParkingTicket.spot session = ParkingSpot.id sel)
    by now rewrite ES.
  assert (TI : ParkingTicket.ticketId session = ticketIdOf (ticketCounter w))
    by now rewrite ES.
  assert (PL : Vehicle.licensePlate (ParkingTicket.vehicle session)
               = Vehicle.licensePlate vehicle) by now rewrite ES.
  split; [|split; [|split; [|split; [|split]]]].
  - simpl. rewrite SP. rewrite EW. simpl.
    apply (release_allocated_spots w sel _ I T Isel Av).
  - simpl. rewrite PL. rewrite EW. simpl.
    apply delete_set_fresh. intros K.
    destruct (keys_get_Some _ _ K) as [ref G].
    pose proof (activeTicketOf_None_index w _ I NA). congruence.
  - simpl. rewrite TI. rewrite EW. simpl.
    rewrite set_set, set_fresh by now apply ticketIdOf_counter_fresh.
    unfold JsMap.values. now rewrite map_app.
  - rewrite EW. reflexivity.
  - repeat split.
  - reflexivity.
Qed.

(** ** The layout of the lot *)

Lemma layout_set w k s s' :
  JsMap.get k (spots w) = Some s ->
  ParkingSpot.id s' = ParkingSpot.id s ->
  ParkingSpot.floor s' = ParkingSpot.floor s ->
  ParkingSpot.spotType s' = ParkingSpot.spotType s ->
  JsMap.keys (JsMap.set k s' (spots w)) = JsMap.keys (spots w) /\
  map (fun s => (ParkingSpot.id s, ParkingSpot.floor s,
                 ParkingSpot.spotType s))
      (JsMap.values (JsMap.set k s' (spots w)))
  = layout w.
Proof.
  intros G E1 E2 E3. split.
  - apply keys_set_present. now apply get_Some_keys with s.
  - apply map_values_set with s; [exact G|]. now rewrite E1, E2, E3.
Qed.

Lemma layout_Effect w w' :
  Inv w -> Effect w w' ->
  JsMap.keys (spots w') = JsMap.keys (spots w) /\ layout w' = layout w.
Proof.
  intros I E.
  destruct E as [ES ET EA EC|sel lic Is Av ES ET EA EC
                 |sel vehicle Is Av Fv NA ES ET EA EC
                 |k s G' ES ET EA EC|t0 rate s AT GI GR GS ES ET EA EC];
    unfold layout at 1; rewrite ES.
  - split; reflexivity.
  - apply layout_set with sel; auto.
    now apply spots_wf_get; [apply (inv_spots w I)|].
  - apply layout_set with sel; auto.
    now apply spots_wf_get; [apply (inv_spots w I)|].
  - now apply layout_set with s.
  - now apply layout_set with s.
Qed.

(** X15. The lot keeps its layout.  Whatever is run on a reachable
    state, the spot store holds the same keys in the same order and
    every spot keeps its identifier, floor and type; so [getAllSpots]
    always returns as many spots as [initializeParkingLot] created. *)
Theorem lot_layout_is_fixed localeCompare ops :
  forall w, Reachable localeCompare w ->
  JsMap.keys (spots (run localeCompare ops w)) = JsMap.keys (spots w) /\
  layout (run localeCompare ops w) = layout w /\
  exists all all',
    getAllSpots w = (Return all, w) /\
    getAllSpots (run localeCompare ops w)
    = (Return all', run localeCompare ops w) /\
    List.length all' = List.length all.
Proof.
  assert (KL : forall w, Reachable localeCompare w ->
            JsMap.keys (spots (run localeCompare ops w))
            = JsMap.keys (spots w) /\
            layout (run localeCompare ops w) = layout w).
  { unfold run. induction ops as [|op ops IH]; intros w R; simpl.
    - split; reflexivity.
    - destruct (IH (exec localeCompare op w)
                   (Reachable_step localeCompare op w R)) as [K L].
      destruct (layout_Effect w (exec localeCompare op w)) as [K0 L0].
      + now apply Reachable_Inv with localeCompare.
      + apply exec_Effect. now apply Reachable_Inv with localeCompare.
      + split; congruence. }
  intros w R. destruct (KL w R) as [K L]. split; [exact K|].
  split; [exact L|].
  exists (JsMap.values (spots w)),
         (JsMap.values (spots (run localeCompare ops w))).
  split; [reflexivity|]. split; [reflexivity|].
  unfold JsMap.values. rewrite !length_map.
  rewrite <- (length_map fst), <- (length_map fst (spots w)).
  unfold JsMap.keys in K. now rewrite K.
Qed.

(** ** Parked vehicles and free spots *)

Lemma size_set_present (w : World) k s s' :
  JsMap.get k (spots w) = Some s ->
  JsMap.size (JsMap.set k s' (spots w)) = JsMap.size (spots w).
Proof.
  intros G. rewrite !size_keys.
  rewrite keys_set_present; [reflexivity|]. now apply get_Some_keys with s.
Qed.

Lemma Balanced_checkIn localeCompare vehicle w :
  Inv w -> Balanced w ->
  Balanced (snd (checkInVehicle localeCompare vehicle w)).
Proof.
  intros I B. rewrite checkInVehicle_unfold.
  destruct (activeTicketOf (Vehicle.licensePlate vehicle) w) as [t0|] eqn:NA;
    [exact B|].
  destruct (allocateSpot_cases localeCompare (Vehicle.type vehicle)
              (Vehicle.licensePlate vehicle) w)
    as [E|[sel [Isel [Av [Fv E]]]]]; rewrite E; cbv beta iota;
    [exact B|].
  pose proof (spots_wf_get w sel (inv_spots w I) Isel) as G.
  unfold Balanced, activeTickets in *. simpl.
  rewrite (size_set_present w _ sel) by exact G.
  pose proof (count_set_present ParkingSpot.isAvailable (ParkingSpot.id sel)
                (occupiedBy (Vehicle.licensePlate vehicle) sel) sel (spots w) G)
    as C.
  rewrite Av in C. simpl in C.
  rewrite (set_fresh (ticketIdOf (ticketCounter w)) _ (tickets w))
    by now apply ticketIdOf_counter_fresh.
  unfold JsMap.values at 2. rewrite map_app, filter_app, length_app. simpl.
  fold (JsMap.values (tickets w)). lia.
Qed.

Lemma Balanced_checkOut plate w :
  Inv w -> Occupancy w -> Balanced w ->
  Balanced (snd (checkOutVehicle plate w)).
Proof.
  intros I O B. rewrite checkOutVehicle_unfold.
  destruct (activeTicketOf plate w) as [t|] eqn:AT; [|exact B].
  destruct (activeTicketOf_Some w plate t I AT) as [GI [G [P A]]].
  pose proof A as A'. unfold ParkingTicket.isActive in A'.
  destruct (ParkingTicket.exitTime t); [discriminate|].
  destruct (JsMap.get (Vehicle.type (ParkingTicket.vehicle t)) (rates w))
    as [rate|] eqn:GR; [|exact B].
  destruct (O t (conj G A)) as [s [GS [U _]]]. rewrite GS.
  unfold Balanced, activeTickets in *. simpl.
  rewrite (size_set_present w _ s) by exact GS.
  pose proof (count_set_present ParkingSpot.isAvailable (ParkingTicket.spot t)
                (ParkingSpot.release s) s (spots w) GS) as C.
  rewrite U in C. simpl in C.
  pose proof (count_set_present ParkingTicket.isActive
                (ParkingTicket.ticketId t) (checkedOut t rate w) t
                (tickets w) G) as C'.
  rewrite A in C'. simpl in C'. lia.
Qed.

(** X16. Under the operations of the service alone, check-ins and
    check-outs in any order, every spot is either available or held by
    exactly one active session: the number of available spots and the
    number of active tickets add up to the number of spots of the lot. *)
Theorem parked_plus_available_is_capacity localeCompare rates clock floors
    spotsPerFloor ops :
  Forall serviceOp ops ->
  let w := run localeCompare ops
             (initialized rates clock floors spotsPerFloor) in
  exists available active all,
    getAvailableSpots w = (Return available, w) /\
    getActiveTickets w = (Return active, w) /\
    getAllSpots w = (Return all, w) /\
    (List.length available + List.length active)%nat = List.length all.
Proof.
  intros F w.
  exists (filter ParkingSpot.isAvailable (JsMap.values (spots w))),
         (activeTickets w), (JsMap.values (spots w)).
  split; [reflexivity|]. split; [reflexivity|]. split; [reflexivity|].
  assert (B : Balanced w);
    [|unfold Balanced in B; rewrite B; symmetry; apply length_map].
  assert (G : forall w0, Inv w0 -> Occupancy w0 -> Balanced w0 ->
                Balanced (run localeCompare ops w0)).
  { unfold run. clear w. induction F as [|op ops S F IH]; intros w0 I O B;
      simpl; [exact B|].
    apply IH.
    - now apply Inv_exec.
    - apply Occupancy_exec; auto. now destruct op.
    - destruct op as [vehicle|plate| |]; simpl in *; try tauto.
      + now apply Balanced_checkIn.
      + now apply Balanced_checkOut. }
  apply G.
  - apply Inv_initialized.
  - intros t [Gt _]. rewrite tickets_initialized in Gt. discriminate.
  - unfold Balanced, activeTickets.
    rewrite tickets_initialized. simpl.
    rewrite Nat.add_0_r. unfold JsMap.size.
    rewrite <- (length_map snd). fold (JsMap.values
      (spots (initialized rates clock floors spotsPerFloor))).
    f_equal. apply forallb_filter_id. apply forallb_forall.
    intros s Is. rewrite spots_initialized in Is.
    now apply floorSpots_In in Is.
Qed.

(** ** Sessions of other vehicles *)

Lemma activeTicketOf_exec_other localeCompare op w plate :
  Inv w -> ~ concerns plate op ->
  activeTicketOf plate (exec localeCompare op w) = activeTicketOf plate w.
Proof.
  intros I NC. destruct op as [vehicle|p|vt lic|spotId]; simpl in *.
  - rewrite checkInVehicle_unfold.
    destruct (activeTicketOf (Vehicle.licensePlate vehicle) w) as [t0|] eqn:NA;
      [reflexivity|].
    destruct (allocateSpot_cases localeCompare (Vehicle.type vehicle)
                (Vehicle.licensePlate vehicle) w)
      as [E|[sel [Isel [Av [Fv E]]]]]; rewrite E; cbv beta iota;
      [reflexivity|].
    unfold activeTicketOf. simpl.
    rewrite get_set_other by congruence.
    destruct (JsMap.get plate (activeTicketsByVehicle w)) as [ref|] eqn:G;
      [|reflexivity].
    apply get_set_other. intros ->.
    destruct (inv_index w I _ _ G) as [t [Gt _]].
    destruct (inv_ticket_keys w I _ _ Gt) as [_ [n [L E']]].
    apply ticketIdOf_inj in E'. lia.
  - rewrite checkOutVehicle_unfold.
    destruct (activeTicketOf p w) as [t|] eqn:AT; [|reflexivity].
    destruct (activeTicketOf_Some w p t I AT) as [GI [G [P A]]].
    pose proof A as A'. unfold ParkingTicket.isActive in A'.
    destruct (ParkingTicket.exitTime t); [discriminate|].
    destruct (JsMap.get (Vehicle.type (ParkingTicket.vehicle t)) (rates w))
      as [rate|]; [|reflexivity].
    assert (X : activeTicketOf plate (afterCompletion t rate w)
                = activeTicketOf plate w).
    { unfold activeTicketOf. simpl.
      rewrite get_delete_other by congruence.
      destruct (JsMap.get plate (activeTicketsByVehicle w)) as [ref|] eqn:Gp;
        [|reflexivity].
      apply get_set_other. intros ->.
      destruct (inv_index w I _ _ Gp) as [t' [Gt' [P' _]]].
      assert (t' = t) by congruence. subst t'. congruence. }
    destruct (JsMap.get (ParkingTicket.spot t) (spots w)); exact X.
  - destruct (allocateSpot_cases localeCompare vt lic w)
      as [E|[sel [_ [_ [_ E]]]]]; rewrite E; reflexivity.
  - rewrite releaseSpot_unfold.
    destruct (JsMap.get spotId (spots w)); reflexivity.
Qed.

(** X20. Sessions are isolated.  Operations that are neither the
    check-in nor the check-out of a plate leave what
    [getActiveTicketByVehicle] answers for that plate as it was: the same
    active ticket, unchanged, or still none. *)
Theorem sessions_are_isolated localeCompare ops plate :
  forall w, Reachable localeCompare w ->
  (forall op, In op ops -> ~ concerns plate op) ->
  fst (getActiveTicketByVehicle plate (run localeCompare ops w))
  = fst (getActiveTicketByVehicle plate w).
Proof.
  intros w R NC. rewrite !getActiveTicketByVehicle_unfold. simpl. f_equal.
  revert w R NC. unfold run.
  induction ops as [|op ops IH]; intros w R NC; simpl; [reflexivity|].
  rewrite IH.
  - apply activeTicketOf_exec_other.
    + now apply Reachable_Inv with localeCompare.
    + apply NC. now left.
  - now constructor.
  - intros op' I'. apply NC. now right.
Qed.

(** ** What a check-in records and what a check-out charges *)

(** X21. A successful check-in issues the ticket of the next counter
    value for the vehicle, with the entry time the clock showed, on a
    spot that was available and fits the vehicle, the one [allocateSpot]
    selects; the identifier was not in use, and afterwards the ticket is
    found under its identifier and under the plate of the vehicle. *)
Theorem checkIn_records_session localeCompare vehicle w ticket w1 :
  Reachable localeCompare w ->
  checkInVehicle localeCompare vehicle w = (Return (Some ticket), w1) ->
  ticket = ParkingTicket.new (ticketIdOf (ticketCounter w)) vehicle
             (ParkingTicket.spot ticket) (clock w (clockReads w)) /\
  (exists s,
     JsMap.get (ParkingTicket.spot ticket) (spots w) = Some s /\
     ParkingSpot.isAvailable s = true /\
     Fits (ParkingSpot.spotType s) (Vehicle.type vehicle) /\
     fst (allocateSpot localeCompare (Vehicle.type vehicle)
                       (Vehicle.licensePlate vehicle) w)
     = Return (Some (occupiedBy (Vehicle.licensePlate vehicle) s))) /\
  getTicket (ParkingTicket.ticketId ticket) w = (Return None, w) /\
  getTicket (ParkingTicket.ticketId ticket) w1 = (Return (Some ticket), w1) /\
  getActiveTicketByVehicle (Vehicle.licensePlate vehicle) w1
  = (Return (Some ticket), w1) /\
  clockReads w1 = S (clockReads w).
Proof.
  intros R CI. pose proof (Reachable_Inv _ _ R) as I.
  rewrite checkInVehicle_unfold in CI.
  destruct (activeTicketOf (Vehicle.licensePlate vehicle) w) as [t0|] eqn:NA;
    [discriminate|].
  destruct (allocateSpot_cases localeCompare (Vehicle.type vehicle)
              (Vehicle.licensePlate vehicle) w)
    as [E|[sel [Isel [Av [Fv E]]]]]; rewrite E in CI; [discriminate|].
  assert (ET : ticket = fst (issueTicket vehicle
                 (occupiedBy (Vehicle.licensePlate vehicle) sel)
                 (with_spots (JsMap.set (ParkingSpot.id sel)
                    (occupiedBy (Vehicle.licensePlate vehicle) sel)) w)))
    by congruence.
  assert (EW : w1 = snd (issueTicket vehicle
                 (occupiedBy (Vehicle.licensePlate vehicle) sel)
                 (with_spots (JsMap.set (ParkingSpot.id sel)
                    (occupiedBy (Vehicle.licensePlate vehicle) sel)) w)))
    by congruence.
  clear CI. split; [rewrite ET; reflexivity|]. split.
  - exists sel. rewrite ET. simpl.
    split; [now apply spots_wf_get; [apply (inv_spots w I)|]|].
    split; [exact Av|]. split; [now apply canFit_Fits|].
    now rewrite E.
  - rewrite getActiveTicketByVehicle_unfold.
    unfold getTicket, gets. rewrite ET, EW.
    rewrite activeTicketOf_issueTicket. simpl.
    rewrite get_set_same.
    rewrite (get_None_keys _ _ (ticketIdOf_counter_fresh w I)).
    repeat split.
Qed.

Lemma hoursUntil_monotone t e1 e2 :
  e1 <= e2 ->
  (ParkingTicket.hoursUntil e1 t <= ParkingTicket.hoursUntil e2 t)%Q.
Proof.
  intros L. unfold ParkingTicket.hoursUntil, Qle, Qdiv, Qmult, Qinv.
  simpl. lia.
Qed.

(** X22. The fee on the ticket covers the stay on the ticket.  A
    check-out stamps the ticket with one reading of the clock and charges
    the fee of the stay up to the next reading.  The completed ticket
    reports its duration without reading the clock, the same in every
    state, and in the started hour of the time between its entry and its
    exit.  When the clock does not run backwards and the hourly rate is
    not negative, the fee for that reported duration is at most the fee
    charged, and equal to it when the two readings agree. *)
Theorem receipt_covers_recorded_stay localeCompare w plate t rate :
  Reachable localeCompare w ->
  activeTicketOf plate w = Some t ->
  JsMap.get (Vehicle.type (ParkingTicket.vehicle t)) (rates w) = Some rate ->
  (0 <= hourlyRate rate)%Q ->
  clock w (clockReads w) <= clock w (S (clockReads w)) ->
  exists T w3 charged reported recorded,
    checkOutVehicle plate w = (Return T, w3) /\
    ParkingTicket.exitTime T = Some (clock w (clockReads w)) /\
    ParkingTicket.fee T = Some charged /\
    calculateFee (Vehicle.type (ParkingTicket.vehicle t))
                 (ParkingTicket.hoursUntil (clock w (S (clockReads w))) t) w
    = (Return charged, w) /\
    (forall w', getDuration T w' = (Return reported, w')) /\
    (forall h,
       (h - 1) * 3600000
       < clock w (clockReads w) - ParkingTicket.entryTime t
       <= h * 3600000 ->
       CeilingHours reported h) /\
    calculateFee (Vehicle.type (ParkingTicket.vehicle T)) reported w3
    = (Return recorded, w3) /\
    (recorded <= charged)%Q /\
    (clock w (S (clockReads w)) = clock w (clockReads w) ->
     recorded = charged).
Proof.
  intros R AT GR H CL. pose proof (Reachable_Inv _ _ R) as I.
  destruct (activeTicketOf_Some w plate t I AT) as [_ [G [_ A]]].
  pose proof A as X. unfold ParkingTicket.isActive in X.
  destruct (ParkingTicket.exitTime t) eqn:XT; [discriminate|]. clear X.
  pose proof (inv_ticket_spot w I _ _ G) as GS.
  destruct (JsMap.get (ParkingTicket.spot t) (spots w)) as [s|] eqn:GS';
    [|congruence].
  rewrite checkOutVehicle_unfold, AT, XT, GR, GS'.
  eexists. eexists.
  exists (feeUnder rate
            (ParkingTicket.hoursUntil (clock w (S (clockReads w))) t)),
         (ParkingTicket.hoursUntil (clock w (clockReads w)) t),
         (feeUnder rate
            (ParkingTicket.hoursUntil (clock w (clockReads w)) t)).
  split; [reflexivity|]. split; [reflexivity|]. split; [reflexivity|].
  split; [rewrite calculateFee_unfold, GR; reflexivity|].
  split; [reflexivity|].
  split; [intros h B; now apply hoursUntil_CeilingHours|]. split.
  - rewrite calculateFee_unfold. simpl. rewrite GR. reflexivity.
  - split.
    + apply feeUnder_monotone; [exact H|]. now apply hoursUntil_monotone.
    + now intros ->.
Qed.

(** * The availability summary *)

(** ** The keys of the groups *)

Lemma list_ascii_of_string_app a b :
  list_ascii_of_string (a ++ b)%string
  = list_ascii_of_string a ++ list_ascii_of_string b.
Proof. induction a as [|c a IH]; simpl; congruence. Qed.

Lemma reversed_app a b : reversed (a ++ b)%string = reversed b ++ reversed a.
Proof. unfold reversed. now rewrite list_ascii_of_string_app, rev_app_distr. Qed.

Lemma reversed_inj a b : reversed a = reversed b -> a = b.
Proof.
  unfold reversed. intros E. apply (f_equal (@rev ascii)) in E.
  rewrite !rev_involutive in E.
  apply (f_equal string_of_list_ascii) in E.
  now rewrite !string_of_list_ascii_of_string in E.
Qed.

Lemma String_of_Z_inj a b : String_of_Z a = String_of_Z b -> a = b.
Proof.
  unfold String_of_Z. intros E. apply DecimalZ.to_int_inj.
  assert (S : Some (Z.to_int a) = Some (Z.to_int b))
    by (rewrite <- !NilEmpty.isi; now rewrite E).
  congruence.
Qed.

Lemma keyOf_inj f1 t1 f2 t2 :
  keyOf f1 t1 = keyOf f2 t2 -> f1 = f2 /\ t1 = t2.
Proof.
  unfold keyOf. intros E.
  assert (G : forall a b,
            (a ++ "-" ++ spotTypeName t1)%string
            = (b ++ "-" ++ spotTypeName t2)%string -> a = b /\ t1 = t2).
  { clear. intros a b E. apply (f_equal reversed) in E.
    rewrite !reversed_app in E.
    destruct t1, t2; unfold reversed in E; simpl in E;
      try congruence;
      (split; [apply reversed_inj; unfold reversed; congruence
              |reflexivity]). }
  destruct (G _ _ E) as [Z0 T]. split; [now apply String_of_Z_inj|exact T].
Qed.

Lemma inGroup_true f ty s :
  inGroup f ty s = true <->
  ParkingSpot.floor s = f /\ ParkingSpot.spotType s = ty.
Proof.
  unfold inGroup. rewrite andb_true_iff, Z.eqb_eq.
  split; intros [F T]; (split; [exact F|]).
  - now destruct (ParkingSpot.spotType s), ty.
  - subst ty. now destruct (ParkingSpot.spotType s).
Qed.

Lemma inGroup_key f ty s :
  inGroup f ty s = true <-> summaryKey s = keyOf f ty.
Proof.
  rewrite inGroup_true. split.
  - intros [<- <-]. reflexivity.
  - intros E. now apply keyOf_inj.
Qed.

(** ** The loop over the spots *)

Lemma countSpot_unfold m s :
  countSpot m s =
  JsMap.set (summaryKey s)
    (match JsMap.get (summaryKey s) m with
     | Some x =>
         AvailabilitySummary.mk
           (AvailabilitySummary.floor x) (AvailabilitySummary.spotType x)
           (if ParkingSpot.isAvailable s
            then S (AvailabilitySummary.available x)
            else AvailabilitySummary.available x)
           (S (AvailabilitySummary.total x))
     | None =>
         AvailabilitySummary.mk
           (ParkingSpot.floor s) (ParkingSpot.spotType s)
           (if ParkingSpot.isAvailable s then 1%nat else 0%nat) 1%nat
     end) m.
Proof.
  unfold countSpot, mapHas.
  destruct (JsMap.get (summaryKey s) m) as [x|] eqn:G; simpl.
  - now rewrite G.
  - rewrite get_set_same. simpl. apply set_set.
Qed.

Lemma sum_set (f : AvailabilitySummary.t -> nat) key v d
    (m : JsMap.t string AvailabilitySummary.t) :
  match JsMap.get key m with
  | Some x => f v = (f x + d)%nat
  | None => f v = d
  end ->
  list_sum (map f (JsMap.values (JsMap.set key v m)))
  = (list_sum (map f (JsMap.values m)) + d)%nat.
Proof.
  unfold JsMap.values. induction m as [|[k0 x0] m IH]; simpl.
  - intros ->. lia.
  - destruct (eq_dec key k0) as [E|E]; simpl; intros F.
    + lia.
    + specialize (IH F). lia.
Qed.

Lemma filter_none {A : Type} (P : A -> bool) (l : list A) :
  (forall a, In a l -> P a = false) -> filter P l = [].
Proof.
  induction l as [|a l IH]; simpl; intros N; [reflexivity|].
  rewrite (N a) by now left. apply IH. intros b Ib. apply N. now right.
Qed.

Lemma Summarises_nil : Summarises [] JsMap.empty.
Proof.
  constructor; simpl; try reflexivity.
  - constructor.
  - discriminate.
  - tauto.
Qed.

Lemma Summarises_countSpot done m s :
  Summarises done m -> Summarises (done ++ [s]) (countSpot m s).
Proof.
  intros [W EN CV ST SA]. rewrite countSpot_unfold.
  set (key := summaryKey s).
  set (v := match JsMap.get key m with
            | Some x => _
            | None => _
            end).
  assert (OWN : inGroup (ParkingSpot.floor s) (ParkingSpot.spotType s) s
                = true) by now apply inGroup_true.
  constructor.
  - now apply wf_set.
  - intros k y G. rewrite get_set in G.
    destruct (eq_dec k key) as [->|N].
    + assert (y = v) by congruence. subst y. clear G.
      unfold v. destruct (JsMap.get key m) as [x|] eqn:G; cbv zeta; simpl.
      * destruct (EN key x G) as [K [T [A NE]]].
        assert (IG : inGroup (AvailabilitySummary.floor x)
                             (AvailabilitySummary.spotType x) s = true)
          by (apply inGroup_key; now rewrite <- K).
        unfold groupOf in *. rewrite filter_app. simpl. rewrite IG.
        rewrite filter_app, !length_app. simpl.
        split; [exact K|]. split; [lia|]. split.
        -- destruct (ParkingSpot.isAvailable s); simpl; lia.
        -- intros F. now apply app_eq_nil in F.
      * assert (E0 : groupOf (ParkingSpot.floor s) (ParkingSpot.spotType s)
                             done = []).
        { apply filter_none. intros s' I'.
          destruct (inGroup (ParkingSpot.floor s) (ParkingSpot.spotType s) s')
            eqn:IG; [|reflexivity].
          apply inGroup_key in IG. destruct (CV s' I').
          rewrite IG. exact G. }
        unfold groupOf in *. rewrite filter_app, E0. simpl. rewrite OWN.
        simpl. split; [reflexivity|]. split; [reflexivity|]. split.
        -- now destruct (ParkingSpot.isAvailable s).
        -- discriminate.
    + destruct (EN k y G) as [K [T [A NE]]].
      assert (IG : inGroup (AvailabilitySummary.floor y)
                           (AvailabilitySummary.spotType y) s = false).
      { destruct (inGroup (AvailabilitySummary.floor y)
                          (AvailabilitySummary.spotType y) s) eqn:IG;
          [|reflexivity].
        apply inGroup_key in IG. destruct N. now rewrite K. }
      cbv zeta. unfold groupOf in *. rewrite filter_app. simpl. rewrite IG.
      rewrite app_nil_r. auto.
  - intros s' I'. rewrite get_set.
    destruct (eq_dec (summaryKey s') key) as [E|N]; [discriminate|].
    apply in_app_or in I'. destruct I' as [I'|[<-|[]]]; [now apply CV|].
    now destruct N.
  - rewrite (sum_set _ key v 1), ST, length_app; [reflexivity|].
    unfold v. destruct (JsMap.get key m); simpl; lia.
  - rewrite (sum_set _ key v (if ParkingSpot.isAvailable s then 1 else 0)%nat),
      SA, filter_app, length_app; simpl.
    + now destruct (ParkingSpot.isAvailable s).
    + unfold v. destruct (JsMap.get key m);
        destruct (ParkingSpot.isAvailable s); simpl; lia.
Qed.

Lemma Summarises_fold l :
  forall done m, Summarises done m ->
                 Summarises (done ++ l) (fold_left countSpot l m).
Proof.
  induction l as [|s l IH]; intros done m S; simpl.
  - now rewrite app_nil_r.
  - change (s :: l) with ([s] ++ l). rewrite app_assoc.
    apply IH. now apply Summarises_countSpot.
Qed.

(** ** The sort of the summaries *)

Lemma insert_Permutation {A : Type} (cmp : A -> A -> Z) x l :
  Permutation.Permutation (insert cmp x l) (x :: l).
Proof.
  induction l as [|y l IH]; simpl; [apply Permutation.Permutation_refl|].
  destruct (cmp x y <=? 0); [apply Permutation.Permutation_refl|].
  apply Permutation.perm_trans with (y :: x :: l).
  - now apply Permutation.perm_skip.
  - apply Permutation.perm_swap.
Qed.

Lemma sort_Permutation {A : Type} (cmp : A -> A -> Z) l :
  Permutation.Permutation (sort cmp l) l.
Proof.
  induction l as [|x l IH]; simpl; [apply Permutation.perm_nil|].
  apply Permutation.perm_trans with (x :: sort cmp l).
  - apply insert_Permutation.
  - now apply Permutation.perm_skip.
Qed.

Lemma list_sum_Permutation {A : Type} (f : A -> nat) (l l' : list A) :
  Permutation.Permutation l l' -> list_sum (map f l) = list_sum (map f l').
Proof. induction 1; simpl; lia. Qed.

Lemma summaryOrder_floor localeCompare a b :
  (summaryOrder localeCompare a b <= 0 -> floorAtMost a b) /\
  (0 < summaryOrder localeCompare a b -> floorAtMost b a).
Proof.
  unfold summaryOrder, floorAtMost.
  destruct (AvailabilitySummary.floor a =? AvailabilitySummary.floor b)
    eqn:E; simpl.
  - apply Z.eqb_eq in E. lia.
  - lia.
Qed.

Lemma insert_floors localeCompare x l :
  Sorted.StronglySorted floorAtMost l ->
  Sorted.StronglySorted floorAtMost (insert (summaryOrder localeCompare) x l).
Proof.
  induction l as [|y l IH]; simpl; intros SS.
  - constructor; [constructor|constructor].
  - apply Sorted.StronglySorted_inv in SS. destruct SS as [SS F].
    destruct (summaryOrder localeCompare x y <=? 0) eqn:C.
    + apply Z.leb_le in C. apply summaryOrder_floor in C.
      constructor; [now constructor|].
      constructor; [exact C|].
      rewrite Forall_forall in *. intros z Iz. specialize (F z Iz).
      unfold floorAtMost in *. lia.
    + apply Z.leb_gt in C. apply summaryOrder_floor in C.
      constructor; [now apply IH|].
      rewrite Forall_forall in *. intros z Iz.
      apply insert_In in Iz. destruct Iz as [->|Iz]; [exact C|now apply F].
Qed.

Lemma sort_floors localeCompare l :
  Sorted.StronglySorted floorAtMost (sort (summaryOrder localeCompare) l).
Proof.
  induction l as [|x l IH]; simpl; [constructor|now apply insert_floors].
Qed.

(** ** [getAvailability] *)

Lemma getAvailability_unfold localeCompare w :
  getAvailability localeCompare w
  = (Return (sort (summaryOrder localeCompare)
               (JsMap.values
                  (fold_left countSpot (JsMap.values (spots w))
                             JsMap.empty))), w).
Proof. reflexivity. Qed.

Lemma Summarises_spots w :
  Summarises (JsMap.values (spots w))
             (fold_left countSpot (JsMap.values (spots w)) JsMap.empty).
Proof.
  apply (Summarises_fold (JsMap.values (spots w)) [] JsMap.empty).
  apply Summarises_nil.
Qed.

(** X17. [getAvailability] returns one summary for each floor and spot
    type that has a spot, and none for the others: the [total] of a
    summary is the number of spots of that floor and type, its
    [available] the number of those that are available, every spot is
    counted in a summary, and no two summaries stand for the same floor
    and type. *)
Theorem getAvailability_counts localeCompare w :
  exists summaries,
    getAvailability localeCompare w = (Return summaries, w) /\
    (forall x, In x summaries ->
       let g := groupOf (AvailabilitySummary.floor x)
                        (AvailabilitySummary.spotType x)
                        (JsMap.values (spots w)) in
       g <> [] /\
       AvailabilitySummary.total x = List.length g /\
       AvailabilitySummary.available x
       = List.length (filter ParkingSpot.isAvailable g)) /\
    (forall s, In s (JsMap.values (spots w)) ->
       exists x, In x summaries /\
                 AvailabilitySummary.floor x = ParkingSpot.floor s /\
                 AvailabilitySummary.spotType x = ParkingSpot.spotType s) /\
    NoDup (map groupKey summaries).
Proof.
  rewrite getAvailability_unfold. eexists. split; [reflexivity|].
  destruct (Summarises_spots w) as [W EN CV _ _].
  set (m := fold_left countSpot (JsMap.values (spots w)) JsMap.empty) in *.
  split; [|split].
  - intros x Ix. apply sort_In in Ix.
    destruct (values_get x m W Ix) as [key G].
    destruct (EN key x G) as [_ [T [A NE]]]. cbv zeta. auto.
  - intros s Is. pose proof (CV s Is) as G.
    destruct (JsMap.get (summaryKey s) m) as [x|] eqn:Gx; [|congruence].
    exists x. split; [apply sort_In; now apply get_values with (summaryKey s)|].
    destruct (EN _ x Gx) as [K _]. apply keyOf_inj in K.
    destruct K as [F T]. now split.
  - apply Permutation.Permutation_NoDup with (map groupKey (JsMap.values m)).
    + apply Permutation.Permutation_map, Permutation.Permutation_sym,
        sort_Permutation.
    + apply NoDup_map_inv with (f := fun p => keyOf (fst p) (snd p)).
      rewrite map_map.
      replace (map (fun x => keyOf (fst (groupKey x)) (snd (groupKey x)))
                   (JsMap.values m))
        with (JsMap.keys m); [exact W|].
      clear - EN W. unfold JsMap.keys, JsMap.values. rewrite map_map.
      apply map_ext_in. intros [k x] I. simpl.
      apply (In_get k x m W) in I. now destruct (EN k x I) as [K _].
Qed.

(** X18. The summaries [getAvailability] returns are in the order of
    their floors, lower floors first; their totals add up to the number
    of spots of the lot and their available counts to the number of
    available spots. *)
Theorem getAvailability_sorted_and_complete localeCompare w :
  exists summaries available all,
    getAvailability localeCompare w = (Return summaries, w) /\
    getAvailableSpots w = (Return available, w) /\
    getAllSpots w = (Return all, w) /\
    Sorted.StronglySorted floorAtMost summaries /\
    list_sum (map AvailabilitySummary.total summaries) = List.length all /\
    list_sum (map AvailabilitySummary.available summaries)
    = List.length available.
Proof.
  rewrite getAvailability_unfold.
  eexists. eexists. eexists.
  split; [reflexivity|]. split; [reflexivity|]. split; [reflexivity|].
  destruct (Summarises_spots w) as [_ _ _ ST SA].
  set (m := fold_left countSpot (JsMap.values (spots w)) JsMap.empty) in *.
  split; [apply sort_floors|].
  assert (P : forall f : AvailabilitySummary.t -> nat,
            list_sum (map f (sort (summaryOrder localeCompare)
                                  (JsMap.values m)))
            = list_sum (map f (JsMap.values m))).
  { intros f. apply list_sum_Permutation, sort_Permutation. }
  now rewrite !P.
Qed.

(** ** The order of the summaries under a collation that is an order *)

Section SortOrder.
Variable A : Type.
Variable cmp : A -> A -> Z.
Hypothesis cmp_total : forall a b, 0 < cmp a b -> cmp b a <= 0.
Hypothesis cmp_trans :
  forall a b c, cmp a b <= 0 -> cmp b c <= 0 -> cmp a c <= 0.

Lemma insert_sorted x l :
  Sorted.StronglySorted (fun a b => cmp a b <= 0) l ->
  Sorted.StronglySorted (fun a b => cmp a b <= 0) (insert cmp x l).
Proof.
  induction l as [|y l IH]; simpl; intros SS.
  - constructor; [constructor|constructor].
  - apply Sorted.StronglySorted_inv in SS. destruct SS as [SS F].
    destruct (cmp x y <=? 0) eqn:C.
    + apply Z.leb_le in C.
      constructor; [now constructor|].
      constructor; [exact C|].
      rewrite Forall_forall in *. intros z Iz.
      apply cmp_trans with y; auto.
    + apply Z.leb_gt in C. apply cmp_total in C.
      constructor; [now apply IH|].
      rewrite Forall_forall in *. intros z Iz.
      apply insert_In in Iz. destruct Iz as [->|Iz]; [exact C|now apply F].
Qed.

Lemma sort_sorted l :
  Sorted.StronglySorted (fun a b => cmp a b <= 0) (sort cmp l).
Proof.
  induction l as [|x l IH]; simpl; [constructor|now apply insert_sorted].
Qed.
End SortOrder.

Lemma summaryOrder_AtOrBefore localeCompare a b :
  summaryOrder localeCompare a b <= 0 <->
  summaryAtOrBefore localeCompare a b.
Proof.
  unfold summaryOrder, summaryAtOrBefore.
  destruct (AvailabilitySummary.floor a =? AvailabilitySummary.floor b)
    eqn:E; simpl.
  - apply Z.eqb_eq in E. split; [auto|]. intros [L|[_ L]]; [lia|exact L].
  - apply Z.eqb_neq in E. split; [lia|]. intros [L|[F _]]; [lia|congruence].
Qed.

(** X19. When the collation of the host is an order (antisymmetric in
    sign and transitive), the summaries of [getAvailability] are fully
    sorted: every summary comes before the summaries of higher floors
    and, on its own floor, before those whose type name is not smaller
    under the collation. *)
Theorem getAvailability_order localeCompare w :
  (forall a b,
     Z.sgn (localeCompare b a) = - Z.sgn (localeCompare a b)) ->
  (forall a b c, localeCompare a b <= 0 -> localeCompare b c <= 0 ->
                 localeCompare a c <= 0) ->
  exists summaries,
    getAvailability localeCompare w = (Return summaries, w) /\
    Sorted.StronglySorted (summaryAtOrBefore localeCompare) summaries.
Proof.
  intros AS TR. rewrite getAvailability_unfold. eexists.
  split; [reflexivity|].
  assert (SS : Sorted.StronglySorted
                 (fun a b => summaryOrder localeCompare a b <= 0)
                 (sort (summaryOrder localeCompare)
                    (JsMap.values
                       (fold_left countSpot (JsMap.values (spots w))
                                  JsMap.empty)))).
  { apply sort_sorted.
    - intros a b. unfold summaryOrder.
      rewrite (Z.eqb_sym (AvailabilitySummary.floor b)).
      destruct (AvailabilitySummary.floor a =? AvailabilitySummary.floor b);
        simpl; [|lia].
      specialize (AS (spotTypeName (AvailabilitySummary.spotType a))
                     (spotTypeName (AvailabilitySummary.spotType b))).
      lia.
    - intros a b c. rewrite !summaryOrder_AtOrBefore.
      unfold summaryAtOrBefore.
      intros [L1|[E1 L1]] [L2|[E2 L2]]; try (left; lia).
      right. split; [congruence|]. eapply TR; eassumption. }
  induction SS as [|x l SS IH F]; constructor; [exact IH|].
  rewrite Forall_forall in *. intros z Iz.
  now apply summaryOrder_AtOrBefore, F.
Qed.

(** ** The summary of a lot that was just initialized *)

Lemma filter_const {A : Type} (P : A -> bool) (b : bool) (l : list A) :
  (forall a, In a l -> P a = b) ->
  List.length (filter P l) = if b then List.length l else 0%nat.
Proof.
  induction l as [|a l IH]; simpl; intros H.
  - now destruct b.
  - rewrite (H a) by now left.
    assert (IH' : List.length (filter P l)
                  = if b then List.length l else 0%nat)
      by (apply IH; intros a' I'; apply H; now right).
    destruct b; simpl; now rewrite IH'.
Qed.

Lemma groupOf_newSpots f ty spotType floor count c :
  List.length (groupOf f ty (newSpots spotType floor count c))
  = if (floor =? f) && sameSpotType spotType ty then count else 0%nat.
Proof.
  unfold groupOf.
  rewrite (filter_const _ ((floor =? f) && sameSpotType spotType ty)).
  - now rewrite newSpots_length.
  - intros s Is. apply newSpots_In in Is. destruct Is as [F [T _]].
    unfold inGroup. now rewrite F, T.
Qed.

Lemma groupOf_app f ty l1 l2 :
  groupOf f ty (l1 ++ l2) = groupOf f ty l1 ++ groupOf f ty l2.
Proof. apply filter_app. Qed.

Lemma groupOf_floorSpots f ty spotsPerFloor remaining :
  forall floor c,
    List.length (groupOf f ty (floorSpots spotsPerFloor remaining floor c))
    = if (Z.of_nat floor <=? f) && (f <? Z.of_nat (floor + remaining))
      then spotsPerFloor ty else 0%nat.
Proof.
  induction remaining as [|remaining IH]; intros floor c.
  - simpl. destruct (Z.leb_spec (Z.of_nat floor) f);
      destruct (Z.ltb_spec f (Z.of_nat (floor + 0))); simpl; try reflexivity.
    lia.
  - cbn [floorSpots]. cbv zeta.
    rewrite !groupOf_app, !length_app, !groupOf_newSpots, IH.
    destruct (Z.eqb_spec (Z.of_nat floor) f) as [E|E];
      destruct (Z.leb_spec (Z.of_nat floor) f);
      destruct (Z.leb_spec (Z.of_nat (S floor)) f);
      destruct (Z.ltb_spec f (Z.of_nat (S floor + remaining)));
      destruct (Z.ltb_spec f (Z.of_nat (floor + S remaining)));
      try lia; destruct ty; simpl; lia.
Qed.

(** X23. On a lot that was just initialized [getAvailability] shows, for
    every floor from 1 to the number of floors and every spot type with a
    positive count per floor, one summary whose total and available both
    are that count, and no other summary. *)
Theorem initial_availability localeCompare rates clock floors spotsPerFloor :
  let w := initialized rates clock floors spotsPerFloor in
  exists summaries,
    getAvailability localeCompare w = (Return summaries, w) /\
    (forall x, In x summaries ->
       1 <= AvailabilitySummary.floor x <= Z.of_nat floors /\
       (0 < spotsPerFloor (AvailabilitySummary.spotType x))%nat /\
       AvailabilitySummary.total x
       = spotsPerFloor (AvailabilitySummary.spotType x) /\
       AvailabilitySummary.available x
       = spotsPerFloor (AvailabilitySummary.spotType x)) /\
    (forall f ty,
       1 <= f <= Z.of_nat floors -> (0 < spotsPerFloor ty)%nat ->
       exists x, In x summaries /\
                 AvailabilitySummary.floor x = f /\
                 AvailabilitySummary.spotType x = ty).
Proof.
  intros w. rewrite getAvailability_unfold. eexists.
  split; [reflexivity|].
  destruct (Summarises_spots w) as [W EN CV _ _].
  set (m := fold_left countSpot (JsMap.values (spots w)) JsMap.empty) in *.
  assert (V : JsMap.values (spots w) = floorSpots spotsPerFloor floors 1 1)
    by apply spots_initialized.
  assert (L : forall f ty,
            List.length (groupOf f ty (JsMap.values (spots w)))
            = if (1 <=? f) && (f <? Z.of_nat (1 + floors))
              then spotsPerFloor ty else 0%nat).
  { intros f ty. rewrite V.
    apply (groupOf_floorSpots f ty spotsPerFloor floors 1%nat 1%nat). }
  split.
  - intros x Ix. apply sort_In in Ix.
    destruct (values_get x m W Ix) as [key G].
    destruct (EN key x G) as [_ [T [A NE]]]. cbv zeta in *.
    assert (AV : filter ParkingSpot.isAvailable
                   (groupOf (AvailabilitySummary.floor x)
                      (AvailabilitySummary.spotType x)
                      (JsMap.values (spots w)))
                 = groupOf (AvailabilitySummary.floor x)
                      (AvailabilitySummary.spotType x)
                      (JsMap.values (spots w))).
    { apply forallb_filter_id, forallb_forall. intros s Is.
      apply filter_In in Is. destruct Is as [Is _]. rewrite V in Is.
      now apply floorSpots_In in Is. }
    rewrite AV in A. rewrite <- T in A.
    specialize (L (AvailabilitySummary.floor x)
                  (AvailabilitySummary.spotType x)).
    rewrite <- T in L.
    assert (P : (0 < AvailabilitySummary.total x)%nat).
    { rewrite T.
      destruct (groupOf _ _ (JsMap.values (spots w))); [congruence|].
      simpl. lia. }
    destruct (Z.leb_spec 1 (AvailabilitySummary.floor x));
      destruct (Z.ltb_spec (AvailabilitySummary.floor x)
                           (Z.of_nat (1 + floors)));
      simpl in L; lia.
  - intros f ty F P. specialize (L f ty).
    destruct (Z.leb_spec 1 f);
      destruct (Z.ltb_spec f (Z.of_nat (1 + floors)));
      simpl in L; try lia.
    destruct (groupOf f ty (JsMap.values (spots w))) as [|s g] eqn:E;
      [simpl in L; lia|].
    assert (Is : In s (groupOf f ty (JsMap.values (spots w))))
      by (rewrite E; now left).
    apply filter_In in Is. destruct Is as [Is IG].
    apply inGroup_true in IG. destruct IG as [Ff Ft].
    pose proof (CV s Is) as G.
    destruct (JsMap.get (summaryKey s) m) as [x|] eqn:Gx; [|congruence].
    exists x. split; [apply sort_In; now apply get_values with (summaryKey s)|].
    destruct (EN _ x Gx) as [K _]. apply keyOf_inj in K.
    destruct K as [K1 K2]. split; congruence.
Qed.

(** ** The summary and the capacity check *)

(** X24. The availability summary and [hasAvailableSpot] agree:
    [hasAvailableSpot] is true for a vehicle type exactly when some
    summary of [getAvailability] with a positive [available] count is of a
    spot type that fits the vehicle type. *)
Theorem hasAvailableSpot_agrees_with_getAvailability localeCompare vt w :
  exists summaries,
    getAvailability localeCompare w = (Return summaries, w) /\
    (fst (hasAvailableSpot vt w) = Return true <->
     exists x, In x summaries /\
               (0 < AvailabilitySummary.available x)%nat /\
               Fits (AvailabilitySummary.spotType x) vt).
Proof.
  rewrite getAvailability_unfold. eexists. split; [reflexivity|].
  destruct (Summarises_spots w) as [W EN CV _ _].
  set (m := fold_left countSpot (JsMap.values (spots w)) JsMap.empty) in *.
  rewrite hasAvailableSpot_Candidate. split.
  - intros [s [Is [Av F]]]. pose proof (CV s Is) as G.
    destruct (JsMap.get (summaryKey s) m) as [x|] eqn:Gx; [|congruence].
    destruct (EN _ x Gx) as [K [_ [A _]]]. cbv zeta in A.
    exists x. split; [apply sort_In; now apply get_values with (summaryKey s)|].
    pose proof K as K'. apply keyOf_inj in K'. destruct K' as [K1 K2].
    split; [|now rewrite <- K2].
    assert (X : In s (filter ParkingSpot.isAvailable
                        (groupOf (AvailabilitySummary.floor x)
                                 (AvailabilitySummary.spotType x)
                                 (JsMap.values (spots w))))).
    { apply filter_In. split; [|exact Av]. apply filter_In.
      split; [exact Is|]. now apply inGroup_key. }
    rewrite A. destruct (filter ParkingSpot.isAvailable _); [destruct X|].
    simpl. lia.
  - intros [x [Ix [P F]]]. apply sort_In in Ix.
    destruct (values_get x m W Ix) as [key G].
    destruct (EN key x G) as [_ [_ [A _]]]. cbv zeta in A.
    rewrite A in P.
    destruct (filter ParkingSpot.isAvailable
                (groupOf (AvailabilitySummary.floor x)
                         (AvailabilitySummary.spotType x)
                         (JsMap.values (spots w)))) as [|s g] eqn:E;
      [simpl in P; lia|].
    assert (Is : In s (s :: g)) by now left.
    rewrite <- E in Is. apply filter_In in Is. destruct Is as [Is Av].
    apply filter_In in Is. destruct Is as [Is IG].
    apply inGroup_true in IG. destruct IG as [_ T].
    exists s. split; [exact Is|]. split; [exact Av|]. now rewrite T.
Qed.

(** * Fees in the arithmetic of the host *)

(** ** Rounding to binary64 *)

Lemma pow2_pos k : (0 < 2 ^ k)%Q.
Proof. now apply Qpower.Qpower_0_lt. Qed.

Lemma pow2_nonzero k : ~ (2 ^ k == 0)%Q.
Proof.
  pose proof (pow2_pos k) as H. intros E. rewrite E in H. discriminate.
Qed.

Lemma pow2_Z (a : Z) : 0 <= a -> (2 ^ a == inject_Z (2 ^ a))%Q.
Proof.
  intros H. change (2%Q) with (inject_Z 2). symmetry.
  now apply Qpower.Zpower_Qpower.
Qed.

Lemma roundHalfEven_Z z q : (q == inject_Z z)%Q -> roundHalfEven q = z.
Proof.
  intros E. unfold roundHalfEven.
  assert (F : Qfloor q = z) by (rewrite E; apply Qfloor_Z).
  rewrite F.
  assert (C : Qcompare (q - inject_Z z) (1 # 2) = Lt).
  { apply -> Qlt_alt. rewrite E.
    setoid_replace (inject_Z z - inject_Z z)%Q with 0%Q by ring.
    reflexivity. }
  now rewrite C.
Qed.

Lemma ilog2_le q : (0 < q)%Q -> (2 ^ ilog2 q <= q)%Q.
Proof.
  intros P. unfold ilog2.
  set (e := Z.log2 (Qnum q) - Z.log2 (Zpos (Qden q))).
  destruct (Qle_bool (2 ^ e) q) eqn:B; [now apply Qle_bool_iff|].
  destruct q as [n d]. cbn [Qnum Qden] in *.
  assert (Pn : 0 < n) by (unfold Qlt in P; simpl in P; lia).
  pose proof (Z.log2_spec n Pn) as [Ln _].
  pose proof (Z.log2_spec (Z.pos d) (Pos2Z.is_pos d)) as [_ Ld].
  pose proof (Z.log2_nonneg n) as N1.
  pose proof (Z.log2_nonneg (Z.pos d)) as N2.
  unfold e.
  replace (Z.log2 n - Z.log2 (Z.pos d) - 1)
    with (Z.log2 n - Z.succ (Z.log2 (Z.pos d))) by lia.
  rewrite Qpower.Qpower_minus by discriminate.
  rewrite !pow2_Z by lia.
  set (A := 2 ^ Z.log2 n) in *.
  set (B' := 2 ^ Z.succ (Z.log2 (Z.pos d))) in *.
  assert (PB : 0 < B') by lia.
  apply Qle_shift_div_r; [unfold Qlt; simpl; lia|].
  unfold Qle. simpl. nia.
Qed.

Lemma Qabs_pos q : ~ (q == 0)%Q -> (0 < Qabs.Qabs q)%Q.
Proof.
  intros N. destruct (Qlt_le_dec 0 (Qabs.Qabs q)) as [H|H]; [exact H|].
  exfalso. apply N. apply Qabs.Qabs_Qle_condition in H.
  destruct H as [H1 H2]. apply Qle_antisym; assumption.
Qed.

Lemma Qabs_scaled m k :
  (Qabs.Qabs (inject_Z m * 2 ^ k) == inject_Z (Z.abs m) * 2 ^ k)%Q.
Proof.
  rewrite Qabs.Qabs_Qmult.
  rewrite (Qabs.Qabs_pos (2 ^ k)) by (apply Qlt_le_weak, pow2_pos).
  apply Qmult_comp; [|reflexivity].
  unfold Qabs.Qabs, inject_Z. simpl. reflexivity.
Qed.

(** Rounding leaves a binary64 value as it is. *)
Lemma nearest_exact q : binary64 q -> (nearest q == q)%Q.
Proof.
  intros [m [k [M [K E]]]]. unfold nearest.
  destruct (Qeq_bool q 0) eqn:Z0; [apply Qeq_bool_iff in Z0; now rewrite Z0|].
  apply Qeq_bool_neq in Z0.
  set (e := ilog2 (Qabs.Qabs q)). set (j := Z.max (e - 52) (-1074)).
  rewrite Qred_correct.
  pose proof (ilog2_le _ (Qabs_pos q Z0)) as L. fold e in L.
  assert (U : (Qabs.Qabs q < 2 ^ (53 + k))%Q).
  { rewrite E, Qabs_scaled, Qpower.Qpower_plus by discriminate.
    apply Qmult_lt_compat_r; [apply pow2_pos|].
    rewrite pow2_Z by lia. rewrite <- Zlt_Qlt. exact M. }
  assert (EK : e < 53 + k).
  { apply Qpower.Qpower_lt_compat_l_inv with (q := 2%Q); [|reflexivity].
    eapply Qle_lt_trans; eassumption. }
  assert (JK : j <= k) by (unfold j; lia).
  assert (Q1 : (q / 2 ^ j == inject_Z (m * 2 ^ (k - j)))%Q).
  { rewrite E, inject_Z_mult, <- pow2_Z by lia.
    rewrite Qpower.Qpower_minus by discriminate.
    field. apply pow2_nonzero. }
  rewrite (roundHalfEven_Z _ _ Q1), E.
  rewrite inject_Z_mult, <- pow2_Z by lia.
  rewrite Qpower.Qpower_minus by discriminate.
  field. apply pow2_nonzero.
Qed.

(** A binary64 value lies below the overflow threshold. *)
Lemma binary64_finite q : binary64 q -> (Qabs.Qabs q < overflow)%Q.
Proof.
  intros [m [k [M [K E]]]]. rewrite E, Qabs_scaled.
  apply Qle_lt_trans with (inject_Z (2 ^ 53 - 1) * 2 ^ 971)%Q.
  - apply Qle_trans with (inject_Z (Z.abs m) * 2 ^ 971)%Q.
    + rewrite !(Qmult_comm (inject_Z (Z.abs m))).
      apply Qmult_le_compat_r;
        [|change 0%Q with (inject_Z 0); rewrite <- Zle_Qle; lia].
      apply Qpower.Qpower_le_compat_l; [lia|discriminate].
    + apply Qmult_le_compat_r; [|apply Qlt_le_weak, pow2_pos].
      rewrite <- Zle_Qle. lia.
  - rewrite pow2_Z by lia. unfold overflow.
    rewrite <- inject_Z_mult, <- Zlt_Qlt. reflexivity.
Qed.

Lemma double_exact q :
  binary64 q -> exists v, double q = Some v /\ (v == q)%Q.
Proof.
  intros B. exists (nearest q). split; [|now apply nearest_exact].
  unfold double.
  destruct (Qle_bool overflow (Qabs.Qabs q)) eqn:O; [|reflexivity].
  apply Qle_bool_iff in O. apply binary64_finite in B.
  exfalso. exact (Qlt_not_le _ _ B O).
Qed.

Lemma binary64_comp x v : (x == v)%Q -> binary64 v -> binary64 x.
Proof.
  intros E [m [k [M [K V]]]]. exists m, k. repeat split; try tauto.
  now rewrite E.
Qed.

Lemma double_exact_eq x v :
  (x == v)%Q -> binary64 v -> exists r, double x = Some r /\ (r == v)%Q.
Proof.
  intros E B.
  destruct (double_exact x (binary64_comp _ _ E B)) as [r [R Q]].
  exists r. split; [exact R|]. now rewrite Q.
Qed.

(** The rounding agrees with the floats of the processor: on the
    literal [0.1], on the sum [0.1 + 2 * 0.1], on a quotient that is not
    a double, and at the overflow threshold, where adding 2^969 to the
    largest double leaves it and adding 2^970 gives an infinity. *)
Lemma double_agrees_with_the_processor :
  Q_of_float oneTenthFloat = Some oneTenth /\
  double (1 # 10) = Q_of_float oneTenthFloat /\
  fadd (Some oneTenth) (fmul (fsub (Some 3%Q) (Some 1%Q)) (Some oneTenth))
  = Q_of_float
      (PrimFloat.add oneTenthFloat
         (PrimFloat.mul
            (PrimFloat.sub (float_of_positive 3) (float_of_positive 1))
            oneTenthFloat)) /\
  double (1000 # 3600000)
  = Q_of_float (PrimFloat.div (float_of_positive 1000)
                              (float_of_positive 3600000)) /\
  Q_of_float largestFloat = Some largest /\
  fadd (Some largest) (Some (inject_Z (2 ^ 969)))
  = Q_of_float (PrimFloat.add largestFloat (twoToThe 969)) /\
  fadd (Some largest) (Some (inject_Z (2 ^ 970)))
  = Q_of_float (PrimFloat.add largestFloat (twoToThe 970)) /\
  fadd (Some largest) (Some (inject_Z (2 ^ 970))) = None /\
  fmul (Some largest) (Some 2%Q)
  = Q_of_float (PrimFloat.mul largestFloat (float_of_positive 2)).
Proof. repeat split; vm_compute; reflexivity. Qed.

(** ** [calculateFee64] *)

Lemma calculateFee64_unfold vt d w :
  calculateFee64 vt d w =
  match JsMap.get vt (rates w) with
  | None => (Throw (NoRateFound vt), w)
  | Some rate =>
      (Return (if Qceiling d <=? 1 then Some (baseFee rate)
               else fadd (Some (baseFee rate))
                         (fmul (fsub (Some (inject_Z (Qceiling d)))
                                     (Some 1%Q))
                               (Some (hourlyRate rate)))), w)
  end.
Proof.
  unfold calculateFee64, bind, gets. simpl.
  destruct (JsMap.get vt (rates w)); [|reflexivity].
  destruct (Qceiling d <=? 1); reflexivity.
Qed.

(** Where no operation has to round, the host computes the fee as
    worded. *)
Lemma fee_exact rate hours :
  binary64 (inject_Z (hours - 1)) ->
  binary64 (inject_Z (hours - 1) * hourlyRate rate) ->
  binary64 (feeAsWorded rate hours) ->
  exists fee,
    fadd (Some (baseFee rate))
         (fmul (fsub (Some (inject_Z hours)) (Some 1%Q))
               (Some (hourlyRate rate))) = Some fee /\
    (fee == feeAsWorded rate hours)%Q.
Proof.
  intros B1 B2 B3. unfold fadd, fmul, fsub, feeAsWorded in *.
  destruct (double_exact_eq (inject_Z hours - 1) (inject_Z (hours - 1)))
    as [r1 [R1 E1]]; [|exact B1|].
  { unfold Z.sub. rewrite inject_Z_plus. reflexivity. }
  rewrite R1.
  destruct (double_exact_eq (r1 * hourlyRate rate)
              (inject_Z (hours - 1) * hourlyRate rate))
    as [r2 [R2 E2]]; [now rewrite E1|exact B2|].
  rewrite R2.
  destruct (double_exact_eq (baseFee rate + r2)
              (baseFee rate + inject_Z (hours - 1) * hourlyRate rate))
    as [r3 [R3 E3]]; [now rewrite E2|exact B3|].
  exists r3. split; assumption.
Qed.

Lemma binary64_scaled m k q :
  Z.abs m < 2 ^ 53 -> -1074 <= k <= 971 -> (q == inject_Z m * 2 ^ k)%Q ->
  binary64 q.
Proof. intros M K E. exists m, k. auto. Qed.

(** The default rates are halves, so fees under them are exact for any
    stay of up to 2^50 hours. *)
Lemma default_rates_exact vt rate hours :
  JsMap.get vt (FeeCalculator_new None) = Some rate ->
  1 < hours <= 2 ^ 50 ->
  binary64 (inject_Z (hours - 1)) /\
  binary64 (inject_Z (hours - 1) * hourlyRate rate) /\
  binary64 (feeAsWorded rate hours).
Proof.
  intros G H. change (2 ^ 50) with 1125899906842624 in H.
  assert (P : 2 ^ 53 = 9007199254740992) by reflexivity.
  assert (S : forall m k q,
            Z.abs m < 9007199254740992 -> k = 0 \/ k = -1 ->
            (q == inject_Z m * (if k =? 0 then 1 else 1 # 2))%Q ->
            binary64 q).
  { intros m k q M [->| ->] E.
    - apply binary64_scaled with m 0; [lia|lia|exact E].
    - apply binary64_scaled with m (-1); [lia|lia|exact E]. }
  unfold feeAsWorded.
  destruct vt; vm_compute in G; inversion G; subst rate;
    cbn [baseFee hourlyRate]; (split; [|split]).
  - apply S with (hours - 1) 0; [lia|tauto|].
    unfold Qeq, Qplus, Qmult, inject_Z. cbn [Qnum Qden Z.eqb]. lia.
  - apply S with (hours - 1) 0; [lia|tauto|].
    unfold Qeq, Qplus, Qmult, inject_Z. cbn [Qnum Qden Z.eqb]. lia.
  - apply S with (2 + (hours - 1)) 0; [lia|tauto|].
    unfold Qeq, Qplus, Qmult, inject_Z. cbn [Qnum Qden Z.eqb]. lia.
  - apply S with (hours - 1) 0; [lia|tauto|].
    unfold Qeq, Qplus, Qmult, inject_Z. cbn [Qnum Qden Z.eqb]. lia.
  - apply S with (5 * (hours - 1)) (-1); [lia|tauto|].
    unfold Qeq, Qplus, Qmult, inject_Z. cbn [Qnum Qden Z.eqb]. lia.
  - apply S with (10 + 5 * (hours - 1)) (-1); [lia|tauto|].
    unfold Qeq, Qplus, Qmult, inject_Z. cbn [Qnum Qden Z.eqb]. lia.
  - apply S with (hours - 1) 0; [lia|tauto|].
    unfold Qeq, Qplus, Qmult, inject_Z. cbn [Qnum Qden Z.eqb]. lia.
  - apply S with (5 * (hours - 1)) 0; [lia|tauto|].
    unfold Qeq, Qplus, Qmult, inject_Z. cbn [Qnum Qden Z.eqb]. lia.
  - apply S with (10 + 5 * (hours - 1)) 0; [lia|tauto|].
    unfold Qeq, Qplus, Qmult, inject_Z. cbn [Qnum Qden Z.eqb]. lia.
Qed.

(** [calculateFee] computes what the host computes wherever the host
    has nothing to round. *)
Lemma calculateFee64_agrees vt d w rate :
  JsMap.get vt (rates w) = Some rate ->
  (1 < Qceiling d ->
   binary64 (inject_Z (Qceiling d - 1)) /\
   binary64 (inject_Z (Qceiling d - 1) * hourlyRate rate) /\
   binary64 (feeAsWorded rate (Qceiling d))) ->
  exists exact rounded,
    calculateFee vt d w = (Return exact, w) /\
    calculateFee64 vt d w = (Return (Some rounded), w) /\
    (rounded == exact)%Q.
Proof.
  intros G B. rewrite calculateFee_unfold, calculateFee64_unfold, G.
  destruct (Z.leb_spec (Qceiling d) 1) as [L|L].
  - eexists. eexists. split; [reflexivity|]. split; reflexivity.
  - destruct (B L) as [B1 [B2 B3]].
    destruct (fee_exact rate (Qceiling d) B1 B2 B3) as [fee [F E]].
    rewrite F. eexists. exists fee.
    split; [reflexivity|]. split; [reflexivity|exact E].
Qed.

(** C4, as the code has it.  For a class with a registered rate, the fee
    is taken on the duration rounded up to the next whole hour: exactly
    the base rate when that is at most one hour, and otherwise the base
    rate plus the hourly rate for each hour after the first as the
    double-precision arithmetic of the host computes it, the difference,
    the product and the sum each rounded to the nearest double; that is
    exactly the amount as worded wherever these three are doubles, as
    they are under the default table for stays of up to 2^50 hours.  The
    default table is 2.00 and 1.00 for small, 5.00 and 2.50 for medium,
    10.00 and 5.00 for large. *)
Theorem calculateFee_spec vt d w rate :
  JsMap.get vt (rates w) = Some rate ->
  (exists hours, CeilingHours d hours) /\
  (forall hours, CeilingHours d hours ->
     (hours <= 1 ->
      calculateFee64 vt d w = (Return (Some (baseFee rate)), w)) /\
     (1 < hours ->
      calculateFee64 vt d w
      = (Return (fadd (Some (baseFee rate))
                   (fmul (fsub (Some (inject_Z hours)) (Some 1%Q))
                         (Some (hourlyRate rate)))), w) /\
      (binary64 (inject_Z (hours - 1)) ->
       binary64 (inject_Z (hours - 1) * hourlyRate rate) ->
       binary64 (feeAsWorded rate hours) ->
       exists fee,
         calculateFee64 vt d w = (Return (Some fee), w) /\
         (fee == feeAsWorded rate hours)%Q))) /\
  JsMap.get VehicleType.MOTORCYCLE (FeeCalculator_new None)
    = Some (mkRate VehicleType.MOTORCYCLE 2 1) /\
  JsMap.get VehicleType.CAR (FeeCalculator_new None)
    = Some (mkRate VehicleType.CAR 5 (5 # 2)) /\
  JsMap.get VehicleType.BUS (FeeCalculator_new None)
    = Some (mkRate VehicleType.BUS 10 5) /\
  (forall vt' rate' hours,
     JsMap.get vt' (FeeCalculator_new None) = Some rate' ->
     1 < hours <= 2 ^ 50 ->
     binary64 (inject_Z (hours - 1)) /\
     binary64 (inject_Z (hours - 1) * hourlyRate rate') /\
     binary64 (feeAsWorded rate' hours)).
Proof.
  intros G. split; [exists (Qceiling d); apply CeilingHours_Qceiling|].
  split; [|split; [reflexivity|split; [reflexivity|split; [reflexivity|]]]].
  - intros hours C. apply CeilingHours_unique in C. subst hours.
    rewrite calculateFee64_unfold, G.
    split; intros I.
    + apply Z.leb_le in I. now rewrite I.
    + apply Z.leb_gt in I. rewrite I. split; [reflexivity|].
      intros B1 B2 B3.
      destruct (fee_exact rate (Qceiling d) B1 B2 B3) as [fee [F E]].
      exists fee. rewrite F. split; [reflexivity|exact E].
  - intros vt' rate' hours. apply default_rates_exact.
Qed.

(** * The properties on concrete lots *)

(** ** A collation: comparison by code units *)

Lemma codeUnitCompare_antisym a b :
  Z.sgn (codeUnitCompare b a) = - Z.sgn (codeUnitCompare a b).
Proof.
  unfold codeUnitCompare.
  pose proof (OrderedTypeEx.String_as_OT.cmp_antisym a b) as E.
  unfold OrderedTypeEx.String_as_OT.cmp in E. rewrite E.
  destruct (String.compare b a); reflexivity.
Qed.

Lemma codeUnitCompare_eq a b : codeUnitCompare a b = 0 -> a = b.
Proof.
  unfold codeUnitCompare. intros E.
  apply OrderedTypeEx.String_as_OT.cmp_eq.
  unfold OrderedTypeEx.String_as_OT.cmp.
  destruct (String.compare a b); auto; discriminate.
Qed.

Lemma codeUnitCompare_trans a b c :
  codeUnitCompare a b <= 0 -> codeUnitCompare b c <= 0 ->
  codeUnitCompare a c <= 0.
Proof.
  unfold codeUnitCompare. intros AB BC.
  destruct (String.compare a b) eqn:E1; [| |lia].
  - apply OrderedTypeEx.String_as_OT.cmp_eq in E1. now subst b.
  - destruct (String.compare b c) eqn:E2; [| |lia].
    + apply OrderedTypeEx.String_as_OT.cmp_eq in E2. subst c.
      rewrite E1. lia.
    + apply OrderedTypeEx.String_as_OT.cmp_lt in E1, E2.
      pose proof (OrderedTypeEx.String_as_OT.lt_trans _ _ _ E1 E2) as L.
      apply OrderedTypeEx.String_as_OT.cmp_lt in L.
      unfold OrderedTypeEx.String_as_OT.cmp in L. rewrite L. lia.
Qed.

Lemma demoLot_spots_wf : spots_wf demoLot.
Proof. apply inv_spots. apply Inv_initialized. Qed.

(** ** Allocation on the example lot *)

(** The car is given the compact spot of the first floor that comes first,
    C2, before C3 and before the large spot L4. *)
Lemma allocateSpot_first_fit_witness :
  spots_wf demoLot /\
  exists s,
    ParkingSpot.id s = "C2" /\
    Candidate VehicleType.CAR demoLot s /\
    (forall c, Candidate VehicleType.CAR demoLot c -> c <> s ->
               Before codeUnitCompare s c) /\
    fst (allocateSpot codeUnitCompare VehicleType.CAR "ABC-123" demoLot)
    = Return (Some (occupiedBy "ABC-123" s)).
Proof.
  split; [exact demoLot_spots_wf|].
  destruct (allocateSpot_first_fit codeUnitCompare codeUnitCompare_antisym
              codeUnitCompare_trans
              VehicleType.CAR "ABC-123" demoLot demoLot_spots_wf)
    as [_ [_ H]].
  destruct (H (ParkingSpot.new "L4" 1 SpotType.LARGE))
    as [s [C [_ [_ [B [E _]]]]]].
  2: specialize (B codeUnitCompare_eq).
  - split; [|split].
    + vm_compute. tauto.
    + reflexivity.
    + constructor.
  - exists s. split; [|split; [exact C|split; [exact B|now rewrite E]]].
    assert (X : fst (allocateSpot codeUnitCompare VehicleType.CAR "ABC-123"
                       demoLot)
                = Return (Some (occupiedBy "ABC-123"
                                  (ParkingSpot.new "C2" 1 SpotType.COMPACT))))
      by (vm_compute; reflexivity).
    rewrite E in X. simpl in X. inversion X. reflexivity.
Defined.

(** ** Fees on the default table *)

(** A bus for an hour and a quarter on the example lot: two started
    hours, 15.00, with nothing to round. *)
Lemma calculateFee_spec_witness :
  JsMap.get VehicleType.BUS (rates demoLot)
  = Some (mkRate VehicleType.BUS 10 5) /\
  CeilingHours (5 # 4) 2 /\
  exists fee,
    calculateFee64 VehicleType.BUS (5 # 4) demoLot
    = (Return (Some fee), demoLot) /\
    (fee == 10 + 1 * 5)%Q.
Proof.
  assert (G : JsMap.get VehicleType.BUS (rates demoLot)
              = Some (mkRate VehicleType.BUS 10 5)) by reflexivity.
  assert (C : CeilingHours (5 # 4) 2) by (split; reflexivity || discriminate).
  split; [exact G|split; [exact C|]].
  destruct (calculateFee_spec VehicleType.BUS (5 # 4) demoLot
              (mkRate VehicleType.BUS 10 5) G) as [_ [H [_ [_ [GB D]]]]].
  destruct (H 2 C) as [_ H2].
  destruct (H2 ltac:(lia)) as [_ EX].
  destruct (D VehicleType.BUS _ 2 GB) as [B1 [B2 B3]];
    [change (2 ^ 50) with 1125899906842624; lia|].
  exact (EX B1 B2 B3).
Defined.

(** C4, as stated, fails: with a base rate and an hourly rate of 0.1 the
    fee for three hours is not 0.1 plus two times 0.1; the sum is rounded
    up to the next double, 0.30000000000000004. *)
Lemma calculateFee_rounds_at_one_tenth :
  ~ (forall vt d w rate hours,
       JsMap.get vt (rates w) = Some rate ->
       CeilingHours d hours -> 1 < hours ->
       exists fee,
         fst (calculateFee64 vt d w) = Return (Some fee) /\
         (fee == feeAsWorded rate hours)%Q).
Proof.
  intros H.
  destruct (H VehicleType.CAR 3%Q tenthService tenthRate 3) as [fee [E Q3]].
  - reflexivity.
  - split; reflexivity || discriminate.
  - lia.
  - vm_compute in E. inversion E; subst fee.
    revert Q3. vm_compute. discriminate.
Qed.

(** ** Direct releases and the tickets *)

(** C2, as stated, fails: a direct release of the spot of a parked car
    lets the next check-in take the same spot, and two active tickets
    then refer to it. *)
Lemma release_breaks_one_vehicle_per_spot :
  ~ (forall w, Reachable codeUnitCompare w -> OneVehiclePerSpot w).
Proof.
  intros H.
  pose (ops := [CheckIn demoCar; Release "C2"; CheckIn demoSecondCar]).
  assert (R : Reachable codeUnitCompare (run codeUnitCompare ops demoLot))
    by (apply Reachable_run; constructor).
  destruct (H _ R) as [D _].
  apply (D (ParkingTicket.new "T000001" demoCar "C2" 0)
           (ParkingTicket.new "T000002" demoSecondCar "C2" 1800000)).
  - split; reflexivity.
  - split; reflexivity.
  - discriminate.
  - reflexivity.
Qed.

(** ** Round trips *)

(** On the steady clock the car comes at midnight and leaves at half
    past one: two started hours, 7.50. *)
Lemma checkIn_checkOut_round_trip_witness :
  Reachable codeUnitCompare steadyLot /\
  JsMap.get VehicleType.CAR (rates steadyLot)
  = Some (mkRate VehicleType.CAR 5 (5 # 2)) /\
  exists S w1 T w3 fee,
    checkInVehicle codeUnitCompare demoCar steadyLot = (Return (Some S), w1) /\
    checkOutVehicle "ABC-123"
      (run codeUnitCompare [CheckIn demoBike; Release "L4"] w1)
    = (Return T, w3) /\
    ParkingTicket.ticketId T = ParkingTicket.ticketId S /\
    ParkingTicket.exitTime T = Some 5400000 /\
    ParkingTicket.fee T = Some fee /\
    calculateFee VehicleType.CAR (ParkingTicket.hoursUntil 5400000 S)
                 (run codeUnitCompare [CheckIn demoBike; Release "L4"] w1)
    = (Return fee, run codeUnitCompare [CheckIn demoBike; Release "L4"] w1) /\
    (exists s, JsMap.get (ParkingTicket.spot S) (spots w3) = Some s /\
               ParkingSpot.isAvailable s = true /\
               ParkingSpot.currentVehicleLicense s = None).
Proof.
  assert (R : Reachable codeUnitCompare steadyLot) by constructor.
  assert (G : JsMap.get VehicleType.CAR (rates steadyLot)
              = Some (mkRate VehicleType.CAR 5 (5 # 2))) by reflexivity.
  split; [exact R|split; [exact G|]].
  pose (S := ParkingTicket.new "T000001" demoCar "C2" 0).
  pose (w1 := snd (checkInVehicle codeUnitCompare demoCar steadyLot)).
  assert (CI : checkInVehicle codeUnitCompare demoCar steadyLot
               = (Return (Some S), w1)) by reflexivity.
  assert (NC : forall op, In op [CheckIn demoBike; Release "L4"] ->
                 ~ concerns (Vehicle.licensePlate demoCar) op).
  { intros op [<-|[<-|[]]]; simpl; [discriminate|tauto]. }
  destruct (checkIn_checkOut_round_trip codeUnitCompare demoCar steadyLot S w1
              [CheckIn demoBike; Release "L4"]
              (mkRate VehicleType.CAR 5 (5 # 2)) R G CI NC)
    as [T [w3 [fee [CO [TI [XT [FT [FEE [_ SP]]]]]]]]].
  exists S, w1, T, w3, fee.
  split; [exact CI|]. split; [exact CO|]. split; [exact TI|].
  split; [exact XT|]. split; [exact FT|]. split; [|exact SP].
  apply FEE; [reflexivity|exact XT].
Defined.

(** C3, as stated, fails: on a lot whose fee calculator holds no rate for
    cars, the car checks in, and its check-out throws for want of a rate
    instead of returning a session. *)
Lemma checkOut_without_rate_throws :
  ~ (forall vehicle w S w1,
       Reachable codeUnitCompare w ->
       checkInVehicle codeUnitCompare vehicle w = (Return (Some S), w1) ->
       exists T w3,
         checkOutVehicle (Vehicle.licensePlate vehicle) w1 = (Return T, w3)).
Proof.
  intros H.
  assert (R : Reachable codeUnitCompare lotWithoutRates) by constructor.
  assert (CI : checkInVehicle codeUnitCompare demoCar lotWithoutRates
               = (Return (Some (ParkingTicket.new "T000001" demoCar "C2" 0)),
                  snd (checkInVehicle codeUnitCompare demoCar
                         lotWithoutRates))) by reflexivity.
  destruct (H _ _ _ _ R CI) as [T [w3 E]].
  vm_compute in E. discriminate.
Qed.

(** ** Capacity exhaustion *)

(** One small-only spot and two motorcycles: the first is parked, the
    second is turned away and the state stays as the first left it. *)
Lemma checkIn_none_no_effect_witness :
  let lot := initialized None demoClock 1 oneSmallSpot in
  let full := snd (checkInVehicle codeUnitCompare demoBike lot) in
  let second := Vehicle.mk "MC-002" VehicleType.MOTORCYCLE None in
  fst (checkInVehicle codeUnitCompare second full) = Return None /\
  snd (checkInVehicle codeUnitCompare second full) = full /\
  ticketCounter (snd (checkInVehicle codeUnitCompare second full)) = 2%nat.
Proof.
  intros lot full second.
  assert (E : checkInVehicle codeUnitCompare second full
              = (Return None,
                 snd (checkInVehicle codeUnitCompare second full)))
    by reflexivity.
  destruct (checkIn_none_no_effect codeUnitCompare second full _ E)
    as [W [_ [_ [_ [C _]]]]].
  split; [now rewrite E|split; [exact W|]]. rewrite C. reflexivity.
Defined.

(** ** Spot identifiers *)

(** C9, as stated, fails: with one spot of each class on one floor the
    compact spot is the first of its class, and its identifier is C2, not
    C1; the counter is shared by the classes. *)
Lemma spot_ids_not_per_class :
  ~ NumberedPerClass
      (JsMap.values (spots (initialized None demoClock 1 oneOfEach))).
Proof.
  intros H.
  specialize (H 1%nat (ParkingSpot.new "C2" 1 SpotType.COMPACT) eq_refl).
  vm_compute in H. discriminate.
Qed.

(** * More properties on concrete lots *)

(** ** Capacity *)

(** The example lot has room for a bus, hence for a car. *)
Lemma hasAvailableSpot_monotone_witness :
  (vehicleRank VehicleType.CAR <= vehicleRank VehicleType.BUS)%nat /\
  fst (hasAvailableSpot VehicleType.BUS demoLot) = Return true /\
  fst (hasAvailableSpot VehicleType.CAR demoLot) = Return true.
Proof.
  assert (L : (vehicleRank VehicleType.CAR <= vehicleRank VehicleType.BUS)%nat)
    by (simpl; lia).
  assert (H : fst (hasAvailableSpot VehicleType.BUS demoLot) = Return true)
    by reflexivity.
  split; [exact L|split; [exact H|]].
  exact (hasAvailableSpot_monotone VehicleType.BUS VehicleType.CAR demoLot
           L H).
Defined.

(** ** Fees *)

(** Half an hour and three and a half hours for a car. *)
Lemma calculateFee_monotone_witness :
  JsMap.get VehicleType.CAR (rates demoLot) = Some carRate /\
  exists fee1 fee2,
    calculateFee VehicleType.CAR (1 # 2) demoLot = (Return fee1, demoLot) /\
    calculateFee VehicleType.CAR (7 # 2) demoLot = (Return fee2, demoLot) /\
    (baseFee carRate <= fee1)%Q /\ (fee1 <= fee2)%Q.
Proof.
  assert (G : JsMap.get VehicleType.CAR (rates demoLot) = Some carRate)
    by reflexivity.
  split; [exact G|].
  apply (calculateFee_monotone VehicleType.CAR demoLot carRate (1 # 2) (7 # 2)
           G); discriminate.
Defined.

(** One millisecond past the first hour starts the second hour. *)
Lemma fee_by_started_hour_witness :
  calculateFee VehicleType.CAR
    (ParkingTicket.hoursUntil 3600001 carTicket) demoLot
  = calculateFee VehicleType.CAR (inject_Z 2) demoLot.
Proof.
  assert (G : JsMap.get VehicleType.CAR (rates demoLot) = Some carRate)
    by reflexivity.
  assert (B : (2 - 1) * 3600000
              < 3600001 - ParkingTicket.entryTime carTicket
              <= 2 * 3600000) by (simpl; lia).
  exact (proj1 (fee_by_started_hour VehicleType.CAR demoLot carRate carTicket
                  3600001 2 G B)).
Defined.

(** ** Tickets *)

Lemma busyLot_Reachable : Reachable codeUnitCompare busyLot.
Proof. apply Reachable_run. constructor. Qed.

Lemma carParked_Reachable : Reachable codeUnitCompare carParked.
Proof. apply (Reachable_step codeUnitCompare (CheckIn demoCar)). constructor. Qed.

Lemma tickets_numbered_in_order_witness :
  exists all,
    getAllTickets busyLot = (Return all, busyLot) /\
    map ParkingTicket.ticketId all
    = map ticketIdOf (seq 1 (List.length all)) /\
    ticketCounter busyLot = S (List.length all) /\
    getTicket (ticketIdOf (S (List.length all))) busyLot
    = (Return None, busyLot).
Proof.
  destruct (tickets_numbered_in_order codeUnitCompare busyLot
              busyLot_Reachable) as [all [E [M [_ [C [_ G]]]]]].
  exists all. auto.
Defined.

(** The ticket of the car is still there after the car left and another
    came. *)
Lemma tickets_are_never_deleted_witness :
  getTicket "T000001" carParked = (Return (Some carTicket), carParked) /\
  exists t',
    getTicket "T000001"
      (run codeUnitCompare [CheckOut "ABC-123"; CheckIn demoSecondCar]
           carParked)
    = (Return (Some t'),
       run codeUnitCompare [CheckOut "ABC-123"; CheckIn demoSecondCar]
           carParked) /\
    sameSession carTicket t'.
Proof.
  assert (G : getTicket "T000001" carParked
              = (Return (Some carTicket), carParked)) by reflexivity.
  split; [exact G|].
  destruct (tickets_are_never_deleted codeUnitCompare
              [CheckOut "ABC-123"; CheckIn demoSecondCar]
              carParked carParked_Reachable "T000001" carTicket G)
    as [t' [G' [S' _]]].
  exists t'. auto.
Defined.

Lemma active_sessions_indexed_witness :
  exists active,
    getActiveTickets busyLot = (Return active, busyLot) /\
    NoDup (map plateOf active) /\
    List.length active = JsMap.size (activeTicketsByVehicle busyLot).
Proof.
  destruct (active_sessions_indexed codeUnitCompare busyLot
              busyLot_Reachable) as [active [E [N [L _]]]].
  exists active. auto.
Defined.

Lemma sessions_are_isolated_witness :
  fst (getActiveTicketByVehicle "ABC-123"
         (run codeUnitCompare
              [CheckIn demoBike; Release "L4"; CheckOut "MC-001"] carParked))
  = Return (Some carTicket).
Proof.
  assert (NC : forall op,
            In op [CheckIn demoBike; Release "L4"; CheckOut "MC-001"] ->
            ~ concerns "ABC-123" op).
  { intros op [<-|[<-|[<-|[]]]]; simpl; try discriminate. tauto. }
  rewrite (sessions_are_isolated codeUnitCompare _ "ABC-123" carParked
             carParked_Reachable NC).
  reflexivity.
Defined.

(** ** Errors *)

Lemma defensive_errors_never_raised_witness :
  (forall vt lic e,
     fst (allocateSpot codeUnitCompare vt lic busyLot) <> Throw e) /\
  (forall e,
     fst (checkOutVehicle "ABC-123" busyLot) = Throw e ->
     e = NoActiveSession "ABC-123").
Proof.
  destruct (defensive_errors_never_raised codeUnitCompare busyLot
              busyLot_Reachable) as [A [_ O]].
  split; [exact A|].
  intros e E. destruct (O "ABC-123" e E) as [[_ X]|[t [X _]]]; [exact X|].
  vm_compute in X. discriminate.
Defined.

Lemma checkOut_without_rate_keeps_session_witness :
  fst (checkOutVehicle "ABC-123" carParkedWithoutRates)
  = Throw (NoRateFound VehicleType.CAR) /\
  activeTicketOf "ABC-123" (snd (checkOutVehicle "ABC-123"
                                   carParkedWithoutRates))
  = Some carTicket /\
  exists T w3,
    checkOutVehicle "ABC-123"
      (snd (setRate carRate
              (snd (checkOutVehicle "ABC-123" carParkedWithoutRates))))
    = (Return T, w3) /\
    sameSession carTicket T /\
    activeTicketOf "ABC-123" w3 = None.
Proof.
  assert (R : Reachable codeUnitCompare carParkedWithoutRates)
    by (apply (Reachable_step codeUnitCompare (CheckIn demoCar));
        constructor).
  assert (AT : activeTicketOf "ABC-123" carParkedWithoutRates
               = Some carTicket) by reflexivity.
  assert (GR : JsMap.get (Vehicle.type (ParkingTicket.vehicle carTicket))
                 (rates carParkedWithoutRates) = None) by reflexivity.
  assert (VT : vehicleType carRate
               = Vehicle.type (ParkingTicket.vehicle carTicket))
    by reflexivity.
  destruct (checkOut_without_rate_keeps_session codeUnitCompare
              carParkedWithoutRates "ABC-123" carTicket carRate R AT GR VT)
    as [E [_ [A [T [w3 [fee [CO [SS [_ [_ [_ N]]]]]]]]]]].
  split; [exact E|]. split; [exact A|].
  exists T, w3. auto.
Defined.

(** ** Round trips *)

Lemma allocate_release_round_trip_witness :
  releaseSpot "C2"
    (snd (allocateSpot codeUnitCompare VehicleType.CAR "ABC-123" demoLot))
  = (Return tt, demoLot).
Proof.
  assert (R : Reachable codeUnitCompare demoLot) by constructor.
  assert (A : allocateSpot codeUnitCompare VehicleType.CAR "ABC-123" demoLot
              = (Return (Some (occupiedBy "ABC-123"
                                 (ParkingSpot.new "C2" 1 SpotType.COMPACT))),
                 snd (allocateSpot codeUnitCompare VehicleType.CAR "ABC-123"
                        demoLot))) by reflexivity.
  exact (allocate_release_round_trip codeUnitCompare VehicleType.CAR
           "ABC-123" demoLot _ _ R A).
Defined.

Lemma visit_leaves_lot_as_found_witness :
  exists T w3,
    checkOutVehicle "ABC-123" carParked = (Return T, w3) /\
    spots w3 = spots demoLot /\
    activeTicketsByVehicle w3 = activeTicketsByVehicle demoLot /\
    JsMap.values (tickets w3) = [T] /\
    ticketCounter w3 = 2%nat.
Proof.
  assert (R : Reachable codeUnitCompare demoLot) by constructor.
  assert (G : JsMap.get (Vehicle.type demoCar) (rates demoLot) = Some carRate)
    by reflexivity.
  assert (CI : checkInVehicle codeUnitCompare demoCar demoLot
               = (Return (Some carTicket), carParked)) by reflexivity.
  destruct (visit_leaves_lot_as_found codeUnitCompare demoCar demoLot
              carTicket carParked carRate R G CI)
    as [T [w3 [CO [SP [IX [TK [TC _]]]]]]].
  exists T, w3. auto.
Defined.

(** ** The lot as a whole *)

Lemma lot_layout_is_fixed_witness :
  layout busyLot = layout demoLot.
Proof.
  assert (R : Reachable codeUnitCompare demoLot) by constructor.
  exact (proj1 (proj2 (lot_layout_is_fixed codeUnitCompare
                         [CheckIn demoCar; CheckIn demoBike;
                          CheckOut "ABC-123"] demoLot R))).
Defined.

Lemma parked_plus_available_is_capacity_witness :
  exists available active all,
    getAvailableSpots busyLot = (Return available, busyLot) /\
    getActiveTickets busyLot = (Return active, busyLot) /\
    getAllSpots busyLot = (Return all, busyLot) /\
    (List.length available + List.length active)%nat = List.length all.
Proof.
  assert (F : Forall serviceOp
                [CheckIn demoCar; CheckIn demoBike; CheckOut "ABC-123"])
    by (repeat constructor).
  exact (parked_plus_available_is_capacity codeUnitCompare None demoClock 2
           demoSpotsPerFloor _ F).
Defined.

Lemma getAvailability_order_witness :
  exists summaries,
    getAvailability codeUnitCompare busyLot = (Return summaries, busyLot) /\
    Sorted.StronglySorted (summaryAtOrBefore codeUnitCompare) summaries.
Proof.
  exact (getAvailability_order codeUnitCompare busyLot
           codeUnitCompare_antisym codeUnitCompare_trans).
Defined.

(** ** The session of the car *)

Lemma checkIn_records_session_witness :
  carTicket
  = ParkingTicket.new (ticketIdOf (ticketCounter demoLot)) demoCar
      (ParkingTicket.spot carTicket) (clock demoLot (clockReads demoLot)) /\
  getTicket "T000001" demoLot = (Return None, demoLot) /\
  getTicket "T000001" carParked = (Return (Some carTicket), carParked) /\
  getActiveTicketByVehicle "ABC-123" carParked
  = (Return (Some carTicket), carParked).
Proof.
  assert (R : Reachable codeUnitCompare demoLot) by constructor.
  assert (CI : checkInVehicle codeUnitCompare demoCar demoLot
               = (Return (Some carTicket), carParked)) by reflexivity.
  destruct (checkIn_records_session codeUnitCompare demoCar demoLot
              carTicket carParked R CI) as [E [_ [N [G [A _]]]]].
  auto.
Defined.

(** The car leaves half an hour after it came, on a clock that advances
    half an hour with every reading. *)
Lemma receipt_covers_recorded_stay_witness :
  exists T w3 charged reported recorded,
    checkOutVehicle "ABC-123" carParked = (Return T, w3) /\
    ParkingTicket.exitTime T = Some 1800000 /\
    ParkingTicket.fee T = Some charged /\
    getDuration T w3 = (Return reported, w3) /\
    calculateFee VehicleType.CAR reported w3 = (Return recorded, w3) /\
    (recorded <= charged)%Q.
Proof.
  assert (AT : activeTicketOf "ABC-123" carParked = Some carTicket)
    by reflexivity.
  assert (GR : JsMap.get (Vehicle.type (ParkingTicket.vehicle carTicket))
                 (rates carParked) = Some carRate) by reflexivity.
  assert (H : (0 <= hourlyRate carRate)%Q) by discriminate.
  assert (CL : clock carParked (clockReads carParked)
               <= clock carParked (S (clockReads carParked)))
    by discriminate.
  destruct (receipt_covers_recorded_stay codeUnitCompare carParked "ABC-123"
              carTicket carRate carParked_Reachable AT GR H CL)
    as [T [w3 [charged [reported [recorded
         [CO [XT [F [_ [D [_ [C [LE _]]]]]]]]]]]]].
  exists T, w3, charged, reported, recorded.
  split; [exact CO|]. split; [exact XT|]. split; [exact F|].
  split; [apply D|]. split; [|exact LE].
  assert (V : Vehicle.type (ParkingTicket.vehicle T) = VehicleType.CAR).
  { assert (E : fst (checkOutVehicle "ABC-123" carParked) = Return T)
      by now rewrite CO.
    vm_compute in E. inversion E. reflexivity. }
  now rewrite <- V.
Defined.
